(** * Quantum_Notebooks: the circuit builders and numerical helpers of the
      course notebooks, embedded and checked against their specification.

    Three notebooks are covered:
    - [HW5_logic_and_grover]: [apply_oracle] and [CnX] (module [Grover]);
    - the Schroedinger notebook: the discretized Hamiltonian [H] and the
      generator [evolve] (module [Schroedinger]);
    - the CHSH notebook: the basis-change helpers [XW], [XV], [ZW], [ZV]
      (module [CHSH]).

    Python values are modelled as follows.  A qubit is the pair of its
    register's name and its index in it.  A [QuantumCircuit] is the list of
    the gates appended so far together with the names and sizes of its
    registers.  Python lists are objects in a store and are passed by
    reference; registers and tuples are immutable sequences passed by value.
    A call is a state transformer that returns either a value or the
    exception it raised, together with the state reached at that point.
    Floating-point numbers are idealised as real numbers.

    Appending a gate always succeeds here.  The library refuses a gate
    whose operands repeat or are not qubits of the circuit; the theorems
    that depend on it assume distinct qubits. *)

From Stdlib Require Import String List ZArith Bool Lia Arith Permutation Reals Lra.
Import ListNotations.

(** ** Python runtime: exceptions, results, the store *)

Inductive qubit : Type := Qubit (reg : string) (idx : nat).

Definition qubit_eq_dec (a b : qubit) : {a = b} + {a <> b}.
Proof. decide equality; [apply Nat.eq_dec | apply string_dec]. Defined.

Definition qubit_eqb (a b : qubit) : bool :=
  if qubit_eq_dec a b then true else false.

(** The gates the notebooks append.  [GBarrier None] is [circ.barrier()]
    (all qubits), [GBarrier (Some qs)] is [circ.barrier(qs)]. *)
Inductive gate : Type :=
| GX (q : qubit)
| GCX (c t : qubit)
| GCCX (a b t : qubit)
| GH (q : qubit)
| GS (q : qubit)
| GT (q : qubit)
| GTdg (q : qubit)
| GBarrier (qs : option (list qubit)).

Inductive exn : Type :=
| ValueError (msg : string)
| AssertionError (msg : string)
| TypeError
| IndexError
| AttributeError
| NameError
| CircuitError
| RecursionError.

Inductive result (A : Type) : Type :=
| Ok (a : A)
| Raise (e : exn).
Arguments Ok {A} a.
Arguments Raise {A} e.

Definition loc := nat.

(** What [print] wrote: the two numbers formatted into the warning of [CnX]. *)
Record printed : Type := Printed { got : nat; need : nat }.

Record pystate : Type := PyState {
  gates : list gate;                 (* circ.data, in program order *)
  qregs : list (string * nat);       (* circ.qregs: name and size *)
  heap : loc -> list qubit;          (* the Python list objects *)
  next : loc;                        (* the next unused address *)
  stdout : list printed
}.

Definition M (A : Type) : Type := pystate -> result A * pystate.

Definition ret {A} (a : A) : M A := fun st => (Ok a, st).

Definition raise {A} (e : exn) : M A := fun st => (Raise e, st).

Definition bind {A B} (m : M A) (f : A -> M B) : M B :=
  fun st =>
    match m st with
    | (Ok a, st') => f a st'
    | (Raise e, st') => (Raise e, st')
    end.

Declare Scope py_scope.
Delimit Scope py_scope with py.
Notation "x <- m ;; k" := (bind m (fun x => k))
  (at level 61, m at next level, right associativity) : py_scope.
Notation "m ;;; k" := (bind m (fun _ => k))
  (at level 61, right associativity) : py_scope.
Open Scope py_scope.

(** [try: body except: handler] with a bare [except]. *)
Definition try_except {A} (body handler : M A) : M A :=
  fun st =>
    match body st with
    | (Ok a, st') => (Ok a, st')
    | (Raise _, st') => handler st'
    end.

Definition lift {A} (r : result A) : M A := fun st => (r, st).

(** [for x in xs: body x] *)
Fixpoint for_each {A} (xs : list A) (body : A -> M unit) : M unit :=
  match xs with
  | [] => ret tt
  | x :: xs' => body x ;;; for_each xs' body
  end.

(** [for (k, x) in enumerate(xs): body k x], counting from [k0]. *)
Fixpoint for_enumerate {A} (k0 : nat) (xs : list A) (body : nat -> A -> M unit) : M unit :=
  match xs with
  | [] => ret tt
  | x :: xs' => body k0 x ;;; for_enumerate (S k0) xs' body
  end.

(** [l[i]] on a Python sequence: negative indices count from the end, an
    index outside [-len, len) raises [IndexError]. *)
Definition getitem {A} (l : list A) (i : Z) : result A :=
  let n := Z.of_nat (length l) in
  let j := if (i <? 0)%Z then (n + i)%Z else i in
  if ((0 <=? j) && (j <? n))%Z then
    match nth_error l (Z.to_nat j) with
    | Some a => Ok a
    | None => Raise IndexError
    end
  else Raise IndexError.

(** ** The circuit object *)

Definition append_gate (g : gate) : M unit :=
  fun st => (Ok tt, PyState (gates st ++ [g]) (qregs st) (heap st) (next st) (stdout st)).

Definition circ_x (q : qubit) : M unit := append_gate (GX q).
Definition circ_cx (c t : qubit) : M unit := append_gate (GCX c t).
Definition circ_ccx (a b t : qubit) : M unit := append_gate (GCCX a b t).
Definition circ_h (q : qubit) : M unit := append_gate (GH q).
Definition circ_s (q : qubit) : M unit := append_gate (GS q).
Definition circ_t (q : qubit) : M unit := append_gate (GT q).
Definition circ_tdg (q : qubit) : M unit := append_gate (GTdg q).
Definition circ_barrier (qs : option (list qubit)) : M unit := append_gate (GBarrier qs).

(** [QuantumRegister(size, name)]: the qubits [name[0] .. name[size-1]]. *)
Definition QuantumRegister (size : nat) (name : string) : list qubit :=
  map (Qubit name) (seq 0 size).

(** [circ.add_register(reg)]: the library refuses a second register of the
    same name. *)
Definition add_register (name : string) (size : nat) : M unit :=
  fun st =>
    if existsb (fun r => String.eqb (fst r) name) (qregs st)
    then (Raise CircuitError, st)
    else (Ok tt, PyState (gates st) (qregs st ++ [(name, size)]) (heap st) (next st) (stdout st)).

(** ** Basis-state semantics of the classical gates

    [x], [cx] and [ccx] permute the computational basis; a circuit made of
    them is determined by its action on basis states.  The other gates have
    no basis-state semantics ([None]); barriers do nothing. *)

Definition bstate := qubit -> bool.

Definition upd (s : bstate) (q : qubit) (v : bool) : bstate :=
  fun q' => if qubit_eq_dec q' q then v else s q'.

Definition gate_sem (g : gate) (s : bstate) : option bstate :=
  match g with
  | GX q => Some (upd s q (negb (s q)))
  | GCX c t => Some (upd s t (xorb (s t) (s c)))
  | GCCX a b t => Some (upd s t (xorb (s t) (s a && s b)))
  | GBarrier _ => Some s
  | GH _ | GS _ | GT _ | GTdg _ => None
  end.

Fixpoint run (gs : list gate) (s : bstate) : option bstate :=
  match gs with
  | [] => Some s
  | g :: gs' =>
      match gate_sem g s with
      | Some s' => run gs' s'
      | None => None
      end
  end.

(** Only [cx] and [ccx] gates. *)
Definition is_cx_or_ccx (g : gate) : bool :=
  match g with
  | GCX _ _ | GCCX _ _ _ => true
  | _ => false
  end.

(** ** HW5_logic_and_grover: [apply_oracle] and [CnX] *)

Module Grover.

(** *** apply_oracle

    [f_in], [f_out] and [aux] are registers, indexed like Python sequences;
    [expression] is a list of clauses, each a list of signed integers. *)

(** One round of [for literal in clause] in the first part of the loop body:
    xor the literal into [aux[k]], negating the input qubit in place first
    when the literal is not positive. *)
Definition xor_literal (f_in aux : list qubit) (k : nat) (literal : Z) : M unit :=
  if (literal >? 0)%Z then
    c <- lift (getitem f_in (literal - 1)) ;;
    t <- lift (getitem aux (Z.of_nat k)) ;;
    circ_cx c t
  else
    q <- lift (getitem f_in (- literal - 1)) ;;
    circ_x q ;;;
    c <- lift (getitem f_in (- literal - 1)) ;;
    t <- lift (getitem aux (Z.of_nat k)) ;;
    circ_cx c t.

(** One round of the loop that flips the negated inputs back. *)
Definition unflip_literal (f_in : list qubit) (literal : Z) : M unit :=
  if (literal <? 0)%Z then
    q <- lift (getitem f_in (- literal - 1)) ;;
    circ_x q
  else ret tt.

(** [circ.ccx(r1[i1], r2[i2], r3[i3])]: the three subscripts are evaluated
    left to right, then the gate is appended. *)
Definition ccx_at (r1 : list qubit) (i1 : Z) (r2 : list qubit) (i2 : Z)
    (r3 : list qubit) (i3 : Z) : M unit :=
  a <- lift (getitem r1 i1) ;;
  b <- lift (getitem r2 i2) ;;
  t <- lift (getitem r3 i3) ;;
  circ_ccx a b t.

Definition cx_at (r1 : list qubit) (i1 : Z) (r2 : list qubit) (i2 : Z) : M unit :=
  c <- lift (getitem r1 i1) ;;
  t <- lift (getitem r2 i2) ;;
  circ_cx c t.

(** The body of [for (k, clause) in enumerate(expression)].  The source
    writes this body twice, once to compute and once to uncompute ("same
    loop as above"); both loops run this definition. *)
Definition clause_body (f_in aux : list qubit) (num_clauses : nat)
    (k : nat) (clause : list Z) : M unit :=
  for_each clause (xor_literal f_in aux k) ;;;
  circ_barrier (Some f_in) ;;;
  ccx_at f_in 0 f_in 1 aux (Z.of_nat num_clauses) ;;;
  ccx_at f_in 2 aux (Z.of_nat num_clauses) aux (Z.of_nat k) ;;;
  circ_barrier (Some f_in) ;;;
  ccx_at f_in 0 f_in 1 aux (Z.of_nat num_clauses) ;;;
  for_each clause (unflip_literal f_in) ;;;
  circ_barrier None.

Definition too_many_clauses : string := "We only allow at most 3 clauses".

(** The [if]/[elif] chain that writes the conjunction of the clause
    ancillas into [f_out[0]]. *)
Definition combine_clauses (f_out aux : list qubit) (num_clauses : nat) : M unit :=
  if num_clauses =? 1 then
    cx_at aux 0 f_out 0
  else if num_clauses =? 2 then
    ccx_at aux 0 aux 1 f_out 0
  else if num_clauses =? 3 then
    ccx_at aux 0 aux 1 aux (Z.of_nat num_clauses) ;;;
    ccx_at aux 2 aux (Z.of_nat num_clauses) f_out 0 ;;;
    ccx_at aux 0 aux 1 aux (Z.of_nat num_clauses)
  else raise (ValueError too_many_clauses).

(** [n] is a parameter of the source function that its body never reads. *)
Definition apply_oracle (f_in f_out aux : list qubit) (n : Z)
    (expression : list (list Z)) : M unit :=
  let num_clauses := length expression in
  for_enumerate 0 expression (clause_body f_in aux num_clauses) ;;;
  combine_clauses f_out aux num_clauses ;;;
  circ_barrier None ;;;
  for_enumerate 0 expression (clause_body f_in aux num_clauses).

(** *** The transformed 1-in-3-SAT expression, as the notebook states it

    [x i] is the value of the variable [x_i]; the literal [i+1] stands for
    [x_i] and [-(i+1)] for its negation. *)

Definition literal_value (x : nat -> bool) (literal : Z) : bool :=
  if (literal >? 0)%Z then x (Z.to_nat (literal - 1))
  else negb (x (Z.to_nat (- literal - 1))).

(** [g = l1 xor l2 xor l3 xor (l1 and l2 and l3)], for a clause of any
    length. *)
Definition transformed_clause (x : nat -> bool) (clause : list Z) : bool :=
  xorb (fold_right xorb false (map (literal_value x) clause))
       (forallb (literal_value x) clause).

(** [E' = g_0 and g_1 and ... and g_(M-1)]. *)
Definition transformed_expression (x : nat -> bool) (expression : list (list Z)) : bool :=
  forallb (transformed_clause x) expression.

(** A clause over [x0], [x1], [x2]: three literals among [1,2,3,-1,-2,-3]. *)
Definition literal_ok (literal : Z) : bool :=
  ((1 <=? Z.abs literal) && (Z.abs literal <=? 3))%Z.

Definition clause_ok (clause : list Z) : bool :=
  (length clause =? 3) && forallb literal_ok clause.

(** A clause that names each of [x0], [x1], [x2] exactly once: the absolute
    values of its three literals are 1, 2 and 3 in some order. *)
Definition names_each_variable_once (clause : list Z) : bool :=
  clause_ok clause
  && forallb (fun v => existsb (fun l => (Z.abs l =? v)%Z) clause) [1; 2; 3]%Z.

(** *** CnX

    [ctrls] and [clean_aux] are Python sequences: a list (an object of the
    store, mutated by [pop] and [append]) or any other sequence, held by
    value (a register, a tuple).  [target] is a qubit or a register. *)

Inductive pyseq : Type :=
| PList (l : loc)
| PTuple (qs : list qubit).

Inductive pytarget : Type :=
| TQubit (q : qubit)
| TReg (qs : list qubit).

Definition contents (st : pystate) (s : pyseq) : list qubit :=
  match s with
  | PList l => heap st l
  | PTuple qs => qs
  end.

Definition set_heap (st : pystate) (l : loc) (v : list qubit) : pystate :=
  PyState (gates st) (qregs st)
          (fun l' => if Nat.eqb l' l then v else heap st l')
          (next st) (stdout st).

(** [len(s)] *)
Definition seq_len (s : pyseq) : M nat :=
  fun st => (Ok (length (contents st s)), st).

(** [len(o)] where [o] may be [None]: [len(None)] raises [TypeError]. *)
Definition py_len (o : option pyseq) : M nat :=
  match o with
  | None => raise TypeError
  | Some s => seq_len s
  end.

(** [s[i]] *)
Definition seq_getitem (s : pyseq) (i : Z) : M qubit :=
  fun st => (getitem (contents st s) i, st).

(** [s.pop()]: only lists have it; an empty list raises [IndexError]. *)
Definition list_pop (s : pyseq) : M qubit :=
  match s with
  | PTuple _ => raise AttributeError
  | PList l =>
      fun st =>
        match rev (heap st l) with
        | [] => (Raise IndexError, st)
        | x :: r => (Ok x, set_heap st l (rev r))
        end
  end.

(** [s.append(y)] *)
Definition list_append (s : pyseq) (y : qubit) : M unit :=
  match s with
  | PTuple _ => raise AttributeError
  | PList l => fun st => (Ok tt, set_heap st l (heap st l ++ [y]))
  end.

(** [list(qs)]: a new list object. *)
Definition list_new (qs : list qubit) : M pyseq :=
  fun st =>
    (Ok (PList (next st)),
     PyState (gates st) (qregs st)
             (fun l' => if Nat.eqb l' (next st) then qs else heap st l')
             (S (next st)) (stdout st)).

Definition print (p : printed) : M unit :=
  fun st => (Ok tt, PyState (gates st) (qregs st) (heap st) (next st) (stdout st ++ [p])).

(** [target[0]]: a qubit is not subscriptable. *)
Definition target_getitem (target : pytarget) (i : Z) : result qubit :=
  match target with
  | TQubit _ => Raise TypeError
  | TReg qs => getitem qs i
  end.

(** [circ.cx(c, target)] and [circ.ccx(a, b, target)] with the target given
    whole: one gate for a qubit, one gate per qubit for a register (none
    for an empty register, which the library would refuse). *)
Definition circ_cx_on (c : qubit) (target : pytarget) : M unit :=
  match target with
  | TQubit q => circ_cx c q
  | TReg qs => for_each qs (circ_cx c)
  end.

Definition circ_ccx_on (a b : qubit) (target : pytarget) : M unit :=
  match target with
  | TQubit q => circ_ccx a b q
  | TReg qs => for_each qs (circ_ccx a b)
  end.

Definition no_controls : string := "No control qubits specified".

Definition aux_name : string := "aux".

(** The recursion of [CnX] is on the length of [ctrls], which every level
    shortens.  [depth] bounds the nesting of calls; [CnX] below starts with
    one more than the number of controls, which is never used up.  The
    interpreter's own limit on the depth of recursion is not modelled. *)
Fixpoint CnX_rec (depth : nat) (ctrls : pyseq) (target : pytarget)
    (clean_aux : option pyseq) : M unit :=
  match depth with
  | O => raise RecursionError
  | S depth' =>
      n <- seq_len ctrls ;;
      (if n <? 1 then raise (AssertionError no_controls) else ret tt) ;;;
      (* [if not isinstance(ctrls, list): ctrls = tuple(ctrls)]: a sequence
         that is not a list is already held by value *)
      n <- seq_len ctrls ;;
      if n =? 1 then
        try_except
          (c <- seq_getitem ctrls 0 ;;
           t <- lift (target_getitem target 0) ;;
           circ_cx c t)
          (c <- seq_getitem ctrls 0 ;;
           circ_cx_on c target)
      else if n =? 2 then
        try_except
          (a <- seq_getitem ctrls 0 ;;
           b <- seq_getitem ctrls 1 ;;
           t <- lift (target_getitem target 0) ;;
           circ_ccx a b t)
          (a <- seq_getitem ctrls 0 ;;
           b <- seq_getitem ctrls 1 ;;
           circ_ccx_on a b target)
      else
        (* [aux is None or len(aux) != len(ctrls)-2] *)
        wrong <- match clean_aux with
                 | None => ret true
                 | Some a =>
                     la <- seq_len a ;;
                     lc <- seq_len ctrls ;;
                     ret (negb (la =? lc - 2))
                 end ;;
        aux <- (if wrong : bool then
                  got <- py_len clean_aux ;;
                  lc <- seq_len ctrls ;;
                  print (Printed got (lc - 2)) ;;;
                  lc <- seq_len ctrls ;;
                  add_register aux_name (lc - 2) ;;;
                  a <- list_new (QuantumRegister (lc - 2) aux_name) ;;
                  ret (Some a)
                else ret clean_aux) ;;
        (* [if not isinstance(aux, list): aux = list(aux)] *)
        aux <- match aux with
               | Some (PList l) => ret (PList l)
               | Some (PTuple qs) => list_new qs
               | None => raise TypeError
               end ;;
        a <- list_pop ctrls ;;
        b <- list_pop ctrls ;;
        y <- list_pop aux ;;
        circ_ccx a b y ;;;
        list_append ctrls y ;;;
        CnX_rec depth' ctrls target (Some aux) ;;;
        circ_ccx a b y
  end.

Definition CnX (ctrls : pyseq) (target : pytarget) (clean_aux : option pyseq) : M unit :=
  fun st => CnX_rec (S (length (contents st ctrls))) ctrls target clean_aux st.

(** *** CnZ and invert_about_avg *)

(** [circ.h(target)] with the operand given whole: one gate for a qubit,
    one gate per qubit for a register. *)
Definition circ_h_on (target : pytarget) : M unit :=
  match target with
  | TQubit q => circ_h q
  | TReg qs => for_each qs circ_h
  end.

Definition CnZ (ctrls : pyseq) (target : pytarget) (clean_aux : option pyseq) : M unit :=
  circ_h_on target ;;;
  CnX ctrls target clean_aux ;;;
  circ_h_on target.

(** [invert_about_avg(circ, bits, aux)] for [bits] a quantum register, as
    the notebook calls it.  A register can be sliced, so [gbits] is [bits];
    [gbits[:-1]] is a new list holding all qubits but the last, and
    [gbits[-1]] is the last qubit. *)
Definition invert_about_avg (bits : list qubit) (aux : option pyseq) : M unit :=
  for_each bits circ_h ;;;
  for_each bits circ_x ;;;
  circ_barrier (Some bits) ;;;
  (ctrls <- list_new (removelast bits) ;;
   target <- lift (getitem bits (-1)) ;;
   CnZ ctrls (TQubit target) aux) ;;;
  circ_barrier (Some bits) ;;;
  for_each bits circ_x ;;;
  for_each bits circ_h.

(** *** The logic gates of the first part of the notebook *)

Definition AND (out a b : qubit) : M unit := circ_ccx a b out.

Definition NOT (y : qubit) : M unit := circ_x y.

(** [XOR(circ, out, *inputs)] *)
Definition XOR (out : qubit) (inputs : list qubit) : M unit :=
  for_each inputs (fun i => circ_cx i out).

(** The registers of the example [V = (x2 xor x1 xor x0) and not x2]. *)
Definition V_f_in : list qubit := QuantumRegister 3 "in".
Definition V_f_out : list qubit := QuantumRegister 1 "out".
Definition V_aux : list qubit := QuantumRegister 1 "aux".

Definition V_q (r : list qubit) (i : Z) : M qubit := lift (getitem r i).

(** The first version of the example, after [init_superposition]: the
    result is written to [f_out[0]] and nothing is undone. *)
Definition V_circuit : M unit :=
  (o <- V_q V_aux 0 ;; a <- V_q V_f_in 0 ;; b <- V_q V_f_in 1 ;; c <- V_q V_f_in 2 ;;
   XOR o [a; b; c]) ;;;
  circ_barrier None ;;;
  (y <- V_q V_f_in 2 ;; NOT y) ;;;
  circ_barrier None ;;;
  (o <- V_q V_f_out 0 ;; a <- V_q V_aux 0 ;; b <- V_q V_f_in 2 ;; AND o a b).

(** The second version, after [init_superposition] and before the
    measurements: the same computation, then the operations on the inputs
    and the ancilla undone. *)
Definition V_circuit_undone : M unit :=
  (o <- V_q V_aux 0 ;; a <- V_q V_f_in 0 ;; b <- V_q V_f_in 1 ;; c <- V_q V_f_in 2 ;;
   XOR o [a; b; c]) ;;;
  (y <- V_q V_f_in 2 ;; NOT y) ;;;
  (o <- V_q V_f_out 0 ;; a <- V_q V_aux 0 ;; b <- V_q V_f_in 2 ;; AND o a b) ;;;
  circ_barrier None ;;;
  (y <- V_q V_f_in 2 ;; NOT y) ;;;
  (o <- V_q V_aux 0 ;; a <- V_q V_f_in 0 ;; b <- V_q V_f_in 1 ;; c <- V_q V_f_in 2 ;;
   XOR o [a; b; c]).

End Grover.

(** ** The Schroedinger notebook: the discretized Hamiltonian and [evolve] *)

Module Schroedinger.

Local Open Scope R_scope.

(** numpy arrays: a vector is a list of reals, a dense matrix a list of rows. *)
Definition vector := list R.
Definition matrix := list (list R).

(** [np.linspace(start, stop, num=n)] *)
Definition linspace (start stop : R) (n : nat) : vector :=
  map (fun i => start + INR i * ((stop - start) / (INR n - 1))) (seq 0 n).

(** [np.eye(n, k=k)]: ones on the [k]-th diagonal, zeros elsewhere. *)
Definition eye (n : nat) (k : Z) : matrix :=
  map (fun i =>
         map (fun j => if (Z.of_nat j =? Z.of_nat i + k)%Z then 1 else 0) (seq 0 n))
      (seq 0 n).

(** [c * A] for a scalar [c]. *)
Definition scale (c : R) (A : matrix) : matrix := map (map (Rmult c)) A.

(** [v * A] for a vector [v]: numpy broadcasts [v] along the rows, so entry
    [(i, j)] is [v[j] * A[i][j]]. *)
Definition broadcast_mul (v : vector) (A : matrix) : matrix :=
  map (fun row => map (fun p => fst p * snd p) (combine v row)) A.

(** [A + B], entry by entry. *)
Definition madd (A B : matrix) : matrix :=
  map (fun rows => map (fun p => fst p + snd p) (combine (fst rows) (snd rows)))
      (combine A B).

(** [A[i][j]] *)
Definition entry (A : matrix) (i j : nat) : R := nth j (nth i A []) 0.

(** [def V(x): return 0 * x], on a number and, element by element, on an
    array. *)
Definition V (x : R) : R := 0 * x.
Definition V_array (x : vector) : vector := map V x.

Section Hamiltonian.

Variable N : nat.
Variables L eta m q : R.

(** [X = np.linspace(0,L,num=N) - L/2] *)
Definition X : vector := map (fun x => x - L / 2) (linspace 0 L N).

(** [a = X[1] - X[0]] (the notebook has [N = 100]; with fewer than two grid
    points the subscript would fail). *)
Definition a : R := nth 1 X 0 - nth 0 X 0.

(** [t = -eta**2 / (2 * m * a**2)] *)
Definition t : R := - (eta ^ 2) / (2 * m * a ^ 2).

(** [eps = -2*t + q * V(X)] *)
Definition eps : vector := map (fun v => -2 * t + q * v) (V_array X).

(** [H = t*np.eye(N, k=-1) + eps*np.eye(N) + t*np.eye(N, k=1)] *)
Definition H : matrix :=
  madd (madd (scale t (eye N (-1))) (broadcast_mul eps (eye N 0)))
       (scale t (eye N 1)).

End Hamiltonian.

(** *** evolve

    Complex numbers are pairs of reals. *)

Definition C := (R * R)%type.

Definition RtoC (x : R) : C := (x, 0).
Definition Ci : C := (0, 1).
Definition Copp (z : C) : C := (- fst z, - snd z).
Definition Cmult (z w : C) : C :=
  (fst z * fst w - snd z * snd w, fst z * snd w + snd z * fst w).
Definition Cdiv_real (z : C) (r : R) : C := (fst z / r, snd z / r).
Definition Cexp (z : C) : C := (exp (fst z) * cos (snd z), exp (fst z) * sin (snd z)).

(** The frame of a running [evolve] generator: its arguments, the global
    [eta] it reads, and its local variables [t] and [cnt].  [started] is
    false until the first [next], which runs the code before the loop. *)
Record generator : Type := Generator {
  g_psi : list C;
  g_E : R;
  g_timestep : R;
  g_num_step : option nat;
  g_eta : R;
  g_t : R;
  g_cnt : nat;
  g_started : bool
}.

(** [evolve(psi, E, timestep, num_step)] creates the generator; nothing runs
    yet. *)
Definition evolve (eta : R) (psi : list C) (E : R) (timestep : R)
    (num_step : option nat) : generator :=
  Generator psi E timestep num_step eta 0 0 false.

Definition default_timestep : R := 5.
Definition default_num_step : option nat := Some 200%nat.

Inductive step_result : Type :=
| Yield (t : R) (wave : list C) (g : generator)
| StopIteration
| Raised (e : exn).

(** [phase = np.exp(- 1j * E / eta * t)] (the notebook has [eta = 1]; with an
    [eta] of 0 the division would fail). *)
Definition phase (E eta t : R) : C :=
  Cexp (Cmult (Cdiv_real (Cmult (Copp Ci) (RtoC E)) eta) (RtoC t)).

(** [next(g)].  The first call evaluates [ts = np.arange(num_step)*timestep],
    which raises [TypeError] when [num_step] is [None]; [ts] is not used
    afterwards. *)
Definition next_value (g : generator) : step_result :=
  match (if g_started g then Ok tt
         else match g_num_step g with
              | None => Raise TypeError
              | Some _ => Ok tt
              end) with
  | Raise e => Raised e
  | Ok _ =>
      if match g_num_step g with
         | None => true
         | Some n => (g_cnt g <? n)%nat
         end
      then
        let ph := phase (g_E g) (g_eta g) (g_t g) in
        let cnt := S (g_cnt g) in
        let t := g_t g + g_timestep g in
        Yield t (map (Cmult ph) (g_psi g))
              (Generator (g_psi g) (g_E g) (g_timestep g) (g_num_step g)
                         (g_eta g) t cnt true)
      else StopIteration
  end.

(** Drive the generator for at most [rounds] calls of [next], collecting what
    it yields; the boolean tells whether it stopped by [StopIteration]. *)
Fixpoint drain (rounds : nat) (g : generator) : list (R * list C) * bool :=
  match rounds with
  | O => ([], false)
  | S rounds' =>
      match next_value g with
      | Yield t wave g' =>
          let (ys, stopped) := drain rounds' g' in ((t, wave) :: ys, stopped)
      | StopIteration => ([], true)
      | Raised _ => ([], false)
      end
  end.

End Schroedinger.

(** ** The CHSH notebook: the measurement-basis changes *)

Module CHSH.

(** The module-level names a function body can read: [qreg] is bound by the
    cell [circ, qreg = create_cat()], and unbound before it runs. *)
Record globals : Type := Globals { qreg : option (list qubit) }.

(** Reading the global [qreg]; an unbound name raises [NameError]. *)
Definition read_qreg (g : globals) : M (list qubit) :=
  match qreg g with
  | None => raise NameError
  | Some r => ret r
  end.

Definition XW (g : globals) (qbit0 qbit1 : qubit) : M unit :=
  circ_h qbit0 ;;;
  circ_s qbit1 ;;;
  circ_h qbit1 ;;;
  circ_t qbit1 ;;;
  circ_h qbit1.

Definition XV (g : globals) (qbit0 qbit1 : qubit) : M unit :=
  (r <- read_qreg g ;;
   q <- lift (getitem r 0) ;;
   circ_h q) ;;;
  circ_s qbit1 ;;;
  circ_h qbit1 ;;;
  circ_tdg qbit1 ;;;
  circ_h qbit1.

Definition ZW (g : globals) (qbit0 qbit1 : qubit) : M unit :=
  circ_s qbit1 ;;;
  circ_h qbit1 ;;;
  circ_t qbit1 ;;;
  circ_h qbit1.

Definition ZV (g : globals) (qbit0 qbit1 : qubit) : M unit :=
  circ_s qbit1 ;;;
  circ_h qbit1 ;;;
  circ_tdg qbit1 ;;;
  circ_h qbit1.

End CHSH.

(** * Closed forms of what the builders append *)

Module Derived.

Import Grover.

(** The state after appending [gs] to the circuit. *)
Definition add_gates (st : pystate) (gs : list gate) : pystate :=
  PyState (gates st ++ gs) (qregs st) (heap st) (next st) (stdout st).

(** *** apply_oracle *)

(** The position a valid Python index denotes. *)
Definition pyidx (len : nat) (i : Z) : nat :=
  Z.to_nat (if (i <? 0)%Z then Z.of_nat len + i else i).

Definition valid_index (len : nat) (i : Z) : bool :=
  ((- Z.of_nat len <=? i) && (i <? Z.of_nat len))%Z.

Definition no_qubit : qubit := Qubit "" 0.

(** [r[i]] for a valid index. *)
Definition at_ (r : list qubit) (i : Z) : qubit :=
  nth (pyidx (length r) i) r no_qubit.

(** The subscript of [f_in] that a literal makes [apply_oracle] evaluate. *)
Definition literal_index (literal : Z) : Z :=
  if (literal >? 0)%Z then (literal - 1)%Z else (- literal - 1)%Z.

Definition literal_in_range (f_in : list qubit) (literal : Z) : bool :=
  valid_index (length f_in) (literal_index literal).

Definition xor_literal_gates (f_in : list qubit) (ak : qubit) (literal : Z) : list gate :=
  if (literal >? 0)%Z then [GCX (at_ f_in (literal - 1)) ak]
  else [GX (at_ f_in (- literal - 1)); GCX (at_ f_in (- literal - 1)) ak].

Definition unflip_literal_gates (f_in : list qubit) (literal : Z) : list gate :=
  if (literal <? 0)%Z then [GX (at_ f_in (- literal - 1))] else [].

(** The five gates between the two literal loops of a clause: they are the
    same for every clause. *)
Definition conjunction_gates (f_in aux : list qubit) (num_clauses k : nat) : list gate :=
  [GBarrier (Some f_in);
   GCCX (at_ f_in 0) (at_ f_in 1) (at_ aux (Z.of_nat num_clauses));
   GCCX (at_ f_in 2) (at_ aux (Z.of_nat num_clauses)) (at_ aux (Z.of_nat k));
   GBarrier (Some f_in);
   GCCX (at_ f_in 0) (at_ f_in 1) (at_ aux (Z.of_nat num_clauses))].

Definition clause_gates (f_in aux : list qubit) (num_clauses k : nat)
    (clause : list Z) : list gate :=
  flat_map (xor_literal_gates f_in (at_ aux (Z.of_nat k))) clause ++
  conjunction_gates f_in aux num_clauses k ++
  flat_map (unflip_literal_gates f_in) clause ++
  [GBarrier None].

Fixpoint pass_gates (f_in aux : list qubit) (num_clauses k0 : nat)
    (clauses : list (list Z)) : list gate :=
  match clauses with
  | [] => []
  | clause :: rest =>
      clause_gates f_in aux num_clauses k0 clause ++
      pass_gates f_in aux num_clauses (S k0) rest
  end.

Definition combine_gates (f_out aux : list qubit) (num_clauses : nat) : list gate :=
  match num_clauses with
  | 1 => [GCX (at_ aux 0) (at_ f_out 0)]
  | 2 => [GCCX (at_ aux 0) (at_ aux 1) (at_ f_out 0)]
  | 3 => [GCCX (at_ aux 0) (at_ aux 1) (at_ aux 3);
          GCCX (at_ aux 2) (at_ aux 3) (at_ f_out 0);
          GCCX (at_ aux 0) (at_ aux 1) (at_ aux 3)]
  | _ => []
  end.

Definition oracle_gates (f_in f_out aux : list qubit) (expression : list (list Z)) : list gate :=
  pass_gates f_in aux (length expression) 0 expression ++
  combine_gates f_out aux (length expression) ++
  [GBarrier None] ++
  pass_gates f_in aux (length expression) 0 expression.

(** Registers large enough for [apply_oracle] on [expression], and literals
    that subscript [f_in] within its bounds. *)
Definition registers_fit (f_in f_out aux : list qubit) (expression : list (list Z)) : Prop :=
  3 <= length f_in /\
  1 <= length f_out /\
  length expression < length aux /\
  Forall (fun clause => forallb (literal_in_range f_in) clause = true) expression.

(** The values of the input qubits in a basis state, by position. *)
Definition inputs (f_in : list qubit) (s : bstate) : nat -> bool :=
  fun i => if i <? length f_in then s (nth i f_in no_qubit) else false.

Definition flip (x : nat -> bool) (i : nat) : nat -> bool :=
  fun j => if j =? i then negb (x j) else x j.

(** The variable a literal names. *)
Definition var_of (literal : Z) : nat := Z.to_nat (Z.abs literal - 1).

(** The inputs after the first statement of one round of the literal loop:
    a literal that is not positive has its input negated in place. *)
Definition negate_for (literal : Z) (x : nat -> bool) : nat -> bool :=
  if (literal >? 0)%Z then x else flip x (var_of literal).

(** The inputs after the whole literal loop of a clause. *)
Fixpoint flipped (clause : list Z) (x : nat -> bool) : nat -> bool :=
  match clause with
  | [] => x
  | l :: rest => flipped rest (negate_for l x)
  end.

(** What the literal loop of a clause xors into [aux[k]]: every round reads
    the input qubit as the earlier rounds left it. *)
Fixpoint xor_value (clause : list Z) (x : nat -> bool) : bool :=
  match clause with
  | [] => false
  | l :: rest =>
      xorb (negate_for l x (var_of l)) (xor_value rest (negate_for l x))
  end.

(** What the loop body of a clause xors into [aux[k]] in all: the literal
    loop, then the conjunction of the three input qubits as that loop left
    them. *)
Definition block_value (clause : list Z) (x : nat -> bool) : bool :=
  xorb (xor_value clause x)
       (flipped clause x 0 && flipped clause x 1 && flipped clause x 2).

(** The parity of the number of negated occurrences of variable [i]. *)
Fixpoint neg_parity (clause : list Z) (i : nat) : bool :=
  match clause with
  | [] => false
  | l :: rest => xorb (negb (l >? 0)%Z && (i =? var_of l)) (neg_parity rest i)
  end.

(** A literal that is not 0 and names a qubit of [f_in]. *)
Definition names_input (f_in : list qubit) (literal : Z) : bool :=
  ((1 <=? Z.abs literal) && (Z.abs literal <=? Z.of_nat (length f_in)))%Z.





(** A computation that appends [gs] and returns normally. *)
Definition emits (m : M unit) (gs : list gate) : Prop :=
  forall st, m st = (Ok tt, add_gates st gs).

(** A computation that either returns normally, and then [cond] holds, or
    raises [IndexError]. *)
Definition ok_or_IndexError (m : M unit) (cond : Prop) : Prop :=
  forall st,
    (cond /\ exists st', m st = (Ok tt, st')) \/
    (exists st', m st = (Raise IndexError, st')).

(** The gates of the example cell that computes [V], in the order it
    appends them. *)
Definition V_gates : list gate :=
  [GCX (Qubit "in" 0) (Qubit "aux" 0); GCX (Qubit "in" 1) (Qubit "aux" 0);
   GCX (Qubit "in" 2) (Qubit "aux" 0);
   GBarrier None;
   GX (Qubit "in" 2);
   GBarrier None;
   GCCX (Qubit "aux" 0) (Qubit "in" 2) (Qubit "out" 0)].

(** The gates of the example cell that computes [V] and then undoes the
    work on the ancilla and the inputs. *)
Definition V_gates_undone : list gate :=
  [GCX (Qubit "in" 0) (Qubit "aux" 0); GCX (Qubit "in" 1) (Qubit "aux" 0);
   GCX (Qubit "in" 2) (Qubit "aux" 0);
   GX (Qubit "in" 2);
   GCCX (Qubit "aux" 0) (Qubit "in" 2) (Qubit "out" 0);
   GBarrier None;
   GX (Qubit "in" 2);
   GCX (Qubit "in" 0) (Qubit "aux" 0); GCX (Qubit "in" 1) (Qubit "aux" 0);
   GCX (Qubit "in" 2) (Qubit "aux" 0)].


(** Whether a clause negates variable [i]. *)
Definition negates (clause : list Z) (i : nat) : bool :=
  existsb (fun l => negb (l >? 0)%Z && (i =? var_of l)) clause.

(** The xor of the literals of a clause, xored with the conjunction of the
    first three inputs, each negated when the clause negates it. *)
Definition xor_and_first_three (x : nat -> bool) (clause : list Z) : bool :=
  xorb (fold_right xorb false (map (literal_value x) clause))
       (xorb (x 0) (negates clause 0) && xorb (x 1) (negates clause 1)
        && xorb (x 2) (negates clause 2)).

(** *** CnX *)

(** The gates a base case of [CnX] appends for its target: one gate on a
    qubit or on the first qubit of a register, none on an empty register. *)
Definition target_gates (mk : qubit -> gate) (target : pytarget) : list gate :=
  match target with
  | TQubit q => [mk q]
  | TReg [] => []
  | TReg (q :: _) => [mk q]
  end.

(** The ladder of [CnX], on the reversed lists (the next element to pop
    comes first). *)
Fixpoint ladder (rcs ras : list qubit) (target : pytarget) : list gate :=
  match ras, rcs with
  | y :: ras', a :: b :: rcs' =>
      GCCX a b y :: ladder (y :: rcs') ras' target ++ [GCCX a b y]
  | _, [c1; c0] => target_gates (GCCX c0 c1) target
  | _, [c0] => target_gates (GCX c0) target
  | _, _ => []
  end.

(** The number of levels of [CnX] that pop, for [n] controls: one for every
    control beyond two. *)
Definition CnX_levels (n : nat) : nat := n - 2.

(** What is left in [ctrls] when the ladder is done. *)
Fixpoint ladder_ctrls (rcs ras : list qubit) : list qubit :=
  match ras, rcs with
  | y :: ras', a :: b :: rcs' => ladder_ctrls (y :: rcs') ras'
  | _, _ => rev rcs
  end.

(** One level of the recursive branch of [CnX], from the first [pop] on. *)
Definition CnX_level (depth : nat) (lc la : loc) (target : pytarget) : M unit :=
  a <- list_pop (PList lc) ;;
  b <- list_pop (PList lc) ;;
  y <- list_pop (PList la) ;;
  circ_ccx a b y ;;;
  list_append (PList lc) y ;;;
  CnX_rec depth (PList lc) target (Some (PList la)) ;;;
  circ_ccx a b y.

(** The state after [list(qs)] created a list object. *)
Definition alloc (st : pystate) (qs : list qubit) : pystate :=
  PyState (gates st) (qregs st)
          (fun l' => if Nat.eqb l' (next st) then qs else heap st l')
          (S (next st)) (stdout st).

(** The state after the warning of [CnX] was printed and the register
    [aux] of [size] qubits was added to the circuit. *)
Definition warned (st : pystate) (p : printed) (size : nat) : pystate :=
  PyState (gates st) (qregs st ++ [(aux_name, size)]) (heap st) (next st)
          (stdout st ++ [p]).

(** No register of the circuit is called [aux]. *)
Definition aux_name_free (st : pystate) : bool :=
  negb (existsb (fun r => String.eqb (fst r) aux_name) (qregs st)).

(** How a call of [CnX] on the lists at [lc] and [la] changed the state:
    it appended [gs], left [cs'] and [as'] in the two lists, and touched
    nothing else. *)
Definition CnX_outcome (st st' : pystate) (lc la : loc)
    (cs' as' : list qubit) (gs : list gate) : Prop :=
  gates st' = gates st ++ gs /\
  qregs st' = qregs st /\
  next st' = next st /\
  stdout st' = stdout st /\
  heap st' lc = cs' /\
  heap st' la = as' /\
  (forall l, l <> lc -> l <> la -> heap st' l = heap st l).

(** A call is rejected when it raises and leaves the circuit as it was. *)
Definition rejected (r : result unit * pystate) (st : pystate) : Prop :=
  exists e, fst r = Raise e /\ gates (snd r) = gates st.

End Derived.

Module DerivedSchroedinger.

Import Schroedinger.
Local Open Scope R_scope.

(** A matrix of [n] rows of [n] entries. *)
Definition square (n : nat) (A : matrix) : Prop :=
  length A = n /\ forall i, (i < n)%nat -> length (nth i A []) = n.

(** What a generator still has to yield: [k] pairs, each carrying the time
    after the step and the phase of the time before it. *)
Fixpoint remaining (psi : list C) (E eta timestep : R) (k : nat) (t : R)
    : list (R * list C) :=
  match k with
  | O => []
  | S k' =>
      (t + timestep, map (Cmult (phase E eta t)) psi)
      :: remaining psi E eta timestep k' (t + timestep)
  end.

(** [np.abs(z)] and the probability density [p = np.abs(wave)**2] that the
    animation plots. *)
Definition Cabs (z : C) : R := sqrt (fst z * fst z + snd z * snd z).

Definition density (wave : list C) : list R := map (fun z => Cabs z ^ 2) wave.

End DerivedSchroedinger.

(** * Properties *)

Import Grover.

(** ** Store and list lemmas *)

Lemma heap_set_heap_same st l v : heap (set_heap st l v) l = v.
Proof. simpl. now rewrite Nat.eqb_refl. Qed.

Lemma heap_set_heap_other st l l' v : l' <> l -> heap (set_heap st l v) l' = heap st l'.
Proof. intros Hne. simpl. apply Nat.eqb_neq in Hne. now rewrite Hne. Qed.

Lemma list_pop_snoc st l xs x :
  heap st l = xs ++ [x] ->
  list_pop (PList l) st = (Ok x, set_heap st l xs).
Proof.
  intros Hh. unfold list_pop. rewrite Hh, rev_app_distr. simpl.
  now rewrite rev_involutive.
Qed.

Lemma getitem_of_nat {A} (l : list A) (i : nat) (d : A) :
  i < length l -> getitem l (Z.of_nat i) = Ok (nth i l d).
Proof.
  intros Hi. unfold getitem.
  replace (Z.of_nat i <? 0)%Z with false by (symmetry; apply Z.ltb_ge; lia).
  replace (0 <=? Z.of_nat i)%Z with true by (symmetry; apply Z.leb_le; lia).
  replace (Z.of_nat i <? Z.of_nat (length l))%Z with true
    by (symmetry; apply Z.ltb_lt; lia).
  cbn [andb]. rewrite Nat2Z.id.
  now rewrite (nth_error_nth' l d Hi).
Qed.

Lemma getitem_0 {A} (x : A) (l : list A) : getitem (x :: l) 0 = Ok x.
Proof. apply (getitem_of_nat (x :: l) 0 x). simpl. lia. Qed.

Lemma getitem_1 {A} (x y : A) (l : list A) : getitem (x :: y :: l) 1 = Ok y.
Proof. apply (getitem_of_nat (x :: y :: l) 1 x). simpl. lia. Qed.

Lemma getitem_nil {A} (i : Z) : getitem (@nil A) i = Raise IndexError.
Proof.
  unfold getitem. cbn [length Z.of_nat].
  destruct (i <? 0)%Z eqn:E.
  - replace (0 <=? 0 + i)%Z with false; [reflexivity|].
    symmetry. apply Z.leb_gt. apply Z.ltb_lt in E. lia.
  - replace (i <? 0)%Z with false. now rewrite andb_false_r.
Qed.

#[local] Arguments getitem : simpl never.

(** ** CHSH: which helpers read the module-level register *)

(** XW, ZW and ZV are functions of their arguments alone: whatever the
    module-level [qreg] is bound to, they append the same gates. *)
Lemma XW_ZW_ZV_ignore_globals g1 g2 qbit0 qbit1 st :
  CHSH.XW g1 qbit0 qbit1 st = CHSH.XW g2 qbit0 qbit1 st /\
  CHSH.ZW g1 qbit0 qbit1 st = CHSH.ZW g2 qbit0 qbit1 st /\
  CHSH.ZV g1 qbit0 qbit1 st = CHSH.ZV g2 qbit0 qbit1 st.
Proof. repeat split; reflexivity. Qed.

(** C7: XV applies its Hadamard to [qreg[0]], read from the module-level
    [qreg], and not to its argument [qbit0].  Called on the qubits of a
    register [q] while [qreg] is bound to another register [r], it appends
    [h] on [r[0]]; called with the same arguments while [qreg] is unbound, it
    raises [NameError] before appending anything.  XW, its sibling, appends
    [h] on [qbit0] in both situations. *)
Theorem XV_reads_module_level_qreg :
  let q0 := Qubit "q" 0 in
  let q1 := Qubit "q" 1 in
  let st := PyState [] [("q"%string, 2)] (fun _ => []) 0 [] in
  let bound := CHSH.Globals (Some [Qubit "r" 0; Qubit "r" 1]) in
  let unbound := CHSH.Globals None in
  CHSH.XV bound q0 q1 st =
    (Ok tt, PyState [GH (Qubit "r" 0); GS q1; GH q1; GTdg q1; GH q1]
                    [("q"%string, 2)] (fun _ => []) 0 []) /\
  CHSH.XV unbound q0 q1 st = (Raise NameError, st) /\
  gates (snd (CHSH.XW bound q0 q1 st)) = [GH q0; GS q1; GH q1; GT q1; GH q1] /\
  gates (snd (CHSH.XW unbound q0 q1 st)) = [GH q0; GS q1; GH q1; GT q1; GH q1].
Proof. repeat split; reflexivity. Qed.

(** ** CnX without ancillas *)

(** C9: with more than two controls and [clean_aux] equal to [None], the
    call raises [TypeError] (from [len(None)], evaluated for the warning
    message) in the very state it was entered in: no gate has been appended,
    nothing has been printed, no register has been created or added to the
    circuit and no list has been touched, so the code that creates new
    ancillas has not run. *)
Theorem CnX_None_raises_TypeError ctrls target st :
  2 < length (contents st ctrls) ->
  CnX ctrls target None st = (Raise TypeError, st).
Proof.
  intros Hlen. unfold CnX. cbn [CnX_rec]. unfold bind, seq_len.
  destruct (length (contents st ctrls)) as [|[|[|n]]] eqn:E; try lia.
  cbn. unfold ret. rewrite E. reflexivity.
Qed.

Lemma CnX_None_raises_TypeError_witness :
  let st := PyState [] [("c"%string, 3); ("t"%string, 1)]
                    (fun l => match l with 0 => QuantumRegister 3 "c" | _ => [] end) 1 [] in
  2 < length (contents st (PList 0)) /\
  CnX (PList 0) (TQubit (Qubit "t" 0)) None st = (Raise TypeError, st).
Proof.
  split; [simpl; lia | apply CnX_None_raises_TypeError; simpl; lia].
Defined.

(** ** The ladder of CnX *)

Import Derived.

Lemma target_gates_cx_or_ccx mk target :
  (forall q, is_cx_or_ccx (mk q) = true) ->
  forallb is_cx_or_ccx (target_gates mk target) = true.
Proof.
  intros Hmk. destruct target as [q|[|q qs]]; simpl; rewrite ?Hmk; reflexivity.
Qed.

(** The base case with two controls. *)
Lemma CnX_rec_two depth lc target clean_aux st c0 c1 :
  heap st lc = [c0; c1] ->
  exists st',
    CnX_rec (S depth) (PList lc) target clean_aux st = (Ok tt, st') /\
    gates st' = gates st ++ target_gates (GCCX c0 c1) target /\
    qregs st' = qregs st /\ next st' = next st /\ stdout st' = stdout st /\
    heap st' = heap st.
Proof.
  intros Hh. cbn [CnX_rec]. unfold bind, seq_len, try_except, seq_getitem, lift.
  unfold target_getitem.
  destruct target as [q|[|q qs]];
    repeat (progress (cbn; rewrite ?Hh, ?getitem_0, ?getitem_1, ?getitem_nil)).
  - eexists; repeat split; reflexivity.
  - eexists; repeat split; try reflexivity. cbn. now rewrite app_nil_r.
  - eexists; repeat split; reflexivity.
Qed.

(** The base case with one control. *)
Lemma CnX_rec_one depth lc target clean_aux st c0 :
  heap st lc = [c0] ->
  exists st',
    CnX_rec (S depth) (PList lc) target clean_aux st = (Ok tt, st') /\
    gates st' = gates st ++ target_gates (GCX c0) target /\
    qregs st' = qregs st /\ next st' = next st /\ stdout st' = stdout st /\
    heap st' = heap st.
Proof.
  intros Hh. cbn [CnX_rec]. unfold bind, seq_len, try_except, seq_getitem, lift.
  unfold target_getitem.
  destruct target as [q|[|q qs]];
    repeat (progress (cbn; rewrite ?Hh, ?getitem_0, ?getitem_1, ?getitem_nil)).
  - eexists; repeat split; reflexivity.
  - eexists; repeat split; try reflexivity. cbn. now rewrite app_nil_r.
  - eexists; repeat split; reflexivity.
Qed.

(** With at least three controls and a list of the right number of
    ancillas, a call goes straight to the pops. *)
Lemma CnX_rec_enters_level depth lc la target st :
  3 <= length (heap st lc) ->
  length (heap st la) = length (heap st lc) - 2 ->
  CnX_rec (S depth) (PList lc) target (Some (PList la)) st
  = CnX_level depth lc la target st.
Proof.
  intros H3 Hla.
  destruct (length (heap st lc)) as [|[|[|n]]] eqn:E; try lia.
  replace (S (S (S n)) - 2) with (S n) in Hla by lia.
  unfold CnX_level. cbn [CnX_rec]. unfold bind, seq_len, ret. cbn [contents].
  repeat (progress (rewrite ?E, ?Hla, ?Nat.eqb_refl;
                    cbn [Nat.ltb Nat.leb Nat.eqb Nat.sub negb])).
  reflexivity.
Qed.

Lemma bind_ok {A B} {m : M A} {f : A -> M B} {st a st1} :
  m st = (Ok a, st1) -> bind m f st = f a st1.
Proof. intros H. unfold bind. now rewrite H. Qed.

Lemma bind_raise {A B} {m : M A} {f : A -> M B} {st e st1} :
  m st = (Raise e, st1) -> bind m f st = (Raise e, st1).
Proof. intros H. unfold bind. now rewrite H. Qed.

(** The pops, the first [ccx] and the [append] of one level: they lead to
    the state [st5] in which the recursive call is made. *)
Lemma CnX_level_prefix st lc la cs a b as_ y :
  lc <> la ->
  heap st lc = (cs ++ [b]) ++ [a] ->
  heap st la = as_ ++ [y] ->
  exists st5,
    (forall depth target,
        CnX_level depth lc la target st
        = (CnX_rec depth (PList lc) target (Some (PList la)) ;;; circ_ccx a b y) st5) /\
    heap st5 lc = cs ++ [y] /\
    heap st5 la = as_ /\
    gates st5 = gates st ++ [GCCX a b y] /\
    qregs st5 = qregs st /\ next st5 = next st /\ stdout st5 = stdout st /\
    (forall l, l <> lc -> l <> la -> heap st5 l = heap st l).
Proof.
  intros Hne Hc Ha.
  set (st1 := set_heap st lc (cs ++ [b])).
  assert (Hc1 : heap st1 lc = cs ++ [b]) by apply heap_set_heap_same.
  set (st2 := set_heap st1 lc cs).
  assert (Ha2 : heap st2 la = as_ ++ [y])
    by (unfold st2, st1; rewrite !heap_set_heap_other by congruence; exact Ha).
  set (st3 := set_heap st2 la as_).
  set (st4 := add_gates st3 [GCCX a b y]).
  assert (Hc4 : heap st4 lc = cs)
    by (unfold st4, st3; cbn [heap add_gates];
        rewrite heap_set_heap_other by congruence; apply heap_set_heap_same).
  exists (set_heap st4 lc (cs ++ [y])).
  split; [|repeat split].
  - intros depth target. unfold CnX_level.
    rewrite (bind_ok (list_pop_snoc st lc _ _ Hc)). fold st1.
    rewrite (bind_ok (list_pop_snoc st1 lc _ _ Hc1)). fold st2.
    rewrite (bind_ok (list_pop_snoc st2 la _ _ Ha2)). fold st3.
    unfold circ_ccx at 1, list_append.
    unfold bind at 1. cbn [append_gate]. fold (add_gates st3 [GCCX a b y]).
    fold st4. unfold bind at 1. rewrite Hc4. reflexivity.
  - apply heap_set_heap_same.
  - rewrite heap_set_heap_other by congruence.
    unfold st4. cbn [heap add_gates]. apply heap_set_heap_same.
  - intros l Hl1 Hl2. rewrite heap_set_heap_other by congruence.
    unfold st4, st3, st2, st1. cbn [heap add_gates].
    rewrite !heap_set_heap_other by congruence. reflexivity.
Qed.

(** One level of the ladder, and by induction all the levels below it. *)
Lemma CnX_level_run ras : forall rcs a b y depth st lc la target,
  lc <> la ->
  heap st lc = rev (a :: b :: rcs) ->
  heap st la = rev (y :: ras) ->
  length rcs = S (length ras) ->
  length ras < depth ->
  exists st',
    CnX_level depth lc la target st = (Ok tt, st') /\
    CnX_outcome st st' lc la
      (ladder_ctrls (a :: b :: rcs) (y :: ras)) []
      (ladder (a :: b :: rcs) (y :: ras) target).
Proof.
  induction ras as [|y' ras IH];
    intros rcs a b y depth st lc la target Hne Hc Ha Hlen Hdepth;
    (destruct depth as [|depth]; [simpl in Hdepth; lia|]);
    destruct (CnX_level_prefix st lc la (rev rcs) a b _ y Hne Hc Ha)
      as (st5 & Hlevel & Hc5 & Ha5 & Hg5 & Hq5 & Hn5 & Hs5 & Ho5);
    rewrite Hlevel; clear Hlevel.
  - (* the last level: two controls are left *)
    destruct rcs as [|c0 [|? ?]]; try (simpl in Hlen; lia).
    cbn [rev app] in Hc5.
    destruct (CnX_rec_two depth lc target (Some (PList la)) st5 c0 y Hc5)
      as (st6 & Hrun & Hg6 & Hq6 & Hn6 & Hs6 & Hh6).
    rewrite (bind_ok Hrun).
    eexists. split; [reflexivity|].
    unfold CnX_outcome. cbn [gates qregs next stdout heap append_gate snd].
    cbn [ladder ladder_ctrls rev app].
    rewrite Hg6, Hg5, Hh6, Hq6, Hn6, Hs6, <- !app_assoc.
    repeat split; auto.
  - (* a further level *)
    destruct rcs as [|b' rcs]; [simpl in Hlen; lia|].
    assert (Hlen' : length rcs = S (length ras)) by (simpl in Hlen; lia).
    change (rev (b' :: rcs) ++ [y]) with (rev (y :: b' :: rcs)) in Hc5.
    change (heap st5 la = rev (y' :: ras)) in Ha5.
    assert (Henter : CnX_rec (S depth) (PList lc) target (Some (PList la)) st5
                     = CnX_level depth lc la target st5).
    { apply CnX_rec_enters_level.
      - rewrite Hc5, length_rev. simpl. lia.
      - rewrite Hc5, Ha5, !length_rev. simpl. lia. }
    destruct (IH rcs y b' y' depth st5 lc la target Hne Hc5 Ha5 Hlen')
      as (st6 & Hrun & Hg6 & Hq6 & Hn6 & Hs6 & Hc6 & Ha6 & Ho6).
    { simpl in Hdepth. lia. }
    rewrite <- Henter in Hrun.
    rewrite (bind_ok Hrun).
    eexists. split; [reflexivity|].
    unfold CnX_outcome. cbn [gates qregs next stdout heap append_gate snd].
    rewrite Hg6, Hg5, Hq6, Hn6, Hs6.
    change (ladder (a :: b :: b' :: rcs) (y :: y' :: ras) target)
      with (GCCX a b y :: ladder (y :: b' :: rcs) (y' :: ras) target ++ [GCCX a b y]).
    change (ladder_ctrls (a :: b :: b' :: rcs) (y :: y' :: ras))
      with (ladder_ctrls (y :: b' :: rcs) (y' :: ras)).
    rewrite <- !app_assoc.
    repeat split; auto.
    intros l Hl1 Hl2. rewrite Ho6 by assumption. auto.
Qed.

(** With at least three controls, a sequence of the right length that is
    not a list is first copied into a new list. *)
Lemma CnX_rec_enters_level_tuple depth lc qs target st :
  3 <= length (heap st lc) ->
  length qs = length (heap st lc) - 2 ->
  CnX_rec (S depth) (PList lc) target (Some (PTuple qs)) st
  = CnX_level depth lc (next st) target (alloc st qs).
Proof.
  intros H3 Hla.
  destruct (length (heap st lc)) as [|[|[|n]]] eqn:E; try lia.
  replace (S (S (S n)) - 2) with (S n) in Hla by lia.
  unfold CnX_level. cbn [CnX_rec]. unfold bind, seq_len, ret. cbn [contents].
  repeat (progress (rewrite ?E, ?Hla, ?Nat.eqb_refl;
                    cbn [Nat.ltb Nat.leb Nat.eqb Nat.sub negb])).
  reflexivity.
Qed.

(** With at least three controls and a sequence of any other length, the
    call prints its warning, adds a register [aux] to the circuit and goes
    on with the qubits of that register. *)
Lemma CnX_rec_enters_level_wrong depth lc a target st :
  3 <= length (heap st lc) ->
  length (contents st a) <> length (heap st lc) - 2 ->
  aux_name_free st = true ->
  CnX_rec (S depth) (PList lc) target (Some a) st
  = CnX_level depth lc (next st) target
      (alloc (warned st (Printed (length (contents st a)) (length (heap st lc) - 2))
                     (length (heap st lc) - 2))
             (QuantumRegister (length (heap st lc) - 2) aux_name)).
Proof.
  intros H3 Hla Hfree.
  destruct (length (heap st lc)) as [|[|[|n]]] eqn:E; try lia.
  replace (S (S (S n)) - 2) with (S n) in * by lia.
  apply Nat.eqb_neq in Hla.
  unfold aux_name_free in Hfree. apply negb_true_iff in Hfree.
  unfold CnX_level. cbn [CnX_rec]. unfold bind, seq_len, ret. cbn [contents].
  repeat (progress (rewrite ?E, ?Hla;
                    cbn [Nat.ltb Nat.leb Nat.eqb Nat.sub negb])).
  unfold py_len, seq_len, print, add_register, list_new.
  cbn [qregs heap gates next stdout].
  repeat (progress (rewrite ?E, ?Hla, ?Hfree;
                    cbn [Nat.ltb Nat.leb Nat.eqb Nat.sub negb qregs heap gates next stdout])).
  reflexivity.
Qed.

(** ** Running circuits on basis states *)

Lemma upd_same s q v : upd s q v q = v.
Proof. unfold upd. destruct (qubit_eq_dec q q); congruence. Qed.

Lemma upd_other s q v q' : q' <> q -> upd s q v q' = s q'.
Proof. intros Hne. unfold upd. destruct (qubit_eq_dec q' q); congruence. Qed.

(** Read through updates, using the distinctness facts at hand. *)
Ltac upd_simpl :=
  repeat match goal with
         | |- context [upd ?s ?q ?v ?q] => rewrite (upd_same s q v)
         | |- context [upd ?s ?q ?v ?q'] =>
             rewrite (upd_other s q v q') by (assumption || congruence)
         end.

Lemma run_app gs1 gs2 s :
  run (gs1 ++ gs2) s =
  match run gs1 s with
  | Some s' => run gs2 s'
  | None => None
  end.
Proof.
  revert s. induction gs1 as [|g gs1 IH]; intros s; simpl; [reflexivity|].
  destruct (gate_sem g s); [apply IH | reflexivity].
Qed.

Lemma forallb_upd_notin s q v (l : list qubit) :
  ~ In q l -> forallb (upd s q v) l = forallb s l.
Proof.
  induction l as [|x l IH]; intros Hnin; simpl; [reflexivity|].
  rewrite upd_other by (intros ->; apply Hnin; now left).
  rewrite IH; [reflexivity | intros Hin; apply Hnin; now right].
Qed.

Lemma forallb_ext_in (s s' : bstate) (l : list qubit) :
  (forall q, In q l -> s' q = s q) -> forallb s' l = forallb s l.
Proof.
  induction l as [|x l IH]; intros H; simpl; [reflexivity|].
  rewrite H by now left. rewrite IH; [reflexivity|].
  intros q Hq. apply H. now right.
Qed.

(** The ladder computes the conjunction of the controls into the target and
    cleans up after itself. *)
Lemma ladder_sem ras : forall rcs t s,
  length rcs = length ras + 2 ->
  NoDup (rcs ++ ras ++ [t]) ->
  (forall q, In q ras -> s q = false) ->
  exists s',
    run (ladder rcs ras (TQubit t)) s = Some s' /\
    s' t = xorb (s t) (forallb s rcs) /\
    (forall q, q <> t -> s' q = s q).
Proof.
  induction ras as [|y ras IH]; intros rcs t s Hlen Hnd Hclean.
  - destruct rcs as [|c1 [|c0 [|? ?]]]; try (simpl in Hlen; lia).
    simpl. eexists. split; [reflexivity|]. split.
    + rewrite upd_same, andb_true_r, andb_comm. reflexivity.
    + intros q Hq. now apply upd_other.
  - destruct rcs as [|a [|b rcs]]; try (simpl in Hlen; lia).
    assert (Hlen' : length (y :: rcs) = length ras + 2) by (simpl in *; lia).
    (* what distinctness gives *)
    simpl in Hnd.
    apply NoDup_cons_iff in Hnd. destruct Hnd as [Ha Hnd].
    apply NoDup_cons_iff in Hnd. destruct Hnd as [Hb Hnd].
    pose proof (NoDup_remove_1 _ _ _ Hnd) as Hnd1.
    pose proof (NoDup_remove_2 _ _ _ Hnd) as Hy.
    assert (Hay : a <> y).
    { intros ->. apply Ha. right. apply in_or_app. right. now left. }
    assert (Hby : b <> y).
    { intros ->. apply Hb. apply in_or_app. right. now left. }
    assert (Hat : a <> t).
    { intros ->. apply Ha. right. apply in_or_app. right. right.
      apply in_or_app. right. now left. }
    assert (Hbt : b <> t).
    { intros ->. apply Hb. apply in_or_app. right. right.
      apply in_or_app. right. now left. }
    assert (Hyt : y <> t).
    { intros ->. apply Hy. apply in_or_app. right.
      apply in_or_app. right. now left. }
    assert (Hyrcs : ~ In y rcs).
    { intros Hin. apply Hy. apply in_or_app. now left. }
    assert (Hyras : ~ In y ras).
    { intros Hin. apply Hy. apply in_or_app. right. apply in_or_app. now left. }
    assert (Hnd' : NoDup ((y :: rcs) ++ ras ++ [t])).
    { simpl. constructor; assumption. }
    set (s1 := upd s y (xorb (s y) (s a && s b))).
    assert (Hclean1 : forall q, In q ras -> s1 q = false).
    { intros q Hq. unfold s1. rewrite upd_other.
      - apply Hclean. now right.
      - intros ->. contradiction. }
    destruct (IH (y :: rcs) t s1 Hlen' Hnd' Hclean1) as (s2 & Hrun & Ht2 & Hframe2).
    cbn [ladder]. cbn [run gate_sem]. fold s1. rewrite run_app, Hrun.
    cbn [run gate_sem].
    eexists. split; [reflexivity|].
    assert (Hsy : s y = false) by (apply Hclean; now left).
    assert (Hs1y : s1 y = s a && s b).
    { unfold s1. rewrite upd_same, Hsy. now destruct (s a && s b). }
    split.
    + rewrite upd_other by congruence. rewrite Ht2.
      unfold s1 at 1. rewrite upd_other by congruence.
      cbn [forallb]. rewrite Hs1y.
      unfold s1. rewrite forallb_upd_notin by assumption.
      now rewrite andb_assoc.
    + intros q Hq. destruct (qubit_eq_dec q y) as [->|Hqy].
      * rewrite upd_same, !Hframe2 by congruence.
        rewrite Hs1y. unfold s1. rewrite !upd_other by congruence.
        rewrite Hsy. now destruct (s a && s b).
      * rewrite upd_other by assumption. rewrite Hframe2 by assumption.
        unfold s1. now rewrite upd_other.
Qed.

Lemma ladder_cx_or_ccx ras : forall rcs target,
  forallb is_cx_or_ccx (ladder rcs ras target) = true.
Proof.
  induction ras as [|y ras IH]; intros rcs target.
  - destruct rcs as [|c1 [|c0 [|? ?]]]; simpl; try reflexivity;
      now apply target_gates_cx_or_ccx.
  - destruct rcs as [|a [|b rcs]]; simpl; try reflexivity.
    + now apply target_gates_cx_or_ccx.
    + rewrite forallb_app, IH. reflexivity.
Qed.

Lemma forallb_rev {A} (f : A -> bool) (l : list A) :
  forallb f (rev l) = forallb f l.
Proof.
  induction l as [|x l IH]; simpl; [reflexivity|].
  rewrite forallb_app, IH. simpl. rewrite andb_true_r. apply andb_comm.
Qed.

(** The levels of the ladder, stated on the lists as the caller sees them. *)
Lemma CnX_level_runs_ladder depth st lc la target :
  lc <> la ->
  3 <= length (heap st lc) ->
  length (heap st la) = length (heap st lc) - 2 ->
  length (heap st lc) - 2 <= depth ->
  exists st',
    CnX_level depth lc la target st = (Ok tt, st') /\
    CnX_outcome st st' lc la
      (ladder_ctrls (rev (heap st lc)) (rev (heap st la))) []
      (ladder (rev (heap st lc)) (rev (heap st la)) target).
Proof.
  intros Hne H3 Hla Hdepth.
  destruct (rev (heap st lc)) as [|a [|b rcs]] eqn:Ec;
    try (apply (f_equal (@length qubit)) in Ec; rewrite length_rev in Ec;
         simpl in Ec; lia).
  destruct (rev (heap st la)) as [|y ras] eqn:Ea;
    try (apply (f_equal (@length qubit)) in Ea; rewrite length_rev in Ea;
         simpl in Ea; lia).
  assert (Hlc : length (heap st lc) = S (S (length rcs))).
  { rewrite <- (length_rev (heap st lc)), Ec. reflexivity. }
  assert (Hlas : length (heap st la) = S (length ras)).
  { rewrite <- (length_rev (heap st la)), Ea. reflexivity. }
  apply CnX_level_run.
  - assumption.
  - rewrite <- Ec. symmetry. apply rev_involutive.
  - rewrite <- Ea. symmetry. apply rev_involutive.
  - lia.
  - lia.
Qed.

(** A call with at least three controls in a list and the right number of
    ancillas in another list runs the whole ladder. *)
Lemma CnX_runs_ladder st lc la target :
  3 <= length (heap st lc) ->
  length (heap st la) = length (heap st lc) - 2 ->
  exists st',
    CnX (PList lc) target (Some (PList la)) st = (Ok tt, st') /\
    CnX_outcome st st' lc la
      (ladder_ctrls (rev (heap st lc)) (rev (heap st la))) []
      (ladder (rev (heap st lc)) (rev (heap st la)) target).
Proof.
  intros H3 Hla.
  assert (Hne : lc <> la) by (intros ->; lia).
  unfold CnX. cbn [contents].
  rewrite CnX_rec_enters_level by assumption.
  apply CnX_level_runs_ladder; try assumption. lia.
Qed.

(** C2: for a list of [n >= 1] distinct control qubits and a target outside
    it (and, when [n >= 3], a list of exactly [n - 2] further qubits that are
    all 0 in the basis state [s]), [CnX] completes, appends only [cx] and
    [ccx] gates, and those gates map [s] to the basis state in which the
    target is flipped exactly when all the controls are 1 and every other
    qubit, the controls and the ancillas among them, has its value of [s]. *)
Theorem CnX_implements_n_controlled_NOT st lc clean_aux t s :
  1 <= length (heap st lc) ->
  NoDup (heap st lc ++ [t]) ->
  (3 <= length (heap st lc) ->
   exists la,
     clean_aux = Some (PList la) /\
     length (heap st la) = length (heap st lc) - 2 /\
     NoDup (heap st lc ++ heap st la ++ [t]) /\
     (forall q, In q (heap st la) -> s q = false)) ->
  exists st' gs s',
    CnX (PList lc) (TQubit t) clean_aux st = (Ok tt, st') /\
    gates st' = gates st ++ gs /\
    forallb is_cx_or_ccx gs = true /\
    run gs s = Some s' /\
    s' t = xorb (s t) (forallb s (heap st lc)) /\
    (forall q, q <> t -> s' q = s q).
Proof.
  intros H1 Hnd Haux.
  destruct (heap st lc) as [|c0 [|c1 [|c2 cs]]] eqn:Ec; [simpl in H1; lia| | |].
  - (* one control: a single cx *)
    destruct (CnX_rec_one 1 lc (TQubit t) clean_aux st c0 Ec)
      as (st' & Hrun & Hg & _).
    exists st', [GCX c0 t], (upd s t (xorb (s t) (s c0))).
    unfold CnX. cbn [contents]. rewrite Ec. cbn [length].
    repeat split; try assumption; try reflexivity.
    + rewrite upd_same. simpl. now rewrite andb_true_r.
    + intros q Hq. now apply upd_other.
  - (* two controls: a single ccx *)
    destruct (CnX_rec_two 2 lc (TQubit t) clean_aux st c0 c1 Ec)
      as (st' & Hrun & Hg & _).
    exists st', [GCCX c0 c1 t], (upd s t (xorb (s t) (s c0 && s c1))).
    unfold CnX. cbn [contents]. rewrite Ec. cbn [length].
    repeat split; try assumption; try reflexivity.
    + rewrite upd_same. simpl. now rewrite andb_true_r.
    + intros q Hq. now apply upd_other.
  - (* three or more: the ladder *)
    destruct Haux as (la & -> & Hla & Hnd3 & Hclean); [simpl; lia|].
    rewrite <- Ec in *.
    destruct (CnX_runs_ladder st lc la (TQubit t)) as (st' & Hrun & Hg & _);
      [rewrite Ec; simpl; lia | assumption |].
    destruct (ladder_sem (rev (heap st la)) (rev (heap st lc)) t s)
      as (s' & Hs' & Ht & Hframe).
    + rewrite !length_rev. rewrite Hla, Ec. simpl. lia.
    + apply (Permutation_NoDup (l := heap st lc ++ heap st la ++ [t])); [|assumption].
      apply Permutation_app; [apply Permutation_rev|].
      apply Permutation_app; [apply Permutation_rev|apply Permutation_refl].
    + intros q Hq. apply Hclean. now apply in_rev.
    + exists st', (ladder (rev (heap st lc)) (rev (heap st la)) (TQubit t)), s'.
      repeat split; try assumption.
      * apply ladder_cx_or_ccx.
      * now rewrite Ht, forallb_rev.
Qed.

Lemma CnX_implements_n_controlled_NOT_witness :
  let st := PyState [] [("c"%string, 4); ("a"%string, 2); ("t"%string, 1)]
                    (fun l => match l with
                              | 0 => QuantumRegister 4 "c"
                              | 1 => QuantumRegister 2 "a"
                              | _ => []
                              end) 2 [] in
  let t := Qubit "t" 0 in
  let s : bstate := fun q => match q with Qubit r _ => String.eqb r "c" end in
  exists st' gs s',
    CnX (PList 0) (TQubit t) (Some (PList 1)) st = (Ok tt, st') /\
    gates st' = gates st ++ gs /\
    forallb is_cx_or_ccx gs = true /\
    run gs s = Some s' /\
    s' t = xorb (s t) (forallb s (heap st 0)) /\
    (forall q, q <> t -> s' q = s q).
Proof.
  intros st t s.
  apply (CnX_implements_n_controlled_NOT st 0 (Some (PList 1)) t s).
  - simpl. lia.
  - simpl. repeat constructor; simpl; intuition discriminate.
  - intros _. exists 1. split; [reflexivity|]. split; [reflexivity|]. split.
    + simpl. repeat constructor; simpl; intuition discriminate.
    + simpl. intros q [<-|[<-|[]]]; reflexivity.
Defined.

(** ** What CnX does to the lists it is given *)

Lemma last_rev_hd {A} (l : list A) (d : A) : last (rev l) d = hd d l.
Proof.
  destruct l as [|x l]; [reflexivity|]. simpl. apply last_last.
Qed.

Lemma ladder_ctrls_closed ras : forall rcs d,
  length rcs = length ras + 2 -> ras <> [] ->
  ladder_ctrls rcs ras = [last rcs d; last ras d].
Proof.
  induction ras as [|y ras IH]; intros rcs d Hlen Hne; [congruence|].
  destruct rcs as [|a [|b rcs]]; try (simpl in Hlen; lia).
  destruct ras as [|y' ras].
  - destruct rcs as [|c [|? ?]]; try (simpl in Hlen; lia). reflexivity.
  - change (ladder_ctrls (a :: b :: rcs) (y :: y' :: ras))
      with (ladder_ctrls (y :: rcs) (y' :: ras)).
    rewrite (IH (y :: rcs) d) by (simpl in *; (lia || congruence)).
    destruct rcs as [|c rcs]; [simpl in Hlen; lia|]. reflexivity.
Qed.

(** Every level appends its [ccx] twice, around the levels below it. *)
Lemma ladder_length ras : forall rcs t,
  length rcs = length ras + 2 ->
  length (ladder rcs ras (TQubit t)) = 2 * CnX_levels (length rcs) + 1.
Proof.
  unfold CnX_levels.
  induction ras as [|y ras IH]; intros rcs t Hlen.
  - destruct rcs as [|c1 [|c0 [|? ?]]]; try (simpl in Hlen; lia). reflexivity.
  - destruct rcs as [|a [|b rcs]]; try (simpl in Hlen; lia).
    cbn [ladder length]. rewrite length_app, (IH (y :: rcs)) by (simpl in *; lia).
    simpl in *. lia.
Qed.

Lemma QuantumRegister_length size name : length (QuantumRegister size name) = size.
Proof. unfold QuantumRegister. now rewrite length_map, length_seq. Qed.

Lemma ladder_ctrls_heads (cs anc : list qubit) c0 a0 :
  hd_error cs = Some c0 -> hd_error anc = Some a0 ->
  length cs = length anc + 2 ->
  ladder_ctrls (rev cs) (rev anc) = [c0; a0].
Proof.
  intros Hc Ha Hlen.
  destruct cs as [|c cs]; [discriminate|]. destruct anc as [|y anc]; [discriminate|].
  injection Hc as ->. injection Ha as ->.
  rewrite (ladder_ctrls_closed (rev (a0 :: anc)) (rev (c0 :: cs)) c0).
  - now rewrite !last_rev_hd.
  - now rewrite !length_rev.
  - intros Hnil. apply (f_equal (@length qubit)) in Hnil.
    rewrite length_rev in Hnil. discriminate.
Qed.

Lemma hd_error_nonempty {A} (l : list A) :
  0 < length l -> exists x, hd_error l = Some x.
Proof. destruct l as [|x l]; simpl; [lia|]. intros _. now exists x. Qed.

(** C10 (as amended): called with more than two controls in a list of the
    store and with any sequence of ancillas with which the levels run (one
    of exactly [len(ctrls) - 2] qubits, or one of any other length on a
    circuit without a register [aux]), [CnX] returns with [ctrls] one
    element shorter for each of its [len(ctrls) - 2] levels: the list holds
    its first control followed by the first of the ancillas that were used
    (those of [clean_aux], or those of the new register).  A [clean_aux]
    that is a list of exactly [len(ctrls) - 2] qubits comes back one element
    shorter for each level, that is, empty; a [clean_aux] list of any other
    length comes back as it was. *)
Theorem CnX_shortens_its_list_arguments st lc a target :
  3 <= length (heap st lc) ->
  lc < next st ->
  (forall la, a = PList la -> la < next st) ->
  length (contents st a) = length (heap st lc) - 2 \/ aux_name_free st = true ->
  let n := length (heap st lc) in
  let used := if length (contents st a) =? n - 2 then contents st a
              else QuantumRegister (n - 2) aux_name in
  exists st' c0 a0,
    CnX (PList lc) target (Some a) st = (Ok tt, st') /\
    hd_error (heap st lc) = Some c0 /\
    hd_error used = Some a0 /\
    heap st' lc = [c0; a0] /\
    length (heap st' lc) = n - CnX_levels n /\
    (forall la, a = PList la -> la <> lc ->
       heap st' la = (if length (heap st la) =? n - 2 then [] else heap st la) /\
       (length (heap st la) = n - 2 ->
        length (heap st' la) = length (heap st la) - CnX_levels n)).
Proof.
  intros H3 Hlc Hla Hruns n used.
  assert (Hne : lc <> next st) by lia.
  destruct (hd_error_nonempty (heap st lc)) as (c0 & Hc0); [lia|].
  assert (Hlevels : 2 = n - CnX_levels n) by (unfold CnX_levels, n; lia).
  unfold used. clear used.
  destruct (Nat.eqb_spec (length (contents st a)) (n - 2)) as [Hright|Hwrong].
  - (* the right number of ancillas *)
    destruct (hd_error_nonempty (contents st a)) as (a0 & Ha0); [unfold n in *; lia|].
    destruct a as [la|qs]; cbn [contents] in *.
    + destruct (CnX_runs_ladder st lc la target H3 Hright)
        as (st' & Hrun & _ & _ & _ & _ & Hc & Ha & _).
      exists st', c0, a0.
      rewrite (ladder_ctrls_heads _ _ c0 a0) in Hc by (auto; unfold n in *; lia).
      rewrite Hc.
      refine (conj Hrun (conj Hc0 (conj Ha0 (conj eq_refl (conj Hlevels _))))).
      intros la' E _. injection E as <-. split.
      * apply Nat.eqb_eq in Hright. now rewrite Hright.
      * intros _. rewrite Ha, Hright. unfold CnX_levels. simpl. lia.
    + unfold CnX. cbn [contents].
      rewrite CnX_rec_enters_level_tuple by assumption.
      assert (Hh : heap (alloc st qs) lc = heap st lc).
      { unfold alloc. cbn [heap]. apply Nat.eqb_neq in Hne. now rewrite Hne. }
      assert (Hq : heap (alloc st qs) (next st) = qs).
      { unfold alloc. cbn [heap]. now rewrite Nat.eqb_refl. }
      destruct (CnX_level_runs_ladder (length (heap st lc)) (alloc st qs) lc
                  (next st) target) as (st' & Hrun & _ & _ & _ & _ & Hc & _);
        rewrite ?Hh, ?Hq; try assumption; try lia.
      exists st', c0, a0. rewrite Hh, Hq in Hc.
      rewrite (ladder_ctrls_heads _ _ c0 a0) in Hc by (auto; unfold n in *; lia).
      rewrite Hc.
      refine (conj Hrun (conj Hc0 (conj Ha0 (conj eq_refl (conj Hlevels _))))).
      intros la' E. discriminate E.
  - (* any other number: the fallback *)
    destruct Hruns as [Hright|Hfree]; [contradiction|].
    destruct (hd_error_nonempty (QuantumRegister (n - 2) aux_name)) as (a0 & Ha0).
    { rewrite QuantumRegister_length. unfold n. lia. }
    unfold CnX. cbn [contents].
    rewrite CnX_rec_enters_level_wrong by assumption.
    fold n.
    set (st0 := alloc (warned st (Printed (length (contents st a)) (n - 2)) (n - 2))
                      (QuantumRegister (n - 2) aux_name)).
    assert (Hh : forall l, l <> next st -> heap st0 l = heap st l).
    { intros l Hl. unfold st0, alloc, warned. cbn [heap next].
      apply Nat.eqb_neq in Hl. now rewrite Hl. }
    assert (Hq : heap st0 (next st) = QuantumRegister (n - 2) aux_name).
    { unfold st0, alloc, warned. cbn [heap next]. now rewrite Nat.eqb_refl. }
    destruct (CnX_level_runs_ladder n st0 lc (next st) target)
      as (st' & Hrun & _ & _ & _ & _ & Hc & _ & Hrest);
      rewrite ?(Hh lc Hne), ?Hq, ?QuantumRegister_length; try assumption;
      try (unfold n; lia).
    exists st', c0, a0. rewrite (Hh lc Hne), Hq in Hc.
    rewrite (ladder_ctrls_heads _ _ c0 a0) in Hc
      by (auto; rewrite QuantumRegister_length; unfold n; lia).
    rewrite Hc.
    refine (conj Hrun (conj Hc0 (conj Ha0 (conj eq_refl (conj Hlevels _))))).
    intros la' E Hla'. subst a. cbn [contents] in Hwrong.
    specialize (Hla la' eq_refl). split.
    + apply Nat.eqb_neq in Hwrong. rewrite Hwrong.
      rewrite Hrest by (auto; lia). apply Hh. lia.
    + intros Hlen. contradiction.
Qed.

Lemma CnX_shortens_its_list_arguments_witness :
  let st := PyState [] [("c"%string, 4); ("t"%string, 1)]
                    (fun l => match l with
                              | 0 => QuantumRegister 4 "c"
                              | 1 => [Qubit "spare" 0]
                              | _ => []
                              end) 2 [] in
  let a := PList 1 in
  let target := TQubit (Qubit "t" 0) in
  let n := length (heap st 0) in
  let used := if length (contents st a) =? n - 2 then contents st a
              else QuantumRegister (n - 2) aux_name in
  exists st' c0 a0,
    CnX (PList 0) target (Some a) st = (Ok tt, st') /\
    hd_error (heap st 0) = Some c0 /\
    hd_error used = Some a0 /\
    heap st' 0 = [c0; a0] /\
    length (heap st' 0) = n - CnX_levels n /\
    (forall la, a = PList la -> la <> 0 ->
       heap st' la = (if length (heap st la) =? n - 2 then [] else heap st la) /\
       (length (heap st la) = n - 2 ->
        length (heap st' la) = length (heap st la) - CnX_levels n)).
Proof.
  intros st a target.
  apply (CnX_shortens_its_list_arguments st 0 a target).
  - simpl. lia.
  - simpl. lia.
  - intros la E. injection E as <-. simpl. lia.
  - right. reflexivity.
Defined.

(** C10 as stated fails for a list of the wrong length: with three controls
    and a [clean_aux] list of two qubits, one level runs ([ctrls] comes back
    one element shorter, ending in an ancilla of the new register), but the
    caller's [clean_aux] list comes back with both its elements. *)
Lemma CnX_wrong_size_list_comes_back_whole :
  let st := PyState [] [("c"%string, 3); ("t"%string, 1)]
                    (fun l => match l with
                              | 0 => QuantumRegister 3 "c"
                              | 1 => [Qubit "spare" 0; Qubit "spare" 1]
                              | _ => []
                              end) 2 [] in
  let r := CnX (PList 0) (TQubit (Qubit "t" 0)) (Some (PList 1)) st in
  fst r = Ok tt /\
  heap (snd r) 0 = [Qubit "c" 0; Qubit "aux" 0] /\
  length (heap (snd r) 0) = length (heap st 0) - CnX_levels (length (heap st 0)) /\
  heap (snd r) 1 = [Qubit "spare" 0; Qubit "spare" 1] /\
  length (heap (snd r) 1) <> length (heap st 1) - CnX_levels (length (heap st 0)).
Proof.
  cbv zeta. repeat split; try (vm_compute; reflexivity).
  vm_compute. discriminate.
Qed.

(** ** CnX and ancilla lists of the wrong size *)

(** C4 as stated fails for a list of the wrong length: with three controls
    and an empty [clean_aux] list the call is not rejected; it returns
    normally, having appended the three gates of the ladder on a qubit of a
    register it created. *)
Lemma CnX_wrong_size_is_not_rejected :
  let st := PyState [] [("c"%string, 3); ("t"%string, 1)]
                    (fun l => match l with
                              | 0 => QuantumRegister 3 "c"
                              | _ => []
                              end) 2 [] in
  let r := CnX (PList 0) (TQubit (Qubit "t" 0)) (Some (PList 1)) st in
  ~ rejected r st /\
  fst r = Ok tt /\
  gates (snd r) = [GCCX (Qubit "c" 2) (Qubit "c" 1) (Qubit "aux" 0);
                   GCCX (Qubit "c" 0) (Qubit "aux" 0) (Qubit "t" 0);
                   GCCX (Qubit "c" 2) (Qubit "c" 1) (Qubit "aux" 0)].
Proof.
  cbv zeta. split; [|split; reflexivity].
  intros (e & He & _). discriminate He.
Qed.

(** C4 (as amended): called with more than two controls in a list and with
    a [clean_aux] sequence whose length is not [len(ctrls) - 2], on a
    circuit that has no register named [aux], [CnX] does not raise.  It
    prints the warning with the two lengths, adds a register [aux] of
    [len(ctrls) - 2] qubits to the circuit, appends the ladder built on the
    qubits of that register, and returns normally. *)
Theorem CnX_wrong_size_creates_ancillas st lc a target :
  3 <= length (heap st lc) ->
  length (contents st a) <> length (heap st lc) - 2 ->
  aux_name_free st = true ->
  lc < next st ->
  exists st',
    CnX (PList lc) target (Some a) st = (Ok tt, st') /\
    stdout st' = stdout st ++
      [Printed (length (contents st a)) (length (heap st lc) - 2)] /\
    qregs st' = qregs st ++ [(aux_name, length (heap st lc) - 2)] /\
    gates st' = gates st ++
      ladder (rev (heap st lc))
             (rev (QuantumRegister (length (heap st lc) - 2) aux_name)) target /\
    gates st' <> gates st.
Proof.
  intros H3 Hwrong Hfree Hlt.
  unfold CnX. cbn [contents].
  rewrite CnX_rec_enters_level_wrong by assumption.
  set (n := length (heap st lc)) in *.
  set (st0 := alloc (warned st (Printed (length (contents st a)) (n - 2)) (n - 2))
                    (QuantumRegister (n - 2) aux_name)).
  assert (Hne : lc <> next st) by lia.
  assert (Hc0 : heap st0 lc = heap st lc).
  { unfold st0, alloc, warned. cbn [heap next].
    apply Nat.eqb_neq in Hne. now rewrite Hne. }
  assert (Ha0 : heap st0 (next st) = QuantumRegister (n - 2) aux_name).
  { unfold st0, alloc, warned. cbn [heap next]. now rewrite Nat.eqb_refl. }
  destruct (CnX_level_runs_ladder n st0 lc (next st) target)
    as (st' & Hrun & Hg & Hq & _ & Hs & _); try assumption.
  - rewrite Hc0. exact H3.
  - rewrite Hc0, Ha0. apply QuantumRegister_length.
  - rewrite Hc0. fold n. lia.
  - exists st'. rewrite Hc0, Ha0 in Hg.
    repeat split; try assumption.
    rewrite Hg. cbn [gates st0 alloc warned]. intros Heq.
    apply (f_equal (@length gate)) in Heq. rewrite length_app in Heq.
    assert (Hpos : 0 < length (ladder (rev (heap st lc))
               (rev (QuantumRegister (n - 2) aux_name)) target)).
    { destruct (rev (heap st lc)) as [|x [|y rcs]] eqn:Ec;
        try (apply (f_equal (@length qubit)) in Ec; rewrite length_rev in Ec;
             fold n in Ec; simpl in Ec; lia).
      destruct (rev (QuantumRegister (n - 2) aux_name)) as [|z ras] eqn:Ea.
      - apply (f_equal (@length qubit)) in Ea.
        rewrite length_rev, QuantumRegister_length in Ea. simpl in Ea. lia.
      - cbn [ladder length]. lia. }
    lia.
Qed.

Lemma CnX_wrong_size_creates_ancillas_witness :
  let st := PyState [] [("c"%string, 3); ("t"%string, 1)]
                    (fun l => match l with
                              | 0 => QuantumRegister 3 "c"
                              | _ => []
                              end) 1 [] in
  let a := PTuple [Qubit "spare" 0; Qubit "spare" 1] in
  let target := TQubit (Qubit "t" 0) in
  exists st',
    CnX (PList 0) target (Some a) st = (Ok tt, st') /\
    stdout st' = stdout st ++
      [Printed (length (contents st a)) (length (heap st 0) - 2)] /\
    qregs st' = qregs st ++ [(aux_name, length (heap st 0) - 2)] /\
    gates st' = gates st ++
      ladder (rev (heap st 0))
             (rev (QuantumRegister (length (heap st 0) - 2) aux_name)) target /\
    gates st' <> gates st.
Proof.
  intros st a target.
  apply (CnX_wrong_size_creates_ancillas st 0 a target).
  - simpl. lia.
  - simpl. lia.
  - reflexivity.
  - simpl. lia.
Defined.

(** ** apply_oracle: the gates it appends and when it raises *)

Lemma add_gates_nil st : add_gates st [] = st.
Proof. destruct st. unfold add_gates. simpl. now rewrite app_nil_r. Qed.

Lemma add_gates_app st gs1 gs2 :
  add_gates (add_gates st gs1) gs2 = add_gates st (gs1 ++ gs2).
Proof. unfold add_gates. simpl. now rewrite app_assoc. Qed.

Lemma append_gate_add g st : append_gate g st = (Ok tt, add_gates st [g]).
Proof. reflexivity. Qed.

Lemma emits_bind m1 m2 gs1 gs2 :
  emits m1 gs1 -> emits m2 gs2 -> emits (m1 ;;; m2) (gs1 ++ gs2).
Proof.
  intros H1 H2 st. rewrite (bind_ok (H1 st)), H2. now rewrite add_gates_app.
Qed.

Lemma emits_ret : emits (ret tt) [].
Proof. intros st. unfold ret. now rewrite add_gates_nil. Qed.

Lemma emits_gate g : emits (append_gate g) [g].
Proof. intros st. reflexivity. Qed.

Lemma getitem_valid (r : list qubit) (i : Z) :
  valid_index (length r) i = true -> getitem r i = Ok (at_ r i).
Proof.
  unfold valid_index, getitem, at_, pyidx. intros Hv.
  apply andb_true_iff in Hv. destruct Hv as [Hlo Hhi].
  apply Z.leb_le in Hlo. apply Z.ltb_lt in Hhi.
  set (n := Z.of_nat (length r)) in *.
  set (j := if (i <? 0)%Z then (n + i)%Z else i).
  assert (Hj : (0 <= j < n)%Z).
  { unfold j. destruct (i <? 0)%Z eqn:E.
    - apply Z.ltb_lt in E. lia.
    - apply Z.ltb_ge in E. lia. }
  replace (0 <=? j)%Z with true by (symmetry; apply Z.leb_le; lia).
  replace (j <? n)%Z with true by (symmetry; apply Z.ltb_lt; lia).
  cbn [andb].
  rewrite (nth_error_nth' r no_qubit); [reflexivity|].
  unfold n in Hj. lia.
Qed.

Lemma emits_cx_at r1 i1 r2 i2 :
  valid_index (length r1) i1 = true ->
  valid_index (length r2) i2 = true ->
  emits (cx_at r1 i1 r2 i2) [GCX (at_ r1 i1) (at_ r2 i2)].
Proof.
  intros H1 H2 st. unfold cx_at, bind, lift.
  now rewrite (getitem_valid _ _ H1), (getitem_valid _ _ H2).
Qed.

Lemma emits_ccx_at r1 i1 r2 i2 r3 i3 :
  valid_index (length r1) i1 = true ->
  valid_index (length r2) i2 = true ->
  valid_index (length r3) i3 = true ->
  emits (ccx_at r1 i1 r2 i2 r3 i3)
        [GCCX (at_ r1 i1) (at_ r2 i2) (at_ r3 i3)].
Proof.
  intros H1 H2 H3 st. unfold ccx_at, bind, lift.
  now rewrite (getitem_valid _ _ H1), (getitem_valid _ _ H2), (getitem_valid _ _ H3).
Qed.

Lemma valid_index_of_nat len i : i < len -> valid_index len (Z.of_nat i) = true.
Proof.
  intros Hi. unfold valid_index. apply andb_true_iff. split.
  - apply Z.leb_le. lia.
  - apply Z.ltb_lt. lia.
Qed.

Lemma emits_for_each {A} (body : A -> M unit) (gs : A -> list gate) (xs : list A) :
  (forall x, In x xs -> emits (body x) (gs x)) ->
  emits (for_each xs body) (flat_map gs xs).
Proof.
  induction xs as [|x xs IH]; intros H; cbn [for_each flat_map].
  - apply emits_ret.
  - apply emits_bind; [apply H; now left|].
    apply IH. intros y Hy. apply H. now right.
Qed.

Lemma emits_xor_literal f_in aux k literal :
  literal_in_range f_in literal = true ->
  k < length aux ->
  emits (xor_literal f_in aux k literal)
        (xor_literal_gates f_in (at_ aux (Z.of_nat k)) literal).
Proof.
  unfold literal_in_range, literal_index, xor_literal, xor_literal_gates.
  intros Hl Hk st. pose proof (valid_index_of_nat _ _ Hk) as Hk'.
  destruct (literal >? 0)%Z; unfold bind, lift, circ_x, circ_cx;
    rewrite ?(getitem_valid _ _ Hl), ?(getitem_valid _ _ Hk'); cbn;
    rewrite ?(getitem_valid _ _ Hl), ?(getitem_valid _ _ Hk');
    unfold append_gate, add_gates; cbn; rewrite <- ?app_assoc; reflexivity.
Qed.

Lemma emits_unflip_literal f_in literal :
  literal_in_range f_in literal = true ->
  emits (unflip_literal f_in literal) (unflip_literal_gates f_in literal).
Proof.
  unfold literal_in_range, literal_index, unflip_literal, unflip_literal_gates.
  intros Hl st.
  destruct (literal <? 0)%Z eqn:E.
  - replace (literal >? 0)%Z with false in Hl
      by (symmetry; apply Z.ltb_lt in E; rewrite Z.gtb_ltb; apply Z.ltb_ge; lia).
    unfold bind, lift, circ_x. now rewrite (getitem_valid _ _ Hl).
  - apply emits_ret.
Qed.

Lemma emits_clause_body f_in aux num_clauses k clause :
  3 <= length f_in ->
  num_clauses < length aux ->
  k < length aux ->
  forallb (literal_in_range f_in) clause = true ->
  emits (clause_body f_in aux num_clauses k clause)
        (clause_gates f_in aux num_clauses k clause).
Proof.
  intros H3 Hnc Hk Hcl. rewrite forallb_forall in Hcl.
  assert (V0 : valid_index (length f_in) 0 = true) by (apply (valid_index_of_nat _ 0); lia).
  assert (V1 : valid_index (length f_in) 1 = true) by (apply (valid_index_of_nat _ 1); lia).
  assert (V2 : valid_index (length f_in) 2 = true) by (apply (valid_index_of_nat _ 2); lia).
  pose proof (valid_index_of_nat _ _ Hnc) as Vn.
  pose proof (valid_index_of_nat _ _ Hk) as Vk.
  unfold clause_body, clause_gates, conjunction_gates.
  apply emits_bind.
  { apply emits_for_each. intros l Hl. apply emits_xor_literal; auto. }
  apply (emits_bind _ _ [_] _ (emits_gate _)).
  apply (emits_bind _ _ [_] _ (emits_ccx_at _ _ _ _ _ _ V0 V1 Vn)).
  apply (emits_bind _ _ [_] _ (emits_ccx_at _ _ _ _ _ _ V2 Vn Vk)).
  apply (emits_bind _ _ [_] _ (emits_gate _)).
  apply (emits_bind _ _ [_] _ (emits_ccx_at _ _ _ _ _ _ V0 V1 Vn)).
  apply emits_bind.
  { apply emits_for_each. intros l Hl. apply emits_unflip_literal; auto. }
  apply emits_gate.
Qed.

Lemma emits_pass f_in aux num_clauses clauses : forall k0,
  3 <= length f_in ->
  num_clauses < length aux ->
  k0 + length clauses <= length aux ->
  Forall (fun clause => forallb (literal_in_range f_in) clause = true) clauses ->
  emits (for_enumerate k0 clauses (clause_body f_in aux num_clauses))
        (pass_gates f_in aux num_clauses k0 clauses).
Proof.
  induction clauses as [|c cs IH]; intros k0 H3 Hnc Hk Hall;
    cbn [for_enumerate pass_gates].
  - apply emits_ret.
  - inversion Hall as [|? ? Hc Hcs]; subst. simpl in Hk.
    apply emits_bind.
    + apply emits_clause_body; auto. lia.
    + apply IH; auto. lia.
Qed.

Lemma emits_combine f_out aux num_clauses :
  1 <= length f_out ->
  num_clauses < length aux ->
  1 <= num_clauses <= 3 ->
  emits (combine_clauses f_out aux num_clauses) (combine_gates f_out aux num_clauses).
Proof.
  intros Ho Hnc Hrange.
  assert (Vo : valid_index (length f_out) 0 = true) by (apply (valid_index_of_nat _ 0); lia).
  assert (A0 : valid_index (length aux) 0 = true) by (apply (valid_index_of_nat _ 0); lia).
  destruct num_clauses as [|[|[|[|n]]]]; try lia; unfold combine_clauses, combine_gates;
    cbn [Nat.eqb].
  - now apply emits_cx_at.
  - assert (A1 : valid_index (length aux) 1 = true) by (apply (valid_index_of_nat _ 1); lia).
    now apply emits_ccx_at.
  - assert (A1 : valid_index (length aux) 1 = true) by (apply (valid_index_of_nat _ 1); lia).
    assert (A2 : valid_index (length aux) 2 = true) by (apply (valid_index_of_nat _ 2); lia).
    assert (A3 : valid_index (length aux) 3 = true) by (apply (valid_index_of_nat _ 3); lia).
    change (Z.of_nat 3) with 3%Z.
    apply (emits_bind _ _ [_] _ (emits_ccx_at _ _ _ _ _ _ A0 A1 A3)).
    apply (emits_bind _ _ [_] _ (emits_ccx_at _ _ _ _ _ _ A2 A3 Vo)).
    now apply emits_ccx_at.
Qed.

(** With one, two or three clauses [apply_oracle] returns normally, having
    appended [oracle_gates]. *)
Lemma apply_oracle_emits f_in f_out aux n expression :
  registers_fit f_in f_out aux expression ->
  1 <= length expression <= 3 ->
  emits (apply_oracle f_in f_out aux n expression)
        (oracle_gates f_in f_out aux expression).
Proof.
  intros (H3 & Ho & Hnc & Hall) Hrange.
  unfold apply_oracle, oracle_gates.
  apply emits_bind; [apply emits_pass; auto; lia|].
  apply emits_bind; [apply emits_combine; auto|].
  apply emits_bind; [apply emits_gate|].
  apply emits_pass; auto; lia.
Qed.

(** With no clause or more than three, it raises after the first loop. *)
Lemma apply_oracle_raises f_in f_out aux n expression st :
  registers_fit f_in f_out aux expression ->
  length expression = 0 \/ 3 < length expression ->
  apply_oracle f_in f_out aux n expression st
  = (Raise (ValueError too_many_clauses),
     add_gates st (pass_gates f_in aux (length expression) 0 expression)).
Proof.
  intros (H3 & Ho & Hnc & Hall) Hrange.
  unfold apply_oracle.
  rewrite (bind_ok (emits_pass f_in aux (length expression) expression 0
                               H3 Hnc ltac:(lia) Hall st)).
  apply bind_raise. unfold combine_clauses.
  destruct (length expression) as [|[|[|[|m]]]]; try lia; reflexivity.
Qed.

(** C3 as stated fails: an expression with no clause does not have more
    than three clauses, and [apply_oracle] raises the ValueError on it. *)
Lemma apply_oracle_raises_on_no_clause :
  let f_in := QuantumRegister 3 "x" in
  let f_out := QuantumRegister 1 "out" in
  let aux := QuantumRegister 1 "aux" in
  let st := PyState [] [("x"%string, 3); ("out"%string, 1); ("aux"%string, 1)]
                    (fun _ => []) 0 [] in
  let expression : list (list Z) := [] in
  ~ 3 < length expression /\
  apply_oracle f_in f_out aux 3 expression st
  = (Raise (ValueError too_many_clauses), st).
Proof. cbv zeta. split; [simpl; lia | reflexivity]. Qed.

(** C3 (as amended): on registers that the subscripts of the function stay
    within, [apply_oracle] raises the ValueError exactly when the expression
    has no clause or more than three clauses; with one, two or three clauses
    it returns normally. *)
Theorem apply_oracle_raises_ValueError_iff f_in f_out aux n expression st :
  registers_fit f_in f_out aux expression ->
  (fst (apply_oracle f_in f_out aux n expression st)
   = Raise (ValueError too_many_clauses)
   <-> length expression = 0 \/ 3 < length expression) /\
  (1 <= length expression <= 3 ->
   fst (apply_oracle f_in f_out aux n expression st) = Ok tt).
Proof.
  intros Hfit. split; [split|].
  - intros Hraise.
    destruct (le_lt_dec 1 (length expression)) as [H1|H0]; [|lia].
    destruct (le_lt_dec (length expression) 3) as [H3|H4]; [|lia].
    rewrite (apply_oracle_emits f_in f_out aux n expression Hfit (conj H1 H3) st)
      in Hraise.
    discriminate.
  - intros Hrange. now rewrite (apply_oracle_raises _ _ _ _ _ _ Hfit Hrange).
  - intros Hrange.
    now rewrite (apply_oracle_emits f_in f_out aux n expression Hfit Hrange st).
Qed.

Lemma apply_oracle_raises_ValueError_iff_witness :
  let f_in := QuantumRegister 3 "x" in
  let f_out := QuantumRegister 1 "out" in
  let aux := QuantumRegister 5 "aux" in
  let st := PyState [] [("x"%string, 3); ("out"%string, 1); ("aux"%string, 5)]
                    (fun _ => []) 0 [] in
  let expression := [[1; 2; -3]; [-1; -2; -3]; [-1; 2; 3]; [1; -2; 3]]%Z in
  (fst (apply_oracle f_in f_out aux 3 expression st)
   = Raise (ValueError too_many_clauses)
   <-> length expression = 0 \/ 3 < length expression) /\
  (1 <= length expression <= 3 ->
   fst (apply_oracle f_in f_out aux 3 expression st) = Ok tt).
Proof.
  intros f_in f_out aux st expression.
  apply (apply_oracle_raises_ValueError_iff f_in f_out aux 3 expression st).
  unfold registers_fit. simpl. repeat split; try lia.
  repeat constructor.
Defined.

(** ** apply_oracle on basis states *)

Lemma at_of_nat (r : list qubit) (k : nat) : at_ r (Z.of_nat k) = nth k r no_qubit.
Proof.
  unfold at_, pyidx.
  replace (Z.of_nat k <? 0)%Z with false by (symmetry; apply Z.ltb_ge; lia).
  now rewrite Nat2Z.id.
Qed.

Lemma names_input_spec f_in l :
  names_input f_in l = true ->
  var_of l < length f_in /\
  at_ f_in (literal_index l) = nth (var_of l) f_in no_qubit /\
  (l <? 0)%Z = negb (l >? 0)%Z /\
  literal_in_range f_in l = true.
Proof.
  unfold names_input, var_of, literal_in_range, literal_index, valid_index, at_, pyidx.
  intros H. apply andb_true_iff in H. destruct H as [H1 H2].
  apply Z.leb_le in H1. apply Z.leb_le in H2.
  destruct (l >? 0)%Z eqn:E.
  - assert (0 < l)%Z by (rewrite Z.gtb_ltb in E; now apply Z.ltb_lt in E).
    replace (l - 1 <? 0)%Z with false by (symmetry; apply Z.ltb_ge; lia).
    replace (Z.abs l) with l in * by lia.
    repeat split; lia.
  - assert (l < 0)%Z by (rewrite Z.gtb_ltb in E; apply Z.ltb_ge in E; lia).
    replace (- l - 1 <? 0)%Z with false by (symmetry; apply Z.ltb_ge; lia).
    replace (Z.abs l) with (- l)%Z in * by lia.
    repeat split; lia.
Qed.

Lemma inputs_at f_in s i :
  i < length f_in -> s (nth i f_in no_qubit) = inputs f_in s i.
Proof.
  intros Hi. unfold inputs. apply Nat.ltb_lt in Hi. now rewrite Hi.
Qed.

Lemma inputs_upd_outside f_in s q v j :
  ~ In q f_in -> inputs f_in (upd s q v) j = inputs f_in s j.
Proof.
  intros Hq. unfold inputs. destruct (j <? length f_in) eqn:E; [|reflexivity].
  apply Nat.ltb_lt in E. apply upd_other.
  intros Heq. apply Hq. rewrite <- Heq. now apply nth_In.
Qed.

Lemma inputs_upd_flip f_in s i j :
  NoDup f_in -> i < length f_in ->
  inputs f_in (upd s (nth i f_in no_qubit) (negb (s (nth i f_in no_qubit)))) j
  = flip (inputs f_in s) i j.
Proof.
  intros Hnd Hi. unfold inputs, flip.
  destruct (j <? length f_in) eqn:E.
  - apply Nat.ltb_lt in E. destruct (j =? i) eqn:Eji.
    + apply Nat.eqb_eq in Eji. subst j. now rewrite upd_same.
    + apply Nat.eqb_neq in Eji. apply upd_other.
      intros Heq. apply Eji. now apply (proj1 (NoDup_nth f_in no_qubit) Hnd).
  - apply Nat.ltb_ge in E. destruct (j =? i) eqn:Eji; [|reflexivity].
    apply Nat.eqb_eq in Eji. lia.
Qed.

Lemma inputs_ext f_in s s' :
  (forall q, In q f_in -> s' q = s q) -> forall j, inputs f_in s' j = inputs f_in s j.
Proof.
  intros H j. unfold inputs. destruct (j <? length f_in) eqn:E; [|reflexivity].
  apply Nat.ltb_lt in E. apply H. now apply nth_In.
Qed.

Lemma negate_for_ext l x y :
  (forall j, x j = y j) -> forall j, negate_for l x j = negate_for l y j.
Proof.
  intros H j. unfold negate_for, flip. destruct (l >? 0)%Z; [apply H|].
  rewrite H. reflexivity.
Qed.

Lemma flipped_ext clause : forall x y,
  (forall j, x j = y j) -> forall j, flipped clause x j = flipped clause y j.
Proof.
  induction clause as [|l rest IH]; intros x y H j; simpl; [apply H|].
  apply IH. now apply negate_for_ext.
Qed.

Lemma xor_value_ext clause : forall x y,
  (forall j, x j = y j) -> xor_value clause x = xor_value clause y.
Proof.
  induction clause as [|l rest IH]; intros x y H; simpl; [reflexivity|].
  rewrite (negate_for_ext l x y H).
  f_equal. apply IH. now apply negate_for_ext.
Qed.

Lemma block_value_ext clause x y :
  (forall j, x j = y j) -> block_value clause x = block_value clause y.
Proof.
  intros H. unfold block_value.
  rewrite (xor_value_ext clause x y H), !(flipped_ext clause x y H). reflexivity.
Qed.

Lemma flipped_parity clause : forall x j,
  flipped clause x j = xorb (x j) (neg_parity clause j).
Proof.
  induction clause as [|l rest IH]; intros x j; simpl.
  - now rewrite xorb_false_r.
  - rewrite IH. unfold negate_for, flip.
    destruct (l >? 0)%Z; simpl; [reflexivity|].
    destruct (j =? var_of l); simpl; [|reflexivity].
    destruct (x j), (neg_parity rest j); reflexivity.
Qed.

(** The literal loop of a clause, on a basis state. *)
Lemma xor_literals_run f_in ak clause : forall s,
  NoDup f_in -> ~ In ak f_in ->
  forallb (names_input f_in) clause = true ->
  exists s',
    run (flat_map (xor_literal_gates f_in ak) clause) s = Some s' /\
    (forall j, inputs f_in s' j = flipped clause (inputs f_in s) j) /\
    s' ak = xorb (s ak) (xor_value clause (inputs f_in s)) /\
    (forall q, ~ In q f_in -> q <> ak -> s' q = s q).
Proof.
  induction clause as [|l rest IH]; intros s Hnd Hak Hall.
  - exists s. simpl. repeat split; auto. now rewrite xorb_false_r.
  - cbn [forallb] in Hall. apply andb_true_iff in Hall. destruct Hall as [Hl Hrest].
    destruct (names_input_spec f_in l Hl) as (Hv & Hat & _ & _).
    unfold literal_index in Hat.
    cbn [flat_map]. rewrite run_app.
    set (qi := nth (var_of l) f_in no_qubit) in *.
    assert (Hqi : In qi f_in) by now apply nth_In.
    assert (Hne : qi <> ak) by (intros ->; contradiction).
    assert (Hstep : exists s1,
      run (xor_literal_gates f_in ak l) s = Some s1 /\
      (forall j, inputs f_in s1 j = negate_for l (inputs f_in s) j) /\
      s1 ak = xorb (s ak) (negate_for l (inputs f_in s) (var_of l)) /\
      (forall q, ~ In q f_in -> q <> ak -> s1 q = s q)).
    { unfold xor_literal_gates, negate_for. destruct (l >? 0)%Z.
      - rewrite Hat. cbn [run gate_sem]. eexists. split; [reflexivity|].
        repeat split.
        + intros j. now apply inputs_upd_outside.
        + rewrite upd_same. unfold qi. now rewrite inputs_at.
        + intros q _ Hq. now apply upd_other.
      - rewrite Hat. cbn [run gate_sem]. eexists. split; [reflexivity|].
        repeat split.
        + intros j. rewrite inputs_upd_outside by assumption.
          now apply inputs_upd_flip.
        + rewrite upd_same, upd_same. rewrite upd_other by congruence.
          unfold flip. rewrite Nat.eqb_refl. unfold qi. now rewrite inputs_at.
        + intros q Hq1 Hq2. rewrite upd_other by assumption.
          apply upd_other. intros ->. contradiction. }
    destruct Hstep as (s1 & Hrun1 & Hin1 & Hak1 & Hfr1).
    rewrite Hrun1.
    destruct (IH s1 Hnd Hak Hrest) as (s' & Hrun & Hin & Hak' & Hfr).
    exists s'. split; [assumption|]. repeat split.
    + intros j. rewrite Hin. cbn [flipped]. now apply flipped_ext.
    + rewrite Hak', Hak1. cbn [xor_value].
      rewrite (xor_value_ext rest _ _ Hin1). now rewrite xorb_assoc.
    + intros q Hq1 Hq2. rewrite Hfr, Hfr1 by assumption. reflexivity.
Qed.

(** The loop that flips the negated inputs back, on a basis state. *)
Lemma unflip_literals_run f_in clause : forall s,
  NoDup f_in ->
  forallb (names_input f_in) clause = true ->
  exists s',
    run (flat_map (unflip_literal_gates f_in) clause) s = Some s' /\
    (forall j, inputs f_in s' j = flipped clause (inputs f_in s) j) /\
    (forall q, ~ In q f_in -> s' q = s q).
Proof.
  induction clause as [|l rest IH]; intros s Hnd Hall.
  - exists s. simpl. repeat split; auto.
  - cbn [forallb] in Hall. apply andb_true_iff in Hall. destruct Hall as [Hl Hrest].
    destruct (names_input_spec f_in l Hl) as (Hv & Hat & Hsign & _).
    unfold literal_index in Hat.
    cbn [flat_map]. rewrite run_app.
    set (qi := nth (var_of l) f_in no_qubit) in *.
    assert (Hqi : In qi f_in) by now apply nth_In.
    assert (Hstep : exists s1,
      run (unflip_literal_gates f_in l) s = Some s1 /\
      (forall j, inputs f_in s1 j = negate_for l (inputs f_in s) j) /\
      (forall q, ~ In q f_in -> s1 q = s q)).
    { unfold unflip_literal_gates, negate_for. rewrite Hsign.
      destruct (l >? 0)%Z; cbn [negb].
      - exists s. repeat split; auto.
      - rewrite Hat. cbn [run gate_sem]. eexists. split; [reflexivity|]. split.
        + intros j. now apply inputs_upd_flip.
        + intros q Hq. apply upd_other. intros ->. contradiction. }
    destruct Hstep as (s1 & Hrun1 & Hin1 & Hfr1).
    rewrite Hrun1.
    destruct (IH s1 Hnd Hrest) as (s' & Hrun & Hin & Hfr).
    exists s'. split; [assumption|]. split.
    + intros j. rewrite Hin. cbn [flipped]. now apply flipped_ext.
    + intros q Hq. rewrite Hfr, Hfr1 by assumption. reflexivity.
Qed.

(** The loop body of one clause, on a basis state in which the scratch
    ancilla [aux[num_clauses]] is 0: it xors [block_value] into [aux[k]] and
    changes nothing else. *)
Lemma clause_gates_run f_in aux num_clauses k clause s :
  NoDup f_in -> 3 <= length f_in ->
  ~ In (nth k aux no_qubit) f_in ->
  ~ In (nth num_clauses aux no_qubit) f_in ->
  nth k aux no_qubit <> nth num_clauses aux no_qubit ->
  forallb (names_input f_in) clause = true ->
  s (nth num_clauses aux no_qubit) = false ->
  exists s',
    run (clause_gates f_in aux num_clauses k clause) s = Some s' /\
    s' (nth k aux no_qubit)
    = xorb (s (nth k aux no_qubit)) (block_value clause (inputs f_in s)) /\
    (forall q, q <> nth k aux no_qubit -> s' q = s q).
Proof.
  intros Hnd H3 Hak Hanc Hne Hall Hclean.
  unfold clause_gates, conjunction_gates.
  rewrite ?at_of_nat.
  change (at_ f_in 0) with (at_ f_in (Z.of_nat 0)).
  change (at_ f_in 1) with (at_ f_in (Z.of_nat 1)).
  change (at_ f_in 2) with (at_ f_in (Z.of_nat 2)).
  rewrite ?at_of_nat.
  set (ak := nth k aux no_qubit) in *.
  set (anc := nth num_clauses aux no_qubit) in *.
  set (f0 := nth 0 f_in no_qubit). set (f1 := nth 1 f_in no_qubit).
  set (f2 := nth 2 f_in no_qubit).
  assert (Hf0 : In f0 f_in) by (apply nth_In; lia).
  assert (Hf1 : In f1 f_in) by (apply nth_In; lia).
  assert (Hf2 : In f2 f_in) by (apply nth_In; lia).
  assert (N0a : f0 <> anc) by (intros E; apply Hanc; now rewrite <- E).
  assert (N1a : f1 <> anc) by (intros E; apply Hanc; now rewrite <- E).
  assert (N2a : f2 <> anc) by (intros E; apply Hanc; now rewrite <- E).
  assert (N0k : f0 <> ak) by (intros E; apply Hak; now rewrite <- E).
  assert (N1k : f1 <> ak) by (intros E; apply Hak; now rewrite <- E).
  assert (N2k : f2 <> ak) by (intros E; apply Hak; now rewrite <- E).
  destruct (xor_literals_run f_in ak clause s Hnd Hak Hall)
    as (s1 & Hrun1 & Hin1 & Hak1 & Hfr1).
  rewrite run_app, Hrun1. cbn [app].
  cbn [run gate_sem].
  set (s2 := upd s1 anc (xorb (s1 anc) (s1 f0 && s1 f1))).
  set (s3 := upd s2 ak (xorb (s2 ak) (s2 f2 && s2 anc))).
  set (s4 := upd s3 anc (xorb (s3 anc) (s3 f0 && s3 f1))).
  destruct (unflip_literals_run f_in clause s4 Hnd Hall) as (s5 & Hrun5 & Hin5 & Hfr5).
  rewrite run_app, Hrun5. cbn [run gate_sem].
  exists s5. split; [reflexivity|].
  assert (Hs1anc : s1 anc = false) by (rewrite Hfr1; auto).
  assert (Hs2anc : s2 anc = s1 f0 && s1 f1).
  { unfold s2. rewrite upd_same, Hs1anc. now destruct (s1 f0 && s1 f1). }
  assert (Hs4anc : s4 anc = false).
  { unfold s4. rewrite upd_same. unfold s3. rewrite !upd_other by congruence.
    rewrite Hs2anc. unfold s2. rewrite !upd_other by congruence.
    now destruct (s1 f0 && s1 f1). }
  assert (Hx : forall j, j < length f_in ->
                         s1 (nth j f_in no_qubit) = flipped clause (inputs f_in s) j).
  { intros j Hj. rewrite inputs_at by assumption. apply Hin1. }
  assert (Hs4in : forall q, In q f_in -> s4 q = s1 q).
  { intros q Hq. unfold s4, s3, s2.
    rewrite !upd_other; try reflexivity; intros ->; contradiction. }
  split.
  - rewrite Hfr5 by assumption.
    unfold s4. rewrite upd_other by congruence.
    unfold s3. rewrite upd_same, Hs2anc.
    unfold s2. rewrite !upd_other by congruence.
    rewrite Hak1. unfold block_value.
    unfold f0, f1, f2. rewrite !Hx by lia.
    rewrite xorb_assoc. f_equal. f_equal.
    destruct (flipped clause (inputs f_in s) 0), (flipped clause (inputs f_in s) 1),
      (flipped clause (inputs f_in s) 2); reflexivity.
  - intros q Hq. destruct (in_dec qubit_eq_dec q f_in) as [Hin|Hnin].
    + destruct (In_nth _ _ no_qubit Hin) as (j & Hj & <-).
      rewrite !inputs_at by assumption.
      rewrite Hin5, (flipped_ext clause _ _ (inputs_ext f_in s1 s4 Hs4in)).
      rewrite (flipped_ext clause _ _ Hin1).
      rewrite !flipped_parity.
      now destruct (inputs f_in s j), (neg_parity clause j).
    + rewrite Hfr5 by assumption.
      destruct (qubit_eq_dec q anc) as [->|Hqa].
      * now rewrite Hs4anc, Hclean.
      * unfold s4, s3, s2. rewrite !upd_other by assumption. now apply Hfr1.
Qed.

(** One loop over the clauses, on a basis state in which the scratch ancilla
    is 0: clause number [j] has its [block_value] xored into [aux[k0 + j]],
    and nothing else changes. *)
Lemma pass_gates_run f_in aux num_clauses clauses : forall k0 s,
  NoDup f_in -> 3 <= length f_in -> NoDup aux ->
  (forall q, In q aux -> ~ In q f_in) ->
  k0 + length clauses <= num_clauses -> num_clauses < length aux ->
  Forall (fun clause => forallb (names_input f_in) clause = true) clauses ->
  s (nth num_clauses aux no_qubit) = false ->
  exists s',
    run (pass_gates f_in aux num_clauses k0 clauses) s = Some s' /\
    (forall j, j < length clauses ->
       s' (nth (k0 + j) aux no_qubit)
       = xorb (s (nth (k0 + j) aux no_qubit))
              (block_value (nth j clauses []) (inputs f_in s))) /\
    (forall q, (forall j, j < length clauses -> q <> nth (k0 + j) aux no_qubit) ->
       s' q = s q).
Proof.
  induction clauses as [|c rest IH]; intros k0 s Hnd H3 Hnda Hdisj Hk Hnc Hall Hclean.
  - exists s. simpl. repeat split; auto. intros j Hj. lia.
  - inversion Hall as [|? ? Hc Hrest]; subst. cbn [length] in Hk.
    assert (Hneq : forall i j, i < length aux -> j < length aux -> i <> j ->
                               nth i aux no_qubit <> nth j aux no_qubit).
    { intros i j Hi Hj Hij E. apply Hij.
      now apply (proj1 (NoDup_nth aux no_qubit) Hnda). }
    destruct (clause_gates_run f_in aux num_clauses k0 c s) as (s1 & Hrun1 & Hk1 & Hfr1);
      auto.
    { apply Hdisj, nth_In. lia. }
    { apply Hdisj, nth_In. lia. }
    { apply Hneq; lia. }
    destruct (IH (S k0) s1) as (s' & Hrun & Hval & Hfr); auto; try lia.
    { rewrite Hfr1; [assumption|]. apply Hneq; lia. }
    cbn [pass_gates]. rewrite run_app, Hrun1, Hrun.
    exists s'. split; [reflexivity|]. split.
    + intros [|j] Hj.
      * rewrite Nat.add_0_r. rewrite Hfr.
        -- exact Hk1.
        -- intros j' Hj'. apply Hneq; simpl in *; lia.
      * cbn [length] in Hj.
        replace (k0 + S j) with (S k0 + j) by lia.
        rewrite Hval by lia. cbn [nth].
        rewrite Hfr1 by (apply Hneq; lia).
        f_equal. apply block_value_ext. apply inputs_ext.
        intros q Hq. apply Hfr1. intros ->.
        apply (Hdisj (nth k0 aux no_qubit)); [apply nth_In; lia | assumption].
    + intros q Hq. rewrite Hfr.
      * apply Hfr1. specialize (Hq 0). rewrite Nat.add_0_r in Hq.
        apply Hq. simpl. lia.
      * intros j Hj. replace (S k0 + j) with (k0 + S j) by lia.
        apply Hq. simpl. lia.
Qed.

(** The conjunction of the clause ancillas, xored into [f_out[0]]. *)
Lemma combine_gates_run f_out aux num_clauses s :
  1 <= num_clauses <= 3 ->
  NoDup aux -> num_clauses < length aux ->
  ~ In (nth 0 f_out no_qubit) aux ->
  s (nth num_clauses aux no_qubit) = false ->
  exists s',
    run (combine_gates f_out aux num_clauses) s = Some s' /\
    s' (nth 0 f_out no_qubit)
    = xorb (s (nth 0 f_out no_qubit))
           (forallb (fun k => s (nth k aux no_qubit)) (seq 0 num_clauses)) /\
    (forall q, q <> nth 0 f_out no_qubit -> s' q = s q).
Proof.
  intros Hrange Hnda Hnc Hout Hclean.
  assert (Hneq : forall i j, i < length aux -> j < length aux -> i <> j ->
                             nth i aux no_qubit <> nth j aux no_qubit).
  { intros i j Hi Hj Hij E. apply Hij.
    now apply (proj1 (NoDup_nth aux no_qubit) Hnda). }
  assert (Ho : forall i, i < length aux -> nth i aux no_qubit <> nth 0 f_out no_qubit).
  { intros i Hi E. apply Hout. rewrite <- E. now apply nth_In. }
  unfold combine_gates.
  change (at_ f_out 0) with (at_ f_out (Z.of_nat 0)).
  change (at_ aux 0) with (at_ aux (Z.of_nat 0)).
  change (at_ aux 1) with (at_ aux (Z.of_nat 1)).
  change (at_ aux 2) with (at_ aux (Z.of_nat 2)).
  change (at_ aux 3) with (at_ aux (Z.of_nat 3)).
  rewrite ?at_of_nat.
  set (out := nth 0 f_out no_qubit) in *.
  destruct num_clauses as [|[|[|[|n]]]]; try lia; cbn [run gate_sem seq forallb].
  - eexists. split; [reflexivity|]. split.
    + rewrite upd_same. now rewrite andb_true_r.
    + intros q Hq. now apply upd_other.
  - eexists. split; [reflexivity|]. split.
    + rewrite upd_same. now rewrite andb_true_r.
    + intros q Hq. now apply upd_other.
  - set (a0 := nth 0 aux no_qubit) in *. set (a1 := nth 1 aux no_qubit) in *.
    set (a2 := nth 2 aux no_qubit) in *. set (a3 := nth 3 aux no_qubit) in *.
    assert (N03 : a0 <> a3) by (apply Hneq; lia).
    assert (N13 : a1 <> a3) by (apply Hneq; lia).
    assert (N23 : a2 <> a3) by (apply Hneq; lia).
    assert (N0o : a0 <> out) by (apply Ho; lia).
    assert (N1o : a1 <> out) by (apply Ho; lia).
    assert (N3o : a3 <> out) by (apply Ho; lia).
    eexists. split; [reflexivity|]. split.
    + upd_simpl. rewrite Hclean, andb_true_r.
      destruct (s a0), (s a1), (s a2), (s out); reflexivity.
    + intros q Hq. destruct (qubit_eq_dec q a3) as [->|Hq3].
      * upd_simpl. rewrite Hclean. now destruct (s a0 && s a1).
      * now upd_simpl.
Qed.

Lemma NoDup_app_disjoint {A} (l1 l2 : list A) :
  NoDup (l1 ++ l2) -> forall a, In a l1 -> ~ In a l2.
Proof.
  induction l1 as [|x l1 IH]; intros Hnd a Hin1 Hin2; [contradiction|].
  simpl in Hnd. apply NoDup_cons_iff in Hnd. destruct Hnd as [Hx Hnd].
  destruct Hin1 as [->|Hin1].
  - apply Hx. apply in_or_app. now right.
  - now apply (IH Hnd a).
Qed.

(** What distinct registers give. *)
Lemma distinct_registers f_in f_out aux :
  NoDup (f_in ++ f_out ++ aux) -> 1 <= length f_out ->
  NoDup f_in /\ NoDup aux /\
  (forall q, In q aux -> ~ In q f_in) /\
  ~ In (nth 0 f_out no_qubit) aux /\
  ~ In (nth 0 f_out no_qubit) f_in.
Proof.
  intros Hnd Ho.
  assert (Hout : In (nth 0 f_out no_qubit) f_out) by (apply nth_In; lia).
  pose proof (NoDup_app_disjoint _ _ Hnd) as Hd1.
  pose proof (NoDup_app_remove_l _ _ Hnd) as Hnd2.
  pose proof (NoDup_app_disjoint _ _ Hnd2) as Hd2.
  repeat split.
  - now apply NoDup_app_remove_r in Hnd.
  - now apply NoDup_app_remove_l in Hnd2.
  - intros q Hq Hq'. apply (Hd1 q Hq'). apply in_or_app. now right.
  - now apply Hd2.
  - intros Hq. apply (Hd1 _ Hq). apply in_or_app. now left.
Qed.

(** Every qubit is one of [aux[k0] .. aux[k0 + n - 1]] or none of them. *)
Lemma among_or_not (aux : list qubit) (q : qubit) (k0 n : nat) :
  (exists j, j < n /\ q = nth (k0 + j) aux no_qubit) \/
  (forall j, j < n -> q <> nth (k0 + j) aux no_qubit).
Proof.
  induction n as [|n IH].
  - right. intros j Hj. lia.
  - destruct IH as [(j & Hj & E)|Hnone].
    + left. exists j. split; [lia | assumption].
    + destruct (qubit_eq_dec q (nth (k0 + n) aux no_qubit)) as [E|Hne].
      * left. exists n. split; [lia | assumption].
      * right. intros j Hj. destruct (Nat.eq_dec j n) as [->|Hjn]; [assumption|].
        apply Hnone. lia.
Qed.

Lemma forallb_nth_seq {A} (f : A -> bool) (l : list A) (d : A) :
  forallb (fun k => f (nth k l d)) (seq 0 (length l)) = forallb f l.
Proof.
  induction l as [|x l IH]; [reflexivity|].
  cbn [length seq forallb nth]. f_equal.
  rewrite <- seq_shift, <- IH.
  clear IH. generalize (seq 0 (length l)) as ks.
  induction ks as [|k ks IHks]; [reflexivity|]. simpl. now rewrite IHks.
Qed.

(** The whole circuit of [apply_oracle], on a basis state with clean
    ancillas: [f_out[0]] is flipped exactly when every clause has
    [block_value] 1, and every other qubit ends as it started. *)
Lemma oracle_gates_run f_in f_out aux expression s :
  NoDup (f_in ++ f_out ++ aux) ->
  3 <= length f_in -> 1 <= length f_out ->
  length expression < length aux ->
  1 <= length expression <= 3 ->
  Forall (fun clause => forallb (names_input f_in) clause = true) expression ->
  (forall q, In q aux -> s q = false) ->
  exists s',
    run (oracle_gates f_in f_out aux expression) s = Some s' /\
    s' (nth 0 f_out no_qubit)
    = xorb (s (nth 0 f_out no_qubit))
           (forallb (fun clause => block_value clause (inputs f_in s)) expression) /\
    (forall q, q <> nth 0 f_out no_qubit -> s' q = s q).
Proof.
  intros Hnd H3 Ho Hnc Hrange Hall Hclean.
  destruct (distinct_registers f_in f_out aux Hnd Ho)
    as (Hndf & Hnda & Hdisj & Houta & Houtf).
  set (out := nth 0 f_out no_qubit) in *.
  remember (length expression) as nc eqn:Enc.
  assert (Hanc : In (nth nc aux no_qubit) aux) by (apply nth_In; lia).
  (* first loop *)
  destruct (pass_gates_run f_in aux nc expression 0 s) as (s1 & Hrun1 & Hval1 & Hfr1);
    auto; try lia.
  assert (Hs1anc : s1 (nth nc aux no_qubit) = false).
  { rewrite Hfr1; [now apply Hclean|].
    intros j Hj. apply not_eq_sym. intros E.
    apply (proj1 (NoDup_nth aux no_qubit) Hnda) in E; simpl in *; lia. }
  (* the conjunction *)
  destruct (combine_gates_run f_out aux nc s1) as (s2 & Hrun2 & Hout2 & Hfr2); auto.
  fold out in Hout2, Hfr2.
  assert (Hs2anc : s2 (nth nc aux no_qubit) = false).
  { rewrite Hfr2; [assumption|]. intros E. apply Houta. fold out. now rewrite <- E. }
  (* second loop *)
  destruct (pass_gates_run f_in aux nc expression 0 s2) as (s3 & Hrun3 & Hval3 & Hfr3);
    auto; try lia.
  unfold oracle_gates. rewrite <- Enc.
  rewrite run_app, Hrun1, run_app, Hrun2. cbn [app run gate_sem]. rewrite Hrun3.
  exists s3. split; [reflexivity|].
  assert (Hin1 : forall j, inputs f_in s1 j = inputs f_in s j).
  { apply inputs_ext. intros q Hq. apply Hfr1. intros j Hj ->.
    apply (Hdisj (nth (0 + j) aux no_qubit)); [apply nth_In; simpl; lia|assumption]. }
  assert (Hin2 : forall j, inputs f_in s2 j = inputs f_in s j).
  { intros j. rewrite <- Hin1. apply inputs_ext. intros q Hq. apply Hfr2.
    intros ->. contradiction. }
  assert (Hs1k : forall j, j < nc ->
            s1 (nth j aux no_qubit) = block_value (nth j expression []) (inputs f_in s)).
  { intros j Hj. change (nth j aux no_qubit) with (nth (0 + j) aux no_qubit).
    rewrite (Hval1 j) by lia. cbn [Nat.add].
    rewrite Hclean by (apply nth_In; lia). apply xorb_false_l. }
  subst nc. split.
  - rewrite Hfr3.
    + rewrite Hout2. rewrite Hfr1.
      * f_equal. rewrite <- (forallb_nth_seq _ expression []).
        clear - Hs1k. set (nc := length expression) in *.
        assert (H : forall k, In k (seq 0 nc) -> k < nc)
          by (intros k Hk; apply in_seq in Hk; lia).
        induction (seq 0 nc) as [|k ks IH]; [reflexivity|].
        cbn [forallb]. rewrite Hs1k by (apply H; now left).
        f_equal. apply IH. intros k' Hk'. apply H. now right.
      * intros j Hj E. apply Houta. fold out. rewrite E. apply nth_In. simpl. lia.
    + intros j Hj E. apply Houta. fold out. rewrite E. apply nth_In. simpl. lia.
  - intros q Hq.
    destruct (among_or_not aux q 0 (length expression)) as [(j & Hj & ->)|Hnone].
    + rewrite (Hval3 j) by lia. cbn [Nat.add] in *.
      rewrite (block_value_ext _ _ _ Hin2).
      rewrite Hfr2 by assumption. rewrite Hs1k by assumption.
      rewrite xorb_nilpotent. symmetry. apply Hclean, nth_In. lia.
    + rewrite Hfr3 by assumption. rewrite Hfr2 by assumption. now apply Hfr1.
Qed.

(** ** The loop body against the transformed clause of the notebook *)

Lemma literal_ok_cases l :
  literal_ok l = true ->
  l = 1%Z \/ l = 2%Z \/ l = 3%Z \/ l = (-1)%Z \/ l = (-2)%Z \/ l = (-3)%Z.
Proof.
  unfold literal_ok. intros H. apply andb_true_iff in H. destruct H as [H1 H2].
  apply Z.leb_le in H1. apply Z.leb_le in H2. lia.
Qed.

Lemma clause_ok_cases clause :
  clause_ok clause = true ->
  exists l1 l2 l3,
    clause = [l1; l2; l3] /\
    literal_ok l1 = true /\ literal_ok l2 = true /\ literal_ok l3 = true.
Proof.
  unfold clause_ok. intros H. apply andb_true_iff in H. destruct H as [Hlen Hall].
  destruct clause as [|l1 [|l2 [|l3 [|? ?]]]]; try discriminate.
  cbn [forallb] in Hall. rewrite andb_true_r in Hall.
  apply andb_true_iff in Hall. destruct Hall as [H1 Hall].
  apply andb_true_iff in Hall. destruct Hall as [H2 H3].
  now exists l1, l2, l3.
Qed.

Ltac each_literal H :=
  destruct (literal_ok_cases _ H) as [ -> | [ -> | [ -> | [ -> | [ -> | -> ] ] ] ] ].

(** On a clause that names each of the three variables once, the loop body
    computes the transformed clause. *)
Lemma block_value_textbook clause x :
  names_each_variable_once clause = true ->
  block_value clause x = transformed_clause x clause.
Proof.
  intros Hfull.
  assert (Hok : clause_ok clause = true).
  { unfold names_each_variable_once in Hfull. now apply andb_true_iff in Hfull. }
  destruct (clause_ok_cases clause Hok) as (l1 & l2 & l3 & -> & H1 & H2 & H3).
  each_literal H1; each_literal H2; each_literal H3;
    try discriminate Hfull;
    cbv; destruct (x 0), (x 1), (x 2); reflexivity.
Qed.


Lemma literal_ok_names_input f_in l :
  3 <= length f_in -> literal_ok l = true -> names_input f_in l = true.
Proof.
  unfold literal_ok, names_input. intros H3 H.
  apply andb_true_iff in H. destruct H as [H1 H2].
  apply Z.leb_le in H1. apply Z.leb_le in H2.
  apply andb_true_iff. split; apply Z.leb_le; lia.
Qed.

Lemma clause_ok_names_input f_in clause :
  3 <= length f_in -> clause_ok clause = true ->
  forallb (names_input f_in) clause = true.
Proof.
  intros H3 Hok. unfold clause_ok in Hok. apply andb_true_iff in Hok.
  destruct Hok as [_ Hall]. rewrite forallb_forall in *.
  intros l Hl. apply literal_ok_names_input; auto.
Qed.

Lemma names_input_in_range f_in clause :
  forallb (names_input f_in) clause = true ->
  forallb (literal_in_range f_in) clause = true.
Proof.
  rewrite !forallb_forall. intros H l Hl.
  now destruct (names_input_spec f_in l (H l Hl)) as (_ & _ & _ & Hr).
Qed.

(** C1 as stated fails on a clause that repeats a variable: for the
    expression [[1, 1, 2]] and the input [x0 = 1, x1 = 1, x2 = 0], the
    transformed expression is false ([1 xor 1 xor 1 xor (1 and 1 and 1)]),
    yet [apply_oracle] flips [f_out[0]] from 0 to 1. *)
Lemma apply_oracle_flips_on_false_expression :
  let f_in := QuantumRegister 3 "x" in
  let f_out := QuantumRegister 1 "out" in
  let aux := QuantumRegister 2 "aux" in
  let st := PyState [] [("x"%string, 3); ("out"%string, 1); ("aux"%string, 2)]
                    (fun _ => []) 0 [] in
  let expression := [[1; 1; 2]]%Z in
  let s : bstate := fun q => qubit_eqb q (Qubit "x" 0) || qubit_eqb q (Qubit "x" 1) in
  let r := apply_oracle f_in f_out aux 3 expression st in
  Forall (fun clause => clause_ok clause = true) expression /\
  forallb (fun q => negb (s q)) (f_out ++ aux) = true /\
  transformed_expression (inputs f_in s) expression = false /\
  fst r = Ok tt /\
  option_map (fun s' => s' (at_ f_out 0)) (run (gates (snd r)) s) = Some true.
Proof.
  cbv zeta. split; [repeat constructor|].
  repeat split; vm_compute; reflexivity.
Qed.

(** C1 (as amended): on distinct registers with at least three input
    qubits, for every basis state in which the ancillas are 0 and every
    expression of one to three clauses of three literals over [x0], [x1],
    [x2], [apply_oracle] returns normally and the gates it appended leave
    every qubit other than [f_out[0]] (the inputs and the ancillas among
    them) with its initial value; when, moreover, every clause names each of
    [x0], [x1], [x2] exactly once, they flip [f_out[0]] exactly when the
    transformed expression is true on the inputs. *)
Theorem apply_oracle_flips_f_out_iff_transformed f_in f_out aux n expression st s :
  NoDup (f_in ++ f_out ++ aux) ->
  3 <= length f_in -> 1 <= length f_out ->
  length expression < length aux ->
  1 <= length expression <= 3 ->
  Forall (fun clause => clause_ok clause = true) expression ->
  (forall q, In q aux -> s q = false) ->
  exists st' gs s',
    apply_oracle f_in f_out aux n expression st = (Ok tt, st') /\
    gates st' = gates st ++ gs /\
    run gs s = Some s' /\
    (forall q, q <> at_ f_out 0 -> s' q = s q) /\
    (Forall (fun clause => names_each_variable_once clause = true) expression ->
     s' (at_ f_out 0)
     = xorb (s (at_ f_out 0)) (transformed_expression (inputs f_in s) expression)).
Proof.
  intros Hnd H3 Ho Hnc Hrange Hok Hclean.
  assert (Hnames : Forall (fun clause => forallb (names_input f_in) clause = true)
                          expression).
  { eapply Forall_impl; [|exact Hok]. intros c Hc. now apply clause_ok_names_input. }
  assert (Hfit : registers_fit f_in f_out aux expression).
  { repeat split; auto; try lia.
    eapply Forall_impl; [|exact Hnames]. intros c Hc. now apply names_input_in_range. }
  destruct (oracle_gates_run f_in f_out aux expression s Hnd H3 Ho Hnc Hrange
                             Hnames Hclean) as (s' & Hrun & Hout & Hframe).
  exists (add_gates st (oracle_gates f_in f_out aux expression)),
         (oracle_gates f_in f_out aux expression), s'.
  change (at_ f_out 0) with (nth 0 f_out no_qubit).
  split; [now apply apply_oracle_emits|].
  split; [reflexivity|]. split; [assumption|]. split; [assumption|].
  intros Hfull. rewrite Hout. f_equal. unfold transformed_expression.
  clear - Hfull. induction Hfull as [|c cs Hc _ IH]; [reflexivity|].
  cbn [forallb]. rewrite IH. f_equal. now apply block_value_textbook.
Qed.

Lemma apply_oracle_flips_f_out_iff_transformed_witness :
  let f_in := QuantumRegister 3 "x" in
  let f_out := QuantumRegister 1 "out" in
  let aux := QuantumRegister 4 "aux" in
  let st := PyState [] [("x"%string, 3); ("out"%string, 1); ("aux"%string, 4)]
                    (fun _ => []) 0 [] in
  let expression := [[1; 2; -3]; [-1; -2; -3]; [-1; 2; 3]]%Z in
  let s : bstate := fun q => qubit_eqb q (Qubit "x" 0) || qubit_eqb q (Qubit "x" 2) in
  exists st' gs s',
    apply_oracle f_in f_out aux 3 expression st = (Ok tt, st') /\
    gates st' = gates st ++ gs /\
    run gs s = Some s' /\
    (forall q, q <> at_ f_out 0 -> s' q = s q) /\
    (Forall (fun clause => names_each_variable_once clause = true) expression ->
     s' (at_ f_out 0)
     = xorb (s (at_ f_out 0)) (transformed_expression (inputs f_in s) expression)).
Proof.
  intros f_in f_out aux st expression s.
  apply (apply_oracle_flips_f_out_iff_transformed f_in f_out aux 3 expression st s).
  - simpl. repeat constructor; simpl; intuition discriminate.
  - simpl. lia.
  - simpl. lia.
  - simpl. lia.
  - simpl. lia.
  - repeat constructor.
  - simpl. intros q [<-|[<-|[<-|[<-|[]]]]]; reflexivity.
Defined.


(** ** The conjunction term of a clause *)













(** ** The Schroedinger notebook *)

Section SchroedingerFacts.

Import Schroedinger DerivedSchroedinger.
Local Open Scope R_scope.

Lemma nth_map_in {A B} (f : A -> B) (l : list A) (i : nat) (d : B) (d' : A) :
  (i < length l)%nat -> nth i (map f l) d = f (nth i l d').
Proof.
  intros Hi. rewrite (nth_indep (map f l) d (f d')) by now rewrite length_map.
  apply map_nth.
Qed.

Lemma nth_map_seq {B} (f : nat -> B) (n i : nat) (d : B) :
  (i < n)%nat -> nth i (map f (seq 0 n)) d = f i.
Proof.
  intros Hi. rewrite (nth_map_in f (seq 0 n) i d 0%nat) by now rewrite length_seq.
  now rewrite seq_nth.
Qed.

Lemma eye_square n k : square n (eye n k).
Proof.
  unfold square, eye. split.
  - now rewrite length_map, length_seq.
  - intros i Hi. rewrite nth_map_seq by assumption.
    now rewrite length_map, length_seq.
Qed.

Lemma entry_eye n k i j :
  (i < n)%nat -> (j < n)%nat ->
  entry (eye n k) i j = if (Z.of_nat j =? Z.of_nat i + k)%Z then 1 else 0.
Proof.
  intros Hi Hj. unfold entry, eye.
  rewrite nth_map_seq by assumption. now rewrite nth_map_seq by assumption.
Qed.

Lemma scale_square n c A : square n A -> square n (scale c A).
Proof.
  intros [Hl Hr]. unfold square, scale. split.
  - now rewrite length_map.
  - intros i Hi. rewrite (nth_map_in _ A i [] []) by lia.
    rewrite length_map. now apply Hr.
Qed.

Lemma entry_scale n c A i j :
  square n A -> (i < n)%nat -> (j < n)%nat ->
  entry (scale c A) i j = c * entry A i j.
Proof.
  intros [Hl Hr] Hi Hj. unfold entry, scale.
  rewrite (nth_map_in _ A i [] []) by lia.
  apply nth_map_in. rewrite Hr; assumption.
Qed.

Lemma broadcast_mul_square n v A :
  length v = n -> square n A -> square n (broadcast_mul v A).
Proof.
  intros Hv [Hl Hr]. unfold square, broadcast_mul. split.
  - now rewrite length_map.
  - intros i Hi. rewrite (nth_map_in _ A i [] []) by lia.
    rewrite length_map, length_combine, Hv, Hr by assumption. apply Nat.min_id.
Qed.

Lemma entry_broadcast_mul n v A i j :
  length v = n -> square n A -> (i < n)%nat -> (j < n)%nat ->
  entry (broadcast_mul v A) i j = nth j v 0 * entry A i j.
Proof.
  intros Hv [Hl Hr] Hi Hj. unfold entry, broadcast_mul.
  rewrite (nth_map_in _ A i [] []) by lia.
  rewrite (nth_map_in _ _ j 0 (0, 0)).
  - rewrite combine_nth by (rewrite Hv, Hr; auto). reflexivity.
  - rewrite length_combine, Hv, Hr by assumption. rewrite Nat.min_id. assumption.
Qed.

Lemma madd_square n A B : square n A -> square n B -> square n (madd A B).
Proof.
  intros [Hl Hr] [Hl' Hr']. unfold square, madd. split.
  - rewrite length_map, length_combine, Hl, Hl'. apply Nat.min_id.
  - intros i Hi.
    rewrite (nth_map_in _ _ i [] ([], [])).
    + rewrite combine_nth by congruence. cbn [fst snd].
      rewrite length_map, length_combine, Hr, Hr' by assumption. apply Nat.min_id.
    + rewrite length_combine, Hl, Hl', Nat.min_id. assumption.
Qed.

Lemma entry_madd n A B i j :
  square n A -> square n B -> (i < n)%nat -> (j < n)%nat ->
  entry (madd A B) i j = entry A i j + entry B i j.
Proof.
  intros [Hl Hr] [Hl' Hr'] Hi Hj. unfold entry, madd.
  rewrite (nth_map_in _ _ i [] ([], [])).
  - rewrite combine_nth by congruence. cbn [fst snd].
    rewrite (nth_map_in _ _ j 0 (0, 0)).
    + rewrite combine_nth by (rewrite Hr, Hr'; auto). reflexivity.
    + rewrite length_combine, Hr, Hr' by assumption. rewrite Nat.min_id. assumption.
  - rewrite length_combine, Hl, Hl', Nat.min_id. assumption.
Qed.

Lemma X_length N L : length (X N L) = N.
Proof. unfold X, linspace. now rewrite !length_map, length_seq. Qed.

Lemma eps_length N L eta m q : length (eps N L eta m q) = N.
Proof. unfold eps, V_array. now rewrite !length_map, X_length. Qed.

Lemma eps_nth N L eta m q i :
  (i < N)%nat ->
  nth i (eps N L eta m q) 0 = -2 * t N L eta m + q * V (nth i (X N L) 0).
Proof.
  intros Hi. unfold eps, V_array.
  rewrite (nth_map_in _ _ i 0 0) by now rewrite length_map, X_length.
  now rewrite (nth_map_in V _ i 0 0) by now rewrite X_length.
Qed.

Lemma H_square N L eta m q : square N (H N L eta m q).
Proof.
  unfold H. repeat apply madd_square.
  - apply scale_square, eye_square.
  - apply broadcast_mul_square; [apply eps_length | apply eye_square].
  - apply scale_square, eye_square.
Qed.

Lemma H_entry N L eta m q i j :
  (i < N)%nat -> (j < N)%nat ->
  entry (H N L eta m q) i j
  = t N L eta m * (if (Z.of_nat j =? Z.of_nat i + -1)%Z then 1 else 0)
    + nth j (eps N L eta m q) 0 * (if (Z.of_nat j =? Z.of_nat i + 0)%Z then 1 else 0)
    + t N L eta m * (if (Z.of_nat j =? Z.of_nat i + 1)%Z then 1 else 0).
Proof.
  intros Hi Hj. unfold H.
  pose proof (eps_length N L eta m q) as He.
  assert (S1 : square N (scale (t N L eta m) (eye N (-1))))
    by apply scale_square, eye_square.
  assert (S2 : square N (broadcast_mul (eps N L eta m q) (eye N 0)))
    by (apply broadcast_mul_square; [assumption | apply eye_square]).
  assert (S3 : square N (scale (t N L eta m) (eye N 1)))
    by apply scale_square, eye_square.
  rewrite (entry_madd N _ _ i j (madd_square N _ _ S1 S2) S3 Hi Hj).
  rewrite (entry_madd N _ _ i j S1 S2 Hi Hj).
  rewrite (entry_scale N _ _ i j (eye_square N (-1)) Hi Hj).
  rewrite (entry_scale N _ _ i j (eye_square N 1) Hi Hj).
  rewrite (entry_broadcast_mul N _ _ i j He (eye_square N 0) Hi Hj).
  now rewrite !entry_eye by assumption.
Qed.

(** C6: [H] has [N] rows of [N] entries; on the diagonal it holds
    [eps[i] = -2*t + q*V(X[i])], next to the diagonal it holds [t], and
    every entry further from the diagonal is 0. *)
Theorem H_is_tridiagonal N L eta m q i j :
  (i < N)%nat -> (j < N)%nat ->
  length (H N L eta m q) = N /\
  length (nth i (H N L eta m q) []) = N /\
  (i = j ->
   entry (H N L eta m q) i j = nth i (eps N L eta m q) 0 /\
   nth i (eps N L eta m q) 0 = -2 * t N L eta m + q * V (nth i (X N L) 0)) /\
  (j = S i \/ i = S j -> entry (H N L eta m q) i j = t N L eta m) /\
  ((S i < j)%nat \/ (S j < i)%nat -> entry (H N L eta m q) i j = 0).
Proof.
  intros Hi Hj. destruct (H_square N L eta m q) as [Hl Hr].
  split; [assumption|]. split; [now apply Hr|].
  rewrite H_entry by assumption.
  split; [|split].
  - intros <-. split; [|now apply eps_nth].
    replace (Z.of_nat i =? Z.of_nat i + -1)%Z with false by (symmetry; apply Z.eqb_neq; lia).
    replace (Z.of_nat i =? Z.of_nat i + 0)%Z with true by (symmetry; apply Z.eqb_eq; lia).
    replace (Z.of_nat i =? Z.of_nat i + 1)%Z with false by (symmetry; apply Z.eqb_neq; lia).
    ring.
  - intros [->| ->].
    + replace (Z.of_nat (S i) =? Z.of_nat i + -1)%Z with false by (symmetry; apply Z.eqb_neq; lia).
      replace (Z.of_nat (S i) =? Z.of_nat i + 0)%Z with false by (symmetry; apply Z.eqb_neq; lia).
      replace (Z.of_nat (S i) =? Z.of_nat i + 1)%Z with true by (symmetry; apply Z.eqb_eq; lia).
      ring.
    + replace (Z.of_nat j =? Z.of_nat (S j) + -1)%Z with true by (symmetry; apply Z.eqb_eq; lia).
      replace (Z.of_nat j =? Z.of_nat (S j) + 0)%Z with false by (symmetry; apply Z.eqb_neq; lia).
      replace (Z.of_nat j =? Z.of_nat (S j) + 1)%Z with false by (symmetry; apply Z.eqb_neq; lia).
      ring.
  - intros Hfar.
    replace (Z.of_nat j =? Z.of_nat i + -1)%Z with false by (symmetry; apply Z.eqb_neq; lia).
    replace (Z.of_nat j =? Z.of_nat i + 0)%Z with false by (symmetry; apply Z.eqb_neq; lia).
    replace (Z.of_nat j =? Z.of_nat i + 1)%Z with false by (symmetry; apply Z.eqb_neq; lia).
    ring.
Qed.

End SchroedingerFacts.

Lemma H_is_tridiagonal_witness :
  let N := 100%nat in
  let i := 3%nat in
  let j := 4%nat in
  length (Schroedinger.H N 100 1 1 1) = N /\
  length (nth i (Schroedinger.H N 100 1 1 1) []) = N /\
  (i = j ->
   Schroedinger.entry (Schroedinger.H N 100 1 1 1) i j
   = nth i (Schroedinger.eps N 100 1 1 1) 0%R /\
   nth i (Schroedinger.eps N 100 1 1 1) 0%R
   = (-2 * Schroedinger.t N 100 1 1
      + 1 * Schroedinger.V (nth i (Schroedinger.X N 100) 0))%R) /\
  (j = S i \/ i = S j ->
   Schroedinger.entry (Schroedinger.H N 100 1 1 1) i j = Schroedinger.t N 100 1 1) /\
  ((S i < j)%nat \/ (S j < i)%nat ->
   Schroedinger.entry (Schroedinger.H N 100 1 1 1) i j = 0%R).
Proof.
  intros N i j. apply (H_is_tridiagonal N 100 1 1 1 i j); unfold N, i, j; lia.
Defined.

Section EvolveFacts.

Import Schroedinger DerivedSchroedinger.
Local Open Scope R_scope.

Lemma drain_remaining k : forall g n rounds,
  g_num_step g = Some n ->
  (g_cnt g + k = n)%nat ->
  (k < rounds)%nat ->
  drain rounds g
  = (remaining (g_psi g) (g_E g) (g_eta g) (g_timestep g) k (g_t g), true).
Proof.
  induction k as [|k IH]; intros g n rounds Hn Hk Hr.
  - destruct rounds as [|rounds]; [lia|].
    cbn [drain]. unfold next_value. rewrite Hn.
    replace (g_cnt g <? n)%nat with false by (symmetry; apply Nat.ltb_ge; lia).
    now destruct (g_started g).
  - destruct rounds as [|rounds]; [lia|].
    cbn [drain]. unfold next_value. rewrite Hn.
    replace (g_cnt g <? n)%nat with true by (symmetry; apply Nat.ltb_lt; lia).
    destruct (g_started g);
      (erewrite IH; [reflexivity | cbn [g_num_step]; reflexivity | cbn [g_cnt]; lia | lia]).
Qed.

Lemma remaining_length psi E eta timestep k : forall t,
  length (remaining psi E eta timestep k t) = k.
Proof. induction k as [|k IH]; intros t; simpl; [reflexivity | now rewrite IH]. Qed.

Lemma remaining_nth psi E eta timestep k : forall t i d,
  (i < k)%nat ->
  nth i (remaining psi E eta timestep k t) d
  = (t + INR (S i) * timestep,
     map (Cmult (phase E eta (t + INR i * timestep))) psi).
Proof.
  induction k as [|k IH]; intros t i d Hi; [lia|].
  destruct i as [|i].
  - cbn [remaining nth].
    replace (t + INR 1 * timestep) with (t + timestep) by (simpl; ring).
    replace (t + INR 0 * timestep) with t by (simpl; ring).
    reflexivity.
  - cbn [remaining nth]. rewrite IH by lia.
    replace (t + timestep + INR (S i) * timestep) with (t + INR (S (S i)) * timestep)
      by (rewrite !S_INR; ring).
    replace (t + timestep + INR i * timestep) with (t + INR (S i) * timestep)
      by (rewrite !S_INR; ring).
    reflexivity.
Qed.

Lemma PI_lt_5_lt_2PI : PI < 5 /\ 5 < 2 * PI.
Proof.
  pose proof PI_4. pose proof PI2_3_2. split; lra.
Qed.

(** C5: the generator made by [evolve(psi, E)] with the defaults yields the
    time after the step together with the phase of the time before it.  At
    [eta = 1], [E = 1] and [psi = [1]], the first pair is [(5, [1])]: the
    time is 5 and the wavefunction is still [psi], the phase being that of
    time 0, while [exp(-i * E * 5 / eta) * psi] has the non-zero imaginary
    part [- sin 5]. *)
Theorem evolve_first_pair_has_the_phase_of_time_0 :
  let psi := [RtoC 1] in
  let g := evolve 1 psi 1 default_timestep default_num_step in
  exists wave g',
    next_value g = Yield 5 wave g' /\
    wave = map (Cmult (phase 1 1 0)) psi /\
    wave = psi /\
    wave <> map (Cmult (phase 1 1 5)) psi.
Proof.
  cbv zeta. unfold evolve, next_value, default_num_step, default_timestep.
  cbn [g_started g_num_step g_cnt Nat.ltb Nat.leb g_E g_eta g_t g_timestep g_psi].
  replace (0 + 5) with 5 by ring.
  eexists. eexists. split; [reflexivity|].
  assert (Hphase0 : phase 1 1 0 = (1, 0)).
  { unfold phase, Cexp, Cmult, Cdiv_real, Copp, Ci, RtoC. cbn [fst snd].
    replace ((- 0 * 1 - - (1) * 0) / 1 * 0 - (- 0 * 0 + - (1) * 1) / 1 * 0) with 0 by field.
    replace ((- 0 * 1 - - (1) * 0) / 1 * 0 + (- 0 * 0 + - (1) * 1) / 1 * 0) with 0 by field.
    rewrite exp_0, cos_0, sin_0. f_equal; ring. }
  split; [reflexivity|]. split.
  - cbn [map]. rewrite Hphase0. unfold Cmult, RtoC. cbn [fst snd].
    f_equal. f_equal; ring.
  - cbn [map]. intros Heq. rewrite Hphase0 in Heq.
    injection Heq as _ Him.
    unfold phase, Cexp, Cmult, Cdiv_real, Copp, Ci, RtoC in Him. cbn [fst snd] in Him.
    replace ((- 0 * 1 - - (1) * 0) / 1 * 5 - (- 0 * 0 + - (1) * 1) / 1 * 0) with 0 in Him by field.
    replace ((- 0 * 1 - - (1) * 0) / 1 * 0 + (- 0 * 0 + - (1) * 1) / 1 * 5) with (- 5) in Him by field.
    replace (sin (-5)) with (- sin 5) in Him by (rewrite <- sin_neg; f_equal; lra).
    rewrite exp_0 in Him.
    destruct PI_lt_5_lt_2PI as [H1 H2].
    pose proof (sin_lt_0 5 H1 H2) as Hsin.
    lra.
Qed.

End EvolveFacts.

(** * Further properties of the notebooks' code *)

(** ** The logic gates XOR, NOT, AND and the example circuit *)

Lemma flat_map_singleton {A B} (f : A -> B) (l : list A) :
  flat_map (fun x => [f x]) l = map f l.
Proof. induction l as [|x l IH]; simpl; [reflexivity | now rewrite IH]. Qed.

Lemma XOR_emits out inputs :
  emits (XOR out inputs) (map (fun i => GCX i out) inputs).
Proof.
  unfold XOR. rewrite <- flat_map_singleton.
  apply emits_for_each. intros i _. apply emits_gate.
Qed.

Lemma XOR_gates_run out inputs : forall s,
  ~ In out inputs ->
  exists s',
    run (map (fun i => GCX i out) inputs) s = Some s' /\
    s' out = xorb (s out) (fold_right xorb false (map s inputs)) /\
    (forall q, q <> out -> s' q = s q).
Proof.
  induction inputs as [|i rest IH]; intros s Hout.
  - exists s. simpl. repeat split; auto. now rewrite xorb_false_r.
  - assert (Hi : i <> out) by (intros ->; apply Hout; now left).
    assert (Hrest : ~ In out rest) by (intros H; apply Hout; now right).
    destruct (IH (upd s out (xorb (s out) (s i))) Hrest) as (s' & Hrun & Hval & Hfr).
    exists s'. cbn [map run gate_sem]. split; [assumption|]. split.
    + rewrite Hval, upd_same. cbn [map fold_right].
      rewrite xorb_assoc. f_equal. f_equal. f_equal.
      apply map_ext_in. intros q Hq. apply upd_other. intros ->. contradiction.
    + intros q Hq. rewrite Hfr by assumption. now apply upd_other.
Qed.

(** XOR on any number of inputs: it returns normally, and the [cx] gates it
    appends xor the parity of the inputs into [out] and leave every other
    qubit as it was.  An input may occur several times; [out] must not be
    among the inputs. *)
Theorem XOR_writes_the_parity_of_its_inputs out inputs st s :
  ~ In out inputs ->
  exists gs s',
    XOR out inputs st = (Ok tt, add_gates st gs) /\
    run gs s = Some s' /\
    s' out = xorb (s out) (fold_right xorb false (map s inputs)) /\
    (forall q, q <> out -> s' q = s q).
Proof.
  intros Hout.
  destruct (XOR_gates_run out inputs s Hout) as (s' & Hrun & Hval & Hfr).
  exists (map (fun i => GCX i out) inputs), s'.
  split; [apply XOR_emits|]. auto.
Qed.

Lemma XOR_writes_the_parity_of_its_inputs_witness :
  let out := Qubit "aux" 0 in
  let inputs := [Qubit "in" 0; Qubit "in" 1; Qubit "in" 2] in
  let st := PyState [] [("in"%string, 3); ("aux"%string, 1)] (fun _ => []) 0 [] in
  let s : bstate := fun q => qubit_eqb q (Qubit "in" 1) in
  exists gs s',
    XOR out inputs st = (Ok tt, add_gates st gs) /\
    run gs s = Some s' /\
    s' out = xorb (s out) (fold_right xorb false (map s inputs)) /\
    (forall q, q <> out -> s' q = s q).
Proof.
  intros out inputs st s.
  apply (XOR_writes_the_parity_of_its_inputs out inputs st s).
  simpl. intuition discriminate.
Defined.

Lemma emits_V_q_bind r i q (k : qubit -> M unit) gs :
  getitem r i = Ok q -> emits (k q) gs -> emits (x <- V_q r i ;; k x) gs.
Proof.
  intros Hq Hk st. unfold bind, V_q, lift. rewrite Hq. apply Hk.
Qed.

Ltac V_subscripts := repeat (eapply emits_V_q_bind; [reflexivity|]).

Lemma V_circuit_emits : emits V_circuit V_gates.
Proof.
  change V_gates with
    (map (fun i => GCX i (Qubit "aux" 0)) [Qubit "in" 0; Qubit "in" 1; Qubit "in" 2]
     ++ [GBarrier None] ++ [GX (Qubit "in" 2)] ++ [GBarrier None]
     ++ [GCCX (Qubit "aux" 0) (Qubit "in" 2) (Qubit "out" 0)]).
  unfold V_circuit.
  apply emits_bind; [V_subscripts; apply XOR_emits|].
  apply emits_bind; [apply emits_gate|].
  apply emits_bind; [V_subscripts; apply emits_gate|].
  apply emits_bind; [apply emits_gate|].
  V_subscripts. apply emits_gate.
Qed.

Lemma V_circuit_undone_emits : emits V_circuit_undone V_gates_undone.
Proof.
  change V_gates_undone with
    (map (fun i => GCX i (Qubit "aux" 0)) [Qubit "in" 0; Qubit "in" 1; Qubit "in" 2]
     ++ [GX (Qubit "in" 2)]
     ++ [GCCX (Qubit "aux" 0) (Qubit "in" 2) (Qubit "out" 0)]
     ++ [GBarrier None] ++ [GX (Qubit "in" 2)]
     ++ map (fun i => GCX i (Qubit "aux" 0)) [Qubit "in" 0; Qubit "in" 1; Qubit "in" 2]).
  unfold V_circuit_undone.
  apply emits_bind; [V_subscripts; apply XOR_emits|].
  apply emits_bind; [V_subscripts; apply emits_gate|].
  apply emits_bind; [V_subscripts; apply emits_gate|].
  apply emits_bind; [apply emits_gate|].
  apply emits_bind; [V_subscripts; apply emits_gate|].
  V_subscripts. apply XOR_emits.
Qed.

(** The example as first written (no undoing): on every basis state it
    xors [(aux xor x0 xor x1 xor x2) and not x2] into [out[0]], and it
    leaves the ancilla holding the parity and the input [in[2]] negated;
    every other qubit is unchanged. *)
Theorem V_circuit_leaves_ancilla_and_input_changed st s :
  let x0 := s (Qubit "in" 0) in
  let x1 := s (Qubit "in" 1) in
  let x2 := s (Qubit "in" 2) in
  let a := s (Qubit "aux" 0) in
  exists gs s',
    V_circuit st = (Ok tt, add_gates st gs) /\
    run gs s = Some s' /\
    s' (Qubit "out" 0)
    = xorb (s (Qubit "out" 0)) (xorb a (xorb x0 (xorb x1 x2)) && negb x2) /\
    s' (Qubit "aux" 0) = xorb a (xorb x0 (xorb x1 x2)) /\
    s' (Qubit "in" 2) = negb x2 /\
    (forall q, q <> Qubit "out" 0 -> q <> Qubit "aux" 0 -> q <> Qubit "in" 2 ->
               s' q = s q).
Proof.
  cbv zeta. exists V_gates. eexists.
  split; [apply V_circuit_emits|]. split; [reflexivity|].
  split; [|split; [|split]].
  - unfold upd. cbn.
    destruct (s (Qubit "in" 0)), (s (Qubit "in" 1)), (s (Qubit "in" 2)),
      (s (Qubit "aux" 0)), (s (Qubit "out" 0)); reflexivity.
  - unfold upd. cbn.
    destruct (s (Qubit "in" 0)), (s (Qubit "in" 1)), (s (Qubit "in" 2)),
      (s (Qubit "aux" 0)); reflexivity.
  - unfold upd. cbn. reflexivity.
  - intros q H1 H2 H3. unfold upd.
    repeat match goal with
           | |- context [qubit_eq_dec ?a ?b] =>
               destruct (qubit_eq_dec a b); try congruence
           end.
Qed.

(** The example with its operations undone: on every basis state it xors
    [(aux xor x0 xor x1 xor x2) and not x2] into [out[0]] (with a clean
    ancilla, the value of [V]) and leaves every other qubit, the ancilla and
    the inputs among them, as it was. *)
Theorem V_circuit_undone_restores_ancilla_and_inputs st s :
  let x0 := s (Qubit "in" 0) in
  let x1 := s (Qubit "in" 1) in
  let x2 := s (Qubit "in" 2) in
  let a := s (Qubit "aux" 0) in
  exists gs s',
    V_circuit_undone st = (Ok tt, add_gates st gs) /\
    run gs s = Some s' /\
    s' (Qubit "out" 0)
    = xorb (s (Qubit "out" 0)) (xorb a (xorb x0 (xorb x1 x2)) && negb x2) /\
    (forall q, q <> Qubit "out" 0 -> s' q = s q).
Proof.
  cbv zeta. exists V_gates_undone. eexists.
  split; [apply V_circuit_undone_emits|]. split; [reflexivity|].
  split.
  - unfold upd. cbn.
    destruct (s (Qubit "in" 0)), (s (Qubit "in" 1)), (s (Qubit "in" 2)),
      (s (Qubit "aux" 0)), (s (Qubit "out" 0)); reflexivity.
  - intros q Hq.
    destruct (qubit_eq_dec q (Qubit "aux" 0)) as [->|Ha].
    { unfold upd. cbn.
      destruct (s (Qubit "in" 0)), (s (Qubit "in" 1)), (s (Qubit "in" 2)),
        (s (Qubit "aux" 0)); reflexivity. }
    destruct (qubit_eq_dec q (Qubit "in" 2)) as [->|Hi].
    { unfold upd. cbn. now destruct (s (Qubit "in" 2)). }
    unfold upd.
    repeat match goal with
           | |- context [qubit_eq_dec ?a ?b] =>
               destruct (qubit_eq_dec a b); try congruence
           end.
Qed.

(** ** CnX: edge cases, cost, and register ancillas *)

(** Without controls, [CnX] fails its assertion and changes nothing. *)
Theorem CnX_no_controls_fails_assertion ctrls target clean_aux st :
  length (contents st ctrls) = 0 ->
  CnX ctrls target clean_aux st = (Raise (AssertionError no_controls), st).
Proof.
  intros Hlen. unfold CnX. rewrite Hlen. cbn [CnX_rec].
  unfold bind, seq_len. rewrite Hlen. reflexivity.
Qed.

Lemma CnX_no_controls_fails_assertion_witness :
  let st := PyState [] [("t"%string, 1)] (fun _ => []) 1 [] in
  length (contents st (PList 0)) = 0 /\
  CnX (PList 0) (TQubit (Qubit "t" 0)) None st
  = (Raise (AssertionError no_controls), st).
Proof.
  split; [reflexivity | now apply CnX_no_controls_fails_assertion].
Defined.

(** More than two controls that are not in a list (a register, a tuple):
    whatever [clean_aux] is, the call never returns normally, appends no
    gate and changes no list of the caller.  With [clean_aux = None] it
    raises [TypeError] and changes nothing.  With [len(ctrls) - 2] ancillas
    it raises [AttributeError] at the first [pop], nothing printed and no
    register added.  With any other number of ancillas it prints its
    warning first; then, if the circuit has no register [aux], it adds that
    register and raises [AttributeError] at the first [pop], and otherwise
    it raises the library's [CircuitError]. *)
Theorem CnX_needs_a_list_of_controls qs target clean_aux st :
  3 <= length qs ->
  exists e st',
    CnX (PTuple qs) target clean_aux st = (Raise e, st') /\
    gates st' = gates st /\
    (forall l, l < next st -> heap st' l = heap st l) /\
    match clean_aux with
    | None => e = TypeError /\ st' = st
    | Some a =>
        if length (contents st a) =? length qs - 2 then
          e = AttributeError /\ qregs st' = qregs st /\ stdout st' = stdout st
        else
          stdout st' = stdout st ++
            [Printed (length (contents st a)) (length qs - 2)] /\
          if aux_name_free st then
            e = AttributeError /\
            qregs st' = qregs st ++ [(aux_name, length qs - 2)]
          else
            e = CircuitError /\ qregs st' = qregs st
    end.
Proof.
  intros H3. unfold CnX. cbn [contents].
  destruct (length qs) as [|[|[|n]]] eqn:E; try lia.
  replace (S (S (S n)) - 2) with (S n) by lia.
  cbn [CnX_rec]. unfold bind, seq_len, ret. cbn [contents].
  repeat (progress (rewrite ?E; cbn [Nat.ltb Nat.leb Nat.eqb Nat.sub negb])).
  destruct clean_aux as [a|].
  - destruct (length (contents st a) =? S n) eqn:Ea; cbn [negb].
    + destruct a as [la|qa].
      * exists AttributeError, st. cbn [list_pop raise]. repeat split; reflexivity.
      * eexists _, _. cbn [list_new list_pop raise].
        split; [reflexivity|]. cbn [gates heap qregs stdout next].
        split; [reflexivity|]. split; [|repeat split; reflexivity].
        intros l Hl. replace (l =? next st) with false; [reflexivity|].
        symmetry. apply Nat.eqb_neq. lia.
    + unfold py_len, seq_len, print, add_register, aux_name_free.
      cbn [qregs heap gates next stdout].
      repeat (progress (rewrite ?E; cbn [Nat.sub qregs heap gates next stdout])).
      destruct (existsb (fun r => (fst r =? aux_name)%string) (qregs st)); cbn [negb].
      * eexists _, _. split; [reflexivity|]. cbn [gates heap qregs stdout next].
        repeat split; reflexivity.
      * eexists _, _. cbn [list_new list_pop raise].
        split; [reflexivity|]. cbn [gates heap qregs stdout next].
        split; [reflexivity|]. split; [|repeat split; reflexivity].
        intros l Hl. replace (l =? next st) with false; [reflexivity|].
        symmetry. apply Nat.eqb_neq. lia.
  - exists TypeError, st. cbn [py_len raise]. repeat split; reflexivity.
Qed.

Lemma CnX_needs_a_list_of_controls_witness :
  let st := PyState [] [("c"%string, 3); ("t"%string, 1)] (fun _ => []) 0 [] in
  let qs := QuantumRegister 3 "c" in
  let clean_aux := Some (PTuple [Qubit "spare" 0; Qubit "spare" 1]) in
  exists e st',
    CnX (PTuple qs) (TQubit (Qubit "t" 0)) clean_aux st = (Raise e, st') /\
    gates st' = gates st /\
    (forall l, l < next st -> heap st' l = heap st l) /\
    match clean_aux with
    | None => e = TypeError /\ st' = st
    | Some a =>
        if length (contents st a) =? length qs - 2 then
          e = AttributeError /\ qregs st' = qregs st /\ stdout st' = stdout st
        else
          stdout st' = stdout st ++
            [Printed (length (contents st a)) (length qs - 2)] /\
          if aux_name_free st then
            e = AttributeError /\
            qregs st' = qregs st ++ [(aux_name, length qs - 2)]
          else
            e = CircuitError /\ qregs st' = qregs st
    end.
Proof.
  intros st qs clean_aux.
  apply (CnX_needs_a_list_of_controls qs (TQubit (Qubit "t" 0)) clean_aux st).
  simpl. lia.
Defined.

(** With at least three controls, a sequence of the wrong length and a
    register named [aux] already in the circuit, the call stops at
    [add_register], after the warning. *)
Lemma CnX_rec_fallback_state depth lc a target st :
  3 <= length (heap st lc) ->
  length (contents st a) <> length (heap st lc) - 2 ->
  aux_name_free st = false ->
  CnX_rec (S depth) (PList lc) target (Some a) st
  = (Raise CircuitError,
     PyState (gates st) (qregs st) (heap st) (next st)
             (stdout st ++ [Printed (length (contents st a))
                                    (length (heap st lc) - 2)])).
Proof.
  intros H3 Hwrong Htaken.
  destruct (length (heap st lc)) as [|[|[|n]]] eqn:E; try lia.
  replace (S (S (S n)) - 2) with (S n) in * by lia.
  apply Nat.eqb_neq in Hwrong.
  unfold aux_name_free in Htaken. apply negb_false_iff in Htaken.
  cbn [CnX_rec]. unfold bind, seq_len, ret. cbn [contents].
  repeat (progress (rewrite ?E, ?Hwrong;
                    cbn [Nat.ltb Nat.leb Nat.eqb Nat.sub negb])).
  unfold py_len, seq_len, print, add_register.
  cbn [qregs heap gates next stdout].
  repeat (progress (rewrite ?E, ?Hwrong, ?Htaken;
                    cbn [Nat.ltb Nat.leb Nat.eqb Nat.sub negb qregs heap gates next stdout])).
  reflexivity.
Qed.

(** The fallback adds a register named [aux]: on a circuit that already has
    a register of that name, a call with more than two controls and a
    sequence of the wrong length prints its warning and then fails with the
    library's [CircuitError], without appending a gate or touching a list. *)
Theorem CnX_fallback_fails_when_aux_is_taken st lc a target :
  3 <= length (heap st lc) ->
  length (contents st a) <> length (heap st lc) - 2 ->
  aux_name_free st = false ->
  CnX (PList lc) target (Some a) st
  = (Raise CircuitError,
     PyState (gates st) (qregs st) (heap st) (next st)
             (stdout st ++ [Printed (length (contents st a))
                                    (length (heap st lc) - 2)])).
Proof.
  intros H3 Hwrong Htaken. unfold CnX. cbn [contents].
  now apply CnX_rec_fallback_state.
Qed.

Lemma CnX_fallback_fails_when_aux_is_taken_witness :
  let st := PyState [] [("x"%string, 4); ("out"%string, 1); ("aux"%string, 2)]
                    (fun l => match l with 0 => QuantumRegister 3 "x" | _ => [] end)
                    1 [] in
  let a := PTuple (QuantumRegister 2 "aux") in
  CnX (PList 0) (TQubit (Qubit "x" 3)) (Some a) st
  = (Raise CircuitError,
     PyState (gates st) (qregs st) (heap st) (next st)
             (stdout st ++ [Printed (length (contents st a))
                                    (length (heap st 0) - 2)])).
Proof.
  intros st a. apply (CnX_fallback_fails_when_aux_is_taken st 0 a).
  - simpl. lia.
  - simpl. lia.
  - reflexivity.
Defined.

Lemma ladder_all_ccx ras : forall rcs t,
  length rcs = length ras + 2 ->
  forallb (fun g => match g with GCCX _ _ _ => true | _ => false end)
          (ladder rcs ras (TQubit t)) = true.
Proof.
  induction ras as [|y ras IH]; intros rcs t Hlen.
  - destruct rcs as [|c1 [|c0 [|? ?]]]; try (simpl in Hlen; lia). reflexivity.
  - destruct rcs as [|a [|b rcs]]; try (simpl in Hlen; lia).
    cbn [ladder forallb]. rewrite forallb_app, (IH (y :: rcs)) by (simpl in *; lia).
    reflexivity.
Qed.

(** The cost of the decomposition: with [n >= 3] controls in a list, the
    right number of ancillas in another list and a qubit as target (all of
    them distinct, as the library requires of the operands of a gate),
    [CnX] appends exactly [2 * n - 3] gates, all of them [ccx]. *)
Theorem CnX_appends_2n_minus_3_ccx st lc la t :
  3 <= length (heap st lc) ->
  length (heap st la) = length (heap st lc) - 2 ->
  NoDup (heap st lc ++ heap st la ++ [t]) ->
  exists st' gs,
    CnX (PList lc) (TQubit t) (Some (PList la)) st = (Ok tt, st') /\
    gates st' = gates st ++ gs /\
    length gs = 2 * length (heap st lc) - 3 /\
    forallb (fun g => match g with GCCX _ _ _ => true | _ => false end) gs = true.
Proof.
  intros H3 Hla _.
  destruct (CnX_runs_ladder st lc la (TQubit t) H3 Hla) as (st' & Hrun & Hg & _).
  exists st', (ladder (rev (heap st lc)) (rev (heap st la)) (TQubit t)).
  assert (Hlen : length (rev (heap st lc)) = length (rev (heap st la)) + 2)
    by (rewrite !length_rev; lia).
  repeat split; try assumption.
  - rewrite ladder_length by assumption. unfold CnX_levels.
    rewrite length_rev. lia.
  - now apply ladder_all_ccx.
Qed.

Lemma CnX_appends_2n_minus_3_ccx_witness :
  let st := PyState [] [("c"%string, 4); ("a"%string, 2); ("t"%string, 1)]
                    (fun l => match l with
                              | 0 => QuantumRegister 4 "c"
                              | 1 => QuantumRegister 2 "a"
                              | _ => []
                              end) 2 [] in
  exists st' gs,
    CnX (PList 0) (TQubit (Qubit "t" 0)) (Some (PList 1)) st = (Ok tt, st') /\
    gates st' = gates st ++ gs /\
    length gs = 2 * length (heap st 0) - 3 /\
    forallb (fun g => match g with GCCX _ _ _ => true | _ => false end) gs = true.
Proof.
  intros st. apply (CnX_appends_2n_minus_3_ccx st 0 1 (Qubit "t" 0)).
  - simpl. lia.
  - reflexivity.
  - simpl. repeat constructor; simpl; intuition discriminate.
Defined.

(** Ancillas given as a register (as [invert_about_avg] passes them): with
    [n >= 3] distinct controls in a list of the store and a register of
    [n - 2] further qubits that are 0 in [s], [CnX] copies the register into
    a new list, returns normally, and the gates it appends flip the target
    exactly when all the controls are 1 and leave every other qubit as it
    was. *)
Theorem CnX_with_a_register_of_ancillas st lc qs t s :
  3 <= length (heap st lc) ->
  length qs = length (heap st lc) - 2 ->
  lc < next st ->
  NoDup (heap st lc ++ qs ++ [t]) ->
  (forall q, In q qs -> s q = false) ->
  exists st' gs s',
    CnX (PList lc) (TQubit t) (Some (PTuple qs)) st = (Ok tt, st') /\
    gates st' = gates st ++ gs /\
    next st' = S (next st) /\
    run gs s = Some s' /\
    s' t = xorb (s t) (forallb s (heap st lc)) /\
    (forall q, q <> t -> s' q = s q).
Proof.
  intros H3 Hlen Hlt Hnd Hclean.
  unfold CnX. cbn [contents].
  rewrite CnX_rec_enters_level_tuple by assumption.
  assert (Hne : lc <> next st) by lia.
  assert (Hc0 : heap (alloc st qs) lc = heap st lc).
  { unfold alloc. cbn [heap]. apply Nat.eqb_neq in Hne. now rewrite Hne. }
  assert (Ha0 : heap (alloc st qs) (next st) = qs).
  { unfold alloc. cbn [heap]. now rewrite Nat.eqb_refl. }
  destruct (CnX_level_runs_ladder (length (heap st lc)) (alloc st qs) lc (next st)
              (TQubit t)) as (st' & Hrun & Hg & _ & Hn & _); try assumption.
  - now rewrite Hc0.
  - now rewrite Hc0, Ha0.
  - rewrite Hc0. lia.
  - rewrite Hc0, Ha0 in Hg.
    destruct (ladder_sem (rev qs) (rev (heap st lc)) t s) as (s' & Hs' & Ht & Hframe).
    + rewrite !length_rev. lia.
    + apply (Permutation_NoDup (l := heap st lc ++ qs ++ [t])); [|assumption].
      apply Permutation_app; [apply Permutation_rev|].
      apply Permutation_app; [apply Permutation_rev|apply Permutation_refl].
    + intros q Hq. apply Hclean. now apply in_rev.
    + exists st', (ladder (rev (heap st lc)) (rev qs) (TQubit t)), s'.
      repeat split; try assumption.
      now rewrite Ht, forallb_rev.
Qed.

Lemma CnX_with_a_register_of_ancillas_witness :
  let st := PyState [] [("c"%string, 3); ("a"%string, 1); ("t"%string, 1)]
                    (fun l => match l with 0 => QuantumRegister 3 "c" | _ => [] end)
                    1 [] in
  let qs := QuantumRegister 1 "a" in
  let t := Qubit "t" 0 in
  let s : bstate := fun q => match q with Qubit r _ => String.eqb r "c" end in
  exists st' gs s',
    CnX (PList 0) (TQubit t) (Some (PTuple qs)) st = (Ok tt, st') /\
    gates st' = gates st ++ gs /\
    next st' = S (next st) /\
    run gs s = Some s' /\
    s' t = xorb (s t) (forallb s (heap st 0)) /\
    (forall q, q <> t -> s' q = s q).
Proof.
  intros st qs t s.
  apply (CnX_with_a_register_of_ancillas st 0 qs t s).
  - simpl. lia.
  - reflexivity.
  - simpl. lia.
  - simpl. repeat constructor; simpl; intuition discriminate.
  - simpl. intros q [<-|[]]. reflexivity.
Defined.

(** ** CnZ and invert_about_avg *)

Lemma CnX_None_TypeError ctrls target st :
  2 < length (contents st ctrls) ->
  CnX ctrls target None st = (Raise TypeError, st).
Proof.
  intros Hlen. unfold CnX. cbn [CnX_rec]. unfold bind, seq_len.
  destruct (length (contents st ctrls)) as [|[|[|n]]] eqn:E; try lia.
  cbn. unfold ret. rewrite E. reflexivity.
Qed.

(** An error inside [CnZ] leaves its first Hadamard behind: with more than
    two controls and no ancillas, [CnZ] raises the [TypeError] of [CnX]
    after it has appended [h] on the target, and the circuit keeps that
    gate. *)
Theorem CnZ_error_leaves_a_hadamard ctrls t st :
  2 < length (contents st ctrls) ->
  CnZ ctrls (TQubit t) None st = (Raise TypeError, add_gates st [GH t]).
Proof.
  intros Hlen. unfold CnZ. cbn [circ_h_on]. unfold circ_h.
  rewrite (bind_ok (append_gate_add (GH t) st)).
  apply bind_raise. apply CnX_None_TypeError.
  destruct ctrls; exact Hlen.
Qed.

Lemma CnZ_error_leaves_a_hadamard_witness :
  let st := PyState [] [("c"%string, 3); ("t"%string, 1)]
                    (fun l => match l with 0 => QuantumRegister 3 "c" | _ => [] end) 1 [] in
  2 < length (contents st (PList 0)) /\
  CnZ (PList 0) (TQubit (Qubit "t" 0)) None st
  = (Raise TypeError, add_gates st [GH (Qubit "t" 0)]).
Proof.
  split; [simpl; lia | apply CnZ_error_leaves_a_hadamard; simpl; lia].
Defined.

Lemma emits_each_gate (mk : qubit -> gate) (qs : list qubit) :
  emits (for_each qs (fun q => append_gate (mk q))) (map mk qs).
Proof.
  rewrite <- flat_map_singleton. apply emits_for_each.
  intros q _. apply emits_gate.
Qed.

Lemma getitem_last {A} (l : list A) (x : A) : getitem (l ++ [x]) (-1) = Ok x.
Proof.
  unfold getitem. rewrite length_app. cbn [length].
  replace (-1 <? 0)%Z with true by reflexivity.
  replace (Z.of_nat (length l + 1) + -1)%Z with (Z.of_nat (length l)) by lia.
  replace (0 <=? Z.of_nat (length l))%Z with true by (symmetry; apply Z.leb_le; lia).
  replace (Z.of_nat (length l) <? Z.of_nat (length l + 1))%Z with true
    by (symmetry; apply Z.ltb_lt; lia).
  cbn [andb]. rewrite Nat2Z.id, nth_error_app2 by lia.
  now rewrite Nat.sub_diag.
Qed.

(** On a register of three (distinct) qubits, as in the notebook,
    [invert_about_avg] never looks at [aux]: whatever is passed (ancillas of
    any number, or nothing), it returns normally, having appended h and x on
    every qubit, a barrier, [h; ccx; h] on the last qubit controlled by the
    first two, a barrier, and x and h on every qubit; the registers of the
    circuit and the output are as before. *)
Theorem invert_about_avg_on_three_qubits q0 q1 q2 aux st :
  NoDup [q0; q1; q2] ->
  exists st',
    invert_about_avg [q0; q1; q2] aux st = (Ok tt, st') /\
    gates st' = gates st ++
      [GH q0; GH q1; GH q2; GX q0; GX q1; GX q2; GBarrier (Some [q0; q1; q2]);
       GH q2; GCCX q0 q1 q2; GH q2;
       GBarrier (Some [q0; q1; q2]); GX q0; GX q1; GX q2; GH q0; GH q1; GH q2] /\
    qregs st' = qregs st /\
    stdout st' = stdout st.
Proof.
  intros _.
  unfold invert_about_avg, circ_barrier, circ_h, circ_x.
  rewrite (bind_ok (emits_each_gate GH [q0; q1; q2] st)).
  rewrite (bind_ok (emits_each_gate GX [q0; q1; q2] _)).
  rewrite (bind_ok (append_gate_add _ _)).
  rewrite !add_gates_app. cbn [map app].
  set (st1 := add_gates st _).
  (* the slice, the last qubit, and CnZ on two controls *)
  set (st2 := alloc st1 [q0; q1]).
  assert (Hh : heap st2 (next st1) = [q0; q1]).
  { unfold st2, alloc. cbn [heap]. now rewrite Nat.eqb_refl. }
  destruct (CnX_rec_two 2 (next st1) (TQubit q2) aux (add_gates st2 [GH q2]) q0 q1 Hh)
    as (st3 & Hrun & Hg3 & Hq3 & Hn3 & Hs3 & Hh3).
  assert (Hmid :
    (ctrls <- list_new (removelast [q0; q1; q2]) ;;
     target <- lift (getitem [q0; q1; q2] (-1)) ;;
     CnZ ctrls (TQubit target) aux) st1
    = (Ok tt, add_gates st3 [GH q2])).
  { unfold bind at 1. cbn [removelast list_new]. fold (alloc st1 [q0; q1]). fold st2.
    unfold bind at 1. unfold lift.
    change [q0; q1; q2] with ([q0; q1] ++ [q2]).
    rewrite (getitem_last [q0; q1] q2).
    unfold CnZ. cbn [circ_h_on]. unfold circ_h.
    rewrite (bind_ok (append_gate_add (GH q2) st2)).
    assert (Hcnx : CnX (PList (next st1)) (TQubit q2) aux (add_gates st2 [GH q2])
                   = (Ok tt, st3)).
    { unfold CnX. cbn [contents add_gates heap]. rewrite Hh. exact Hrun. }
    rewrite (bind_ok Hcnx). apply append_gate_add. }
  rewrite (bind_ok Hmid).
  rewrite (bind_ok (append_gate_add _ _)).
  rewrite (bind_ok (emits_each_gate GX [q0; q1; q2] _)).
  rewrite (emits_each_gate GH [q0; q1; q2] _).
  rewrite !add_gates_app. cbn [map app].
  eexists. split; [reflexivity|].
  cbn [add_gates gates qregs stdout]. rewrite Hg3, Hq3, Hs3.
  cbn [add_gates gates qregs stdout st2 alloc target_gates].
  unfold st1. cbn [add_gates gates qregs stdout].
  rewrite <- !app_assoc. cbn [app]. repeat split; reflexivity.
Qed.

Lemma invert_about_avg_on_three_qubits_witness :
  let q0 := Qubit "x" 0 in
  let q1 := Qubit "x" 1 in
  let q2 := Qubit "x" 2 in
  let st := PyState [] [("x"%string, 3); ("out"%string, 1); ("aux"%string, 2)]
                    (fun _ => []) 0 [] in
  exists st',
    invert_about_avg [q0; q1; q2] (Some (PTuple (QuantumRegister 2 "aux"))) st
    = (Ok tt, st') /\
    gates st' = gates st ++
      [GH q0; GH q1; GH q2; GX q0; GX q1; GX q2; GBarrier (Some [q0; q1; q2]);
       GH q2; GCCX q0 q1 q2; GH q2;
       GBarrier (Some [q0; q1; q2]); GX q0; GX q1; GX q2; GH q0; GH q1; GH q2] /\
    qregs st' = qregs st /\
    stdout st' = stdout st.
Proof.
  intros q0 q1 q2 st.
  apply (invert_about_avg_on_three_qubits q0 q1 q2
           (Some (PTuple (QuantumRegister 2 "aux"))) st).
  repeat constructor; simpl; intuition discriminate.
Defined.

(** On a register of one qubit there is no control left: [invert_about_avg]
    fails the assertion of [CnX], after it has appended h, x, the barrier
    and the first h of [CnZ]; the circuit keeps these four gates. *)
Theorem invert_about_avg_on_one_qubit q aux st :
  exists st',
    invert_about_avg [q] aux st = (Raise (AssertionError no_controls), st') /\
    gates st' = gates st ++ [GH q; GX q; GBarrier (Some [q]); GH q].
Proof.
  unfold invert_about_avg, circ_barrier, circ_h, circ_x.
  rewrite (bind_ok (emits_each_gate GH [q] st)).
  rewrite (bind_ok (emits_each_gate GX [q] _)).
  rewrite (bind_ok (append_gate_add _ _)).
  rewrite !add_gates_app. cbn [map app].
  set (st1 := add_gates st _).
  eexists. split.
  - apply bind_raise.
    unfold bind at 1. cbn [removelast list_new].
    unfold bind at 1. unfold lift.
    change [q] with ([] ++ [q]).
    rewrite (getitem_last [] q).
    unfold CnZ. cbn [circ_h_on]. unfold circ_h.
    rewrite (bind_ok (append_gate_add (GH q) _)).
    apply bind_raise.
    unfold CnX. cbn [contents add_gates heap].
    rewrite Nat.eqb_refl. cbn [length CnX_rec].
    unfold bind, seq_len. cbn [contents add_gates heap].
    rewrite Nat.eqb_refl. reflexivity.
  - cbn [add_gates gates]. unfold st1. cbn [add_gates gates].
    now rewrite <- app_assoc.
Qed.

(** ** CnX: the bound on nested calls *)

(** One or two controls held by value. *)
Lemma CnX_rec_small_tuple depth qs target clean_aux st :
  1 <= length qs <= 2 ->
  fst (CnX_rec (S depth) (PTuple qs) target clean_aux st) = Ok tt.
Proof.
  intros Hlen. destruct qs as [|c0 [|c1 [|? ?]]]; try (simpl in Hlen; lia);
    cbn [CnX_rec]; unfold bind, seq_len, try_except, seq_getitem, lift, target_getitem;
    destruct target as [q|[|q qs]];
    repeat (progress (cbn; rewrite ?getitem_0, ?getitem_1, ?getitem_nil));
    reflexivity.
Qed.

(** More than two controls held by value, and some sequence of ancillas. *)
Lemma CnX_rec_tuple_controls depth qs target a st :
  3 <= length qs ->
  fst (CnX_rec (S depth) (PTuple qs) target (Some a) st) = Raise AttributeError \/
  fst (CnX_rec (S depth) (PTuple qs) target (Some a) st) = Raise CircuitError.
Proof.
  intros H3.
  destruct (length qs) as [|[|[|n]]] eqn:E; try lia.
  cbn [CnX_rec]. unfold bind, seq_len, ret. cbn [contents].
  repeat (progress (rewrite ?E; cbn [Nat.ltb Nat.leb Nat.eqb Nat.sub negb])).
  destruct (length (contents st a) =? S n) eqn:Ea; cbn [negb].
  - destruct a as [la|qa]; cbn [list_new fst]; [now left|].
    cbn [list_pop raise fst]. now left.
  - unfold py_len, seq_len, print, add_register. cbn [qregs heap gates next stdout].
    repeat (progress (rewrite ?E; cbn [Nat.sub qregs heap gates next stdout])).
    destruct (existsb (fun r => (fst r =? aux_name)%string) (qregs st));
      cbn [fst]; [now right | now left].
Qed.

Lemma CnX_rec_fallback_taken depth lc a target st :
  3 <= length (heap st lc) ->
  length (contents st a) <> length (heap st lc) - 2 ->
  aux_name_free st = false ->
  fst (CnX_rec (S depth) (PList lc) target (Some a) st) = Raise CircuitError.
Proof.
  intros H3 Hwrong Htaken. now rewrite CnX_rec_fallback_state.
Qed.

(** The bound on nested calls that [CnX] starts [CnX_rec] with is never
    reached: the embedding never reports [RecursionError].  (The limit that
    the interpreter itself puts on the depth of recursion is outside this
    embedding.) *)
Lemma CnX_depth_bound_is_not_reached ctrls target clean_aux st :
  (forall lc, ctrls = PList lc -> lc < next st) ->
  fst (CnX ctrls target clean_aux st) <> Raise RecursionError.
Proof.
  intros Hstore. cbv zeta.
  assert (Hcases :
    fst (CnX ctrls target clean_aux st) = Ok tt \/
    fst (CnX ctrls target clean_aux st) = Raise (AssertionError no_controls) \/
    fst (CnX ctrls target clean_aux st) = Raise TypeError \/
    fst (CnX ctrls target clean_aux st) = Raise AttributeError \/
    fst (CnX ctrls target clean_aux st) = Raise CircuitError).
  { destruct (le_lt_dec 3 (length (contents st ctrls))) as [H3|Hsmall].
    - (* more than two controls *)
      destruct clean_aux as [a|].
      2: { right. right. left. now rewrite CnX_None_TypeError by lia. }
      destruct ctrls as [lc|qs]; cbn [contents] in H3.
      2: { unfold CnX. cbn [contents].
           destruct (CnX_rec_tuple_controls (length qs) qs target a st H3) as [H|H];
             rewrite H; auto. }
      specialize (Hstore lc eq_refl).
      destruct (Nat.eq_dec (length (contents st a)) (length (heap st lc) - 2))
        as [Hright|Hwrong].
      + left. destruct a as [la|qa]; cbn [contents] in Hright.
        * destruct (CnX_runs_ladder st lc la target H3 Hright) as (st' & Hrun & _).
          now rewrite Hrun.
        * unfold CnX. cbn [contents].
          rewrite CnX_rec_enters_level_tuple by assumption.
          destruct (CnX_level_runs_ladder (length (heap st lc)) (alloc st qa) lc
                      (next st) target) as (st' & Hrun & _).
          -- lia.
          -- unfold alloc. cbn [heap].
             replace (lc =? next st) with false by (symmetry; apply Nat.eqb_neq; lia).
             assumption.
          -- unfold alloc. cbn [heap]. rewrite Nat.eqb_refl.
             replace (lc =? next st) with false by (symmetry; apply Nat.eqb_neq; lia).
             assumption.
          -- unfold alloc. cbn [heap].
             replace (lc =? next st) with false by (symmetry; apply Nat.eqb_neq; lia).
             lia.
          -- now rewrite Hrun.
      + destruct (aux_name_free st) eqn:Hfree.
        * left. unfold CnX. cbn [contents].
          rewrite CnX_rec_enters_level_wrong by assumption.
          match goal with
          | |- fst (CnX_level _ _ _ _ ?s) = _ => set (st0 := s)
          end.
          destruct (CnX_level_runs_ladder (length (heap st lc)) st0 lc (next st) target)
            as (st' & Hrun & _).
          -- lia.
          -- unfold st0, alloc, warned. cbn [heap next].
             replace (lc =? next st) with false by (symmetry; apply Nat.eqb_neq; lia).
             assumption.
          -- unfold st0, alloc, warned. cbn [heap next]. rewrite Nat.eqb_refl.
             replace (lc =? next st) with false by (symmetry; apply Nat.eqb_neq; lia).
             apply QuantumRegister_length.
          -- unfold st0, alloc, warned. cbn [heap next].
             replace (lc =? next st) with false by (symmetry; apply Nat.eqb_neq; lia).
             lia.
          -- now rewrite Hrun.
        * right. right. right. right. unfold CnX. cbn [contents].
          now apply CnX_rec_fallback_taken.
    - (* at most two controls *)
      destruct (length (contents st ctrls)) as [|n] eqn:E.
      + right. left. unfold CnX. rewrite E. cbn [CnX_rec].
        unfold bind, seq_len. rewrite E. reflexivity.
      + left. unfold CnX. rewrite E.
        destruct ctrls as [lc|qs]; cbn [contents] in E.
        * destruct (heap st lc) as [|c0 [|c1 [|? ?]]] eqn:Eh;
            try (simpl in E; simpl in Hsmall; lia).
          -- destruct (CnX_rec_one (S n) lc target clean_aux st c0 Eh) as (st' & Hrun & _).
             now rewrite Hrun.
          -- destruct (CnX_rec_two (S n) lc target clean_aux st c0 c1 Eh)
               as (st' & Hrun & _).
             now rewrite Hrun.
        * apply CnX_rec_small_tuple. lia. }
  destruct Hcases as [H|[H|[H|[H|H]]]]; rewrite H; discriminate.
Qed.

(** ** apply_oracle: what it computes in general, and how it fails *)

(** What [apply_oracle] computes, for clauses of any length over any number
    [n >= 3] of input qubits (literals that are not 0 and name a qubit of
    [f_in]): on distinct registers and clean ancillas, [f_out[0]] is
    flipped exactly when every clause has [block_value] 1, that is, the xor
    of its literals as the loop reads them, xored with the conjunction of
    the first three input qubits as the clause's negations leave them; all
    other qubits are restored. *)
Theorem apply_oracle_computes_block_values f_in f_out aux n expression st s :
  NoDup (f_in ++ f_out ++ aux) ->
  3 <= length f_in -> 1 <= length f_out ->
  length expression < length aux ->
  1 <= length expression <= 3 ->
  Forall (fun clause => forallb (names_input f_in) clause = true) expression ->
  (forall q, In q aux -> s q = false) ->
  exists gs s',
    apply_oracle f_in f_out aux n expression st = (Ok tt, add_gates st gs) /\
    run gs s = Some s' /\
    s' (at_ f_out 0)
    = xorb (s (at_ f_out 0))
           (forallb (fun clause => block_value clause (inputs f_in s)) expression) /\
    (forall q, q <> at_ f_out 0 -> s' q = s q).
Proof.
  intros Hnd H3 Ho Hnc Hrange Hnames Hclean.
  assert (Hfit : registers_fit f_in f_out aux expression).
  { repeat split; auto; try lia.
    eapply Forall_impl; [|exact Hnames]. intros c Hc. now apply names_input_in_range. }
  destruct (oracle_gates_run f_in f_out aux expression s Hnd H3 Ho Hnc Hrange
                             Hnames Hclean) as (s' & Hrun & Hout & Hframe).
  exists (oracle_gates f_in f_out aux expression), s'.
  change (at_ f_out 0) with (nth 0 f_out no_qubit).
  split; [now apply apply_oracle_emits|]. auto.
Qed.

Lemma apply_oracle_computes_block_values_witness :
  let f_in := QuantumRegister 4 "x" in
  let f_out := QuantumRegister 1 "out" in
  let aux := QuantumRegister 3 "aux" in
  let st := PyState [] [("x"%string, 4); ("out"%string, 1); ("aux"%string, 3)]
                    (fun _ => []) 0 [] in
  let expression := [[1; -4]; [2; 3; 4; -1]]%Z in
  let s : bstate := fun q => qubit_eqb q (Qubit "x" 0) || qubit_eqb q (Qubit "x" 3) in
  exists gs s',
    apply_oracle f_in f_out aux 4 expression st = (Ok tt, add_gates st gs) /\
    run gs s = Some s' /\
    s' (at_ f_out 0)
    = xorb (s (at_ f_out 0))
           (forallb (fun clause => block_value clause (inputs f_in s)) expression) /\
    (forall q, q <> at_ f_out 0 -> s' q = s q).
Proof.
  intros f_in f_out aux st expression s.
  apply (apply_oracle_computes_block_values f_in f_out aux 4 expression st s).
  - simpl. repeat constructor; simpl; intuition discriminate.
  - simpl. lia.
  - simpl. lia.
  - simpl. lia.
  - simpl. lia.
  - repeat constructor.
  - simpl. intros q [<-|[<-|[<-|[]]]]; reflexivity.
Defined.

(** The oracle is its own inverse: under the same conditions, calling
    [apply_oracle] twice returns normally and the gates of the two calls
    together map every basis state with clean ancillas to itself. *)
Theorem apply_oracle_twice_is_the_identity f_in f_out aux n expression st s :
  NoDup (f_in ++ f_out ++ aux) ->
  3 <= length f_in -> 1 <= length f_out ->
  length expression < length aux ->
  1 <= length expression <= 3 ->
  Forall (fun clause => forallb (names_input f_in) clause = true) expression ->
  (forall q, In q aux -> s q = false) ->
  exists gs s',
    (apply_oracle f_in f_out aux n expression ;;;
     apply_oracle f_in f_out aux n expression) st = (Ok tt, add_gates st gs) /\
    run gs s = Some s' /\
    (forall q, s' q = s q).
Proof.
  intros Hnd H3 Ho Hnc Hrange Hnames Hclean.
  assert (Hfit : registers_fit f_in f_out aux expression).
  { repeat split; auto; try lia.
    eapply Forall_impl; [|exact Hnames]. intros c Hc. now apply names_input_in_range. }
  destruct (distinct_registers f_in f_out aux Hnd Ho) as (_ & _ & _ & Houta & Houtf).
  destruct (oracle_gates_run f_in f_out aux expression s Hnd H3 Ho Hnc Hrange
                             Hnames Hclean) as (s1 & Hrun1 & Hout1 & Hframe1).
  assert (Hclean1 : forall q, In q aux -> s1 q = false).
  { intros q Hq. rewrite Hframe1; [now apply Hclean|]. intros ->. contradiction. }
  destruct (oracle_gates_run f_in f_out aux expression s1 Hnd H3 Ho Hnc Hrange
                             Hnames Hclean1) as (s2 & Hrun2 & Hout2 & Hframe2).
  exists (oracle_gates f_in f_out aux expression ++ oracle_gates f_in f_out aux expression),
         s2.
  split; [|split].
  - apply emits_bind; now apply apply_oracle_emits.
  - now rewrite run_app, Hrun1.
  - intros q. destruct (qubit_eq_dec q (nth 0 f_out no_qubit)) as [->|Hq].
    + rewrite Hout2, Hout1.
      assert (Hin : forall j, inputs f_in s1 j = inputs f_in s j).
      { apply inputs_ext. intros q Hq. apply Hframe1. intros ->. contradiction. }
      assert (Hsame : forallb (fun clause => block_value clause (inputs f_in s1)) expression
                      = forallb (fun clause => block_value clause (inputs f_in s)) expression).
      { clear - Hin. induction expression as [|c cs IH]; [reflexivity|].
        cbn [forallb]. now rewrite IH, (block_value_ext c _ _ Hin). }
      rewrite Hsame, xorb_assoc, xorb_nilpotent. apply xorb_false_r.
    + rewrite Hframe2, Hframe1 by assumption. reflexivity.
Qed.

Lemma apply_oracle_twice_is_the_identity_witness :
  let f_in := QuantumRegister 3 "x" in
  let f_out := QuantumRegister 1 "out" in
  let aux := QuantumRegister 3 "aux" in
  let st := PyState [] [("x"%string, 3); ("out"%string, 1); ("aux"%string, 3)]
                    (fun _ => []) 0 [] in
  let expression := [[1; 2; -3]; [-1; 2; 3]]%Z in
  let s : bstate := fun q => qubit_eqb q (Qubit "x" 0) || qubit_eqb q (Qubit "out" 0) in
  exists gs s',
    (apply_oracle f_in f_out aux 3 expression ;;;
     apply_oracle f_in f_out aux 3 expression) st = (Ok tt, add_gates st gs) /\
    run gs s = Some s' /\
    (forall q, s' q = s q).
Proof.
  intros f_in f_out aux st expression s.
  apply (apply_oracle_twice_is_the_identity f_in f_out aux 3 expression st s).
  - simpl. repeat constructor; simpl; intuition discriminate.
  - simpl. lia.
  - simpl. lia.
  - simpl. lia.
  - simpl. lia.
  - repeat constructor.
  - simpl. intros q [<-|[<-|[<-|[]]]]; reflexivity.
Defined.

Lemma clause_gates_length f_in aux num_clauses k clause :
  6 <= length (clause_gates f_in aux num_clauses k clause).
Proof.
  unfold clause_gates, conjunction_gates. rewrite !length_app. simpl. lia.
Qed.

Lemma pass_gates_length f_in aux num_clauses clauses : forall k0,
  6 * length clauses <= length (pass_gates f_in aux num_clauses k0 clauses).
Proof.
  induction clauses as [|c cs IH]; intros k0; cbn [pass_gates length]; [lia|].
  rewrite length_app. pose proof (clause_gates_length f_in aux num_clauses k0 c).
  specialize (IH (S k0)). lia.
Qed.

(** The ValueError comes late: with more than three clauses (on distinct
    registers that fit), [apply_oracle] raises only after its first loop has
    run, and the circuit keeps the gates of that loop, at least six for
    every clause. *)
Theorem apply_oracle_raises_after_its_first_loop f_in f_out aux n expression st :
  NoDup (f_in ++ f_out ++ aux) ->
  registers_fit f_in f_out aux expression ->
  3 < length expression ->
  exists gs,
    apply_oracle f_in f_out aux n expression st
    = (Raise (ValueError too_many_clauses), add_gates st gs) /\
    6 * length expression <= length gs.
Proof.
  intros _ Hfit Hmany.
  exists (pass_gates f_in aux (length expression) 0 expression). split.
  - apply apply_oracle_raises; auto.
  - apply pass_gates_length.
Qed.

Lemma apply_oracle_raises_after_its_first_loop_witness :
  let f_in := QuantumRegister 3 "x" in
  let f_out := QuantumRegister 1 "out" in
  let aux := QuantumRegister 5 "aux" in
  let st := PyState [] [("x"%string, 3); ("out"%string, 1); ("aux"%string, 5)]
                    (fun _ => []) 0 [] in
  let expression := [[1; 2; -3]; [-1; -2; -3]; [-1; 2; 3]; [1; -2; 3]]%Z in
  exists gs,
    apply_oracle f_in f_out aux 3 expression st
    = (Raise (ValueError too_many_clauses), add_gates st gs) /\
    6 * length expression <= length gs.
Proof.
  intros f_in f_out aux st expression.
  apply (apply_oracle_raises_after_its_first_loop f_in f_out aux 3 expression st).
  - simpl. repeat constructor; simpl; intuition discriminate.
  - unfold registers_fit. simpl. repeat split; try lia. repeat constructor.
  - simpl. lia.
Defined.

(** ** apply_oracle: subscripts out of range *)

Lemma getitem_cases (r : list qubit) (i : Z) :
  (valid_index (length r) i = true /\ getitem r i = Ok (at_ r i)) \/
  (valid_index (length r) i = false /\ getitem r i = Raise IndexError).
Proof.
  destruct (valid_index (length r) i) eqn:Ev.
  - left. split; [reflexivity | now apply getitem_valid].
  - right. split; [reflexivity|].
    unfold valid_index in Ev. unfold getitem.
    set (n := Z.of_nat (length r)) in *.
    destruct (i <? 0)%Z eqn:Ei.
    + apply Z.ltb_lt in Ei.
      replace (0 <=? n + i)%Z with false; [reflexivity|].
      symmetry. apply Z.leb_gt.
      apply andb_false_iff in Ev. destruct Ev as [Ev|Ev].
      * apply Z.leb_gt in Ev. lia.
      * apply Z.ltb_ge in Ev. lia.
    + apply Z.ltb_ge in Ei.
      replace (i <? n)%Z with false; [now rewrite andb_false_r|].
      symmetry. apply Z.ltb_ge.
      apply andb_false_iff in Ev. destruct Ev as [Ev|Ev].
      * apply Z.leb_gt in Ev. lia.
      * apply Z.ltb_ge in Ev. lia.
Qed.

Lemma ok_or_bind m1 m2 c1 c2 :
  ok_or_IndexError m1 c1 -> ok_or_IndexError m2 c2 ->
  ok_or_IndexError (m1 ;;; m2) (c1 /\ c2).
Proof.
  intros H1 H2 st. destruct (H1 st) as [(Hc1 & st1 & E1)|(st1 & E1)].
  - rewrite (bind_ok E1). destruct (H2 st1) as [(Hc2 & st2 & E2)|(st2 & E2)].
    + left. split; [now split|]. now exists st2.
    + right. now exists st2.
  - right. exists st1. now apply bind_raise.
Qed.

Lemma ok_or_weaken m (c c' : Prop) :
  (c -> c') -> ok_or_IndexError m c -> ok_or_IndexError m c'.
Proof.
  intros Hcc H st. destruct (H st) as [(Hc & Hok)|Hraise]; [left | right]; auto.
Qed.

Lemma ok_or_gate g : ok_or_IndexError (append_gate g) True.
Proof. intros st. left. split; [exact I|]. eexists. reflexivity. Qed.

Lemma ok_or_ret : ok_or_IndexError (ret tt) True.
Proof. intros st. left. split; [exact I|]. eexists. reflexivity. Qed.

Lemma ok_or_cx_at r1 i1 r2 i2 : ok_or_IndexError (cx_at r1 i1 r2 i2) True.
Proof.
  intros st. unfold cx_at, bind, lift.
  destruct (getitem_cases r1 i1) as [[_ ->]|[_ ->]]; [|right; now eexists].
  destruct (getitem_cases r2 i2) as [[_ ->]|[_ ->]]; [|right; now eexists].
  left. split; [exact I|]. eexists. reflexivity.
Qed.

Lemma ok_or_ccx_at r1 i1 r2 i2 r3 i3 :
  ok_or_IndexError (ccx_at r1 i1 r2 i2 r3 i3) True.
Proof.
  intros st. unfold ccx_at, bind, lift.
  destruct (getitem_cases r1 i1) as [[_ ->]|[_ ->]]; [|right; now eexists].
  destruct (getitem_cases r2 i2) as [[_ ->]|[_ ->]]; [|right; now eexists].
  destruct (getitem_cases r3 i3) as [[_ ->]|[_ ->]]; [|right; now eexists].
  left. split; [exact I|]. eexists. reflexivity.
Qed.

Lemma ok_or_xor_literal f_in aux k l :
  ok_or_IndexError (xor_literal f_in aux k l) (literal_in_range f_in l = true).
Proof.
  intros st. unfold xor_literal, literal_in_range, literal_index.
  destruct (l >? 0)%Z; unfold bind, lift, circ_x, circ_cx.
  - destruct (getitem_cases f_in (l - 1)) as [[Hv ->]|[_ ->]]; [|right; now eexists].
    destruct (getitem_cases aux (Z.of_nat k)) as [[_ ->]|[_ ->]]; [|right; now eexists].
    left. split; [assumption|]. eexists. reflexivity.
  - destruct (getitem_cases f_in (- l - 1)) as [[Hv ->]|[_ ->]]; [|right; now eexists].
    cbn [append_gate].
    destruct (getitem_cases aux (Z.of_nat k)) as [[_ ->]|[_ ->]]; [|right; now eexists].
    left. split; [assumption|]. eexists. reflexivity.
Qed.

Lemma ok_or_unflip_literal f_in l :
  ok_or_IndexError (unflip_literal f_in l) True.
Proof.
  intros st. unfold unflip_literal.
  destruct (l <? 0)%Z; [|apply ok_or_ret].
  unfold bind, lift, circ_x.
  destruct (getitem_cases f_in (- l - 1)) as [[_ ->]|[_ ->]]; [|right; now eexists].
  left. split; [exact I|]. eexists. reflexivity.
Qed.

Lemma ok_or_for_each {A} (body : A -> M unit) (c : A -> Prop) (xs : list A) :
  (forall x, ok_or_IndexError (body x) (c x)) ->
  ok_or_IndexError (for_each xs body) (Forall c xs).
Proof.
  intros Hbody. induction xs as [|x xs IH]; cbn [for_each].
  - apply (ok_or_weaken _ True); [constructor | apply ok_or_ret].
  - apply (ok_or_weaken _ (c x /\ Forall c xs)).
    + intros [H1 H2]. now constructor.
    + now apply ok_or_bind.
Qed.

Lemma ok_or_bind_True m1 m2 :
  ok_or_IndexError m1 True -> ok_or_IndexError m2 True ->
  ok_or_IndexError (m1 ;;; m2) True.
Proof.
  intros H1 H2. apply (ok_or_weaken _ (True /\ True)); [auto|].
  now apply ok_or_bind.
Qed.

Lemma ok_or_clause_body f_in aux num_clauses k clause :
  ok_or_IndexError (clause_body f_in aux num_clauses k clause)
                   (Forall (fun l => literal_in_range f_in l = true) clause).
Proof.
  unfold clause_body, circ_barrier.
  apply (ok_or_weaken _ (Forall (fun l => literal_in_range f_in l = true) clause /\ True)).
  { intros [H _]. exact H. }
  apply ok_or_bind.
  { apply ok_or_for_each. intros l. apply ok_or_xor_literal. }
  apply ok_or_bind_True; [apply ok_or_gate|].
  apply ok_or_bind_True; [apply ok_or_ccx_at|].
  apply ok_or_bind_True; [apply ok_or_ccx_at|].
  apply ok_or_bind_True; [apply ok_or_gate|].
  apply ok_or_bind_True; [apply ok_or_ccx_at|].
  apply ok_or_bind_True; [|apply ok_or_gate].
  apply (ok_or_weaken _ (Forall (fun _ : Z => True) clause)); [auto|].
  apply ok_or_for_each. intros l. apply ok_or_unflip_literal.
Qed.

Lemma ok_or_pass f_in aux num_clauses clauses : forall k0,
  ok_or_IndexError
    (for_enumerate k0 clauses (clause_body f_in aux num_clauses))
    (Forall (Forall (fun l => literal_in_range f_in l = true)) clauses).
Proof.
  induction clauses as [|c cs IH]; intros k0; cbn [for_enumerate].
  - apply (ok_or_weaken _ True); [constructor | apply ok_or_ret].
  - eapply ok_or_weaken; [|apply ok_or_bind; [apply ok_or_clause_body | apply IH]].
    intros [H1 H2]. now constructor.
Qed.

Lemma literal_in_range_bounds f_in l :
  literal_in_range f_in l = true
  <-> (- Z.of_nat (length f_in) <= l <= Z.of_nat (length f_in))%Z /\
      (l = 0%Z -> 1 <= length f_in).
Proof.
  unfold literal_in_range, literal_index, valid_index.
  rewrite andb_true_iff, Z.leb_le, Z.ltb_lt.
  destruct (l >? 0)%Z eqn:E.
  - rewrite Z.gtb_ltb in E. apply Z.ltb_lt in E. lia.
  - rewrite Z.gtb_ltb in E. apply Z.ltb_ge in E. lia.
Qed.

(** A literal beyond the input register is a subscript out of range: if any
    literal of any clause is greater than [len(f_in)] or less than
    [-len(f_in)], [apply_oracle] raises [IndexError], whatever the other
    arguments are (the qubits of the registers being distinct).  The literal
    0 is not such a literal: it subscripts [f_in[-1]]. *)
Theorem apply_oracle_literal_out_of_range f_in f_out aux n expression st clause l :
  NoDup (f_in ++ f_out ++ aux) ->
  In clause expression -> In l clause ->
  (Z.of_nat (length f_in) < l \/ l < - Z.of_nat (length f_in))%Z ->
  fst (apply_oracle f_in f_out aux n expression st) = Raise IndexError.
Proof.
  intros _ Hc Hl Hbad. unfold apply_oracle.
  destruct (ok_or_pass f_in aux (length expression) expression 0 st)
    as [(Hall & _)|(st' & Hraise)].
  - exfalso.
    rewrite Forall_forall in Hall. specialize (Hall clause Hc).
    rewrite Forall_forall in Hall. specialize (Hall l Hl).
    apply literal_in_range_bounds in Hall. lia.
  - now rewrite (bind_raise Hraise).
Qed.

Lemma apply_oracle_literal_out_of_range_witness :
  let f_in := QuantumRegister 3 "x" in
  let f_out := QuantumRegister 1 "out" in
  let aux := QuantumRegister 3 "aux" in
  let st := PyState [] [("x"%string, 3); ("out"%string, 1); ("aux"%string, 3)]
                    (fun _ => []) 0 [] in
  let expression := [[1; 2; -3]; [1; 2; 4]]%Z in
  fst (apply_oracle f_in f_out aux 3 expression st) = Raise IndexError.
Proof.
  intros f_in f_out aux st expression.
  apply (apply_oracle_literal_out_of_range f_in f_out aux 3 expression st
           [1; 2; 4]%Z 4%Z).
  - simpl. repeat constructor; simpl; intuition discriminate.
  - simpl. auto.
  - simpl. auto.
  - simpl. lia.
Defined.

(** ** The Schroedinger notebook: the grid, the Hamiltonian, the generator *)

Section MoreSchroedingerFacts.

Import Schroedinger DerivedSchroedinger.
Local Open Scope R_scope.

Lemma X_nth N L i :
  (i < N)%nat -> nth i (X N L) 0 = INR i * (L / (INR N - 1)) - L / 2.
Proof.
  intros Hi. unfold X, linspace.
  rewrite (nth_map_in _ _ i 0 0) by now rewrite length_map, length_seq.
  rewrite nth_map_seq by assumption. unfold Rdiv. ring.
Qed.

(** The grid is uniform: with at least two points, [X] starts at [-L/2],
    ends at [L/2], and any two neighbours are [a = L / (N - 1)] apart. *)
Theorem grid_is_uniform N L :
  (2 <= N)%nat ->
  a N L = L / (INR N - 1) /\
  nth 0 (X N L) 0 = - L / 2 /\
  nth (N - 1) (X N L) 0 = L / 2 /\
  (forall i, (S i < N)%nat -> nth (S i) (X N L) 0 - nth i (X N L) 0 = a N L).
Proof.
  intros HN.
  assert (Hnz : INR N - 1 <> 0).
  { assert (2 <= INR N) by (change 2 with (INR 2); now apply le_INR). lra. }
  assert (Ha : a N L = L / (INR N - 1)).
  { unfold a. rewrite !X_nth by lia. simpl. unfold Rdiv. ring. }
  split; [assumption|]. split; [|split].
  - rewrite X_nth by lia. simpl. unfold Rdiv. ring.
  - rewrite X_nth by lia. rewrite minus_INR by lia. simpl. field. assumption.
  - intros i Hi. rewrite Ha, !X_nth by lia. rewrite S_INR. unfold Rdiv. ring.
Qed.

Lemma grid_is_uniform_witness :
  let N := 100%nat in
  a N 100 = 100 / (INR N - 1) /\
  nth 0 (X N 100) 0 = - 100 / 2 /\
  nth (N - 1) (X N 100) 0 = 100 / 2 /\
  (forall i, (S i < N)%nat -> nth (S i) (X N 100) 0 - nth i (X N 100) 0 = a N 100).
Proof.
  intros N. apply (grid_is_uniform N 100). unfold N. lia.
Defined.

(** The Hamiltonian is symmetric. *)
Theorem H_is_symmetric N L eta m q i j :
  (i < N)%nat -> (j < N)%nat ->
  entry (H N L eta m q) i j = entry (H N L eta m q) j i.
Proof.
  intros Hi Hj. rewrite !H_entry by assumption.
  destruct (Nat.eq_dec i j) as [->|Hne]; [reflexivity|].
  replace (Z.of_nat j =? Z.of_nat i + 0)%Z with false by (symmetry; apply Z.eqb_neq; lia).
  replace (Z.of_nat i =? Z.of_nat j + 0)%Z with false by (symmetry; apply Z.eqb_neq; lia).
  destruct (Z.eqb_spec (Z.of_nat j) (Z.of_nat i + -1)) as [E1|E1];
    destruct (Z.eqb_spec (Z.of_nat j) (Z.of_nat i + 1)) as [E2|E2].
  - lia.
  - replace (Z.of_nat i =? Z.of_nat j + -1)%Z with false by (symmetry; apply Z.eqb_neq; lia).
    replace (Z.of_nat i =? Z.of_nat j + 1)%Z with true by (symmetry; apply Z.eqb_eq; lia).
    ring.
  - replace (Z.of_nat i =? Z.of_nat j + -1)%Z with true by (symmetry; apply Z.eqb_eq; lia).
    replace (Z.of_nat i =? Z.of_nat j + 1)%Z with false by (symmetry; apply Z.eqb_neq; lia).
    ring.
  - replace (Z.of_nat i =? Z.of_nat j + -1)%Z with false by (symmetry; apply Z.eqb_neq; lia).
    replace (Z.of_nat i =? Z.of_nat j + 1)%Z with false by (symmetry; apply Z.eqb_neq; lia).
    ring.
Qed.

Lemma H_is_symmetric_witness :
  entry (H 100 100 1 1 1) 3 4 = entry (H 100 100 1 1 1) 4 3.
Proof. apply (H_is_symmetric 100 100 1 1 1 3 4); lia. Defined.

(** With the potential of the notebook ([V] is 0 everywhere) the diagonal of
    [H] is constant: every diagonal entry is [-2*t], which is
    [eta^2 / (m * a^2)] when [m] and [a] are not 0. *)
Theorem H_diagonal_is_constant N L eta m q i :
  (i < N)%nat ->
  entry (H N L eta m q) i i = -2 * t N L eta m /\
  (m <> 0 -> a N L <> 0 ->
   entry (H N L eta m q) i i = eta ^ 2 / (m * a N L ^ 2)).
Proof.
  intros Hi.
  assert (Hd : entry (H N L eta m q) i i = -2 * t N L eta m).
  { rewrite H_entry by assumption.
    replace (Z.of_nat i =? Z.of_nat i + -1)%Z with false by (symmetry; apply Z.eqb_neq; lia).
    replace (Z.of_nat i =? Z.of_nat i + 0)%Z with true by (symmetry; apply Z.eqb_eq; lia).
    replace (Z.of_nat i =? Z.of_nat i + 1)%Z with false by (symmetry; apply Z.eqb_neq; lia).
    rewrite eps_nth by assumption. unfold V. ring. }
  split; [assumption|].
  intros Hm Ha. rewrite Hd. unfold t. field. split; assumption.
Qed.

Lemma H_diagonal_is_constant_witness :
  entry (H 100 100 1 1 1) 7 7 = -2 * t 100 100 1 1 /\
  (1 <> 0 -> a 100 100 <> 0 ->
   entry (H 100 100 1 1 1) 7 7 = 1 ^ 2 / (1 * a 100 100 ^ 2)).
Proof. apply (H_diagonal_is_constant 100 100 1 1 1 7). lia. Defined.

(** [evolve] with [num_step = n]: the generator yields exactly [n] pairs and
    then stops; pair number [k] (from 0) carries the time
    [(k + 1) * timestep] and the wavefunction [psi] multiplied by the phase
    of the time [k * timestep]. *)
Theorem evolve_yields_num_step_pairs eta psi E timestep n :
  exists ys,
    drain (S n) (evolve eta psi E timestep (Some n)) = (ys, true) /\
    length ys = n /\
    forall k, (k < n)%nat ->
      nth k ys (0, []) = (INR (S k) * timestep,
                          map (Cmult (phase E eta (INR k * timestep))) psi).
Proof.
  exists (remaining psi E eta timestep n 0). split; [|split].
  - apply (drain_remaining n (evolve eta psi E timestep (Some n)) n (S n)).
    + reflexivity.
    + reflexivity.
    + lia.
  - apply remaining_length.
  - intros k Hk. rewrite remaining_nth by assumption.
    replace (0 + INR (S k) * timestep) with (INR (S k) * timestep) by ring.
    replace (0 + INR k * timestep) with (INR k * timestep) by ring.
    reflexivity.
Qed.

(** [evolve] with [num_step = None]: the first [next] raises [TypeError]
    (from [np.arange(None)]), so the generator never yields; the endless
    loop that the [while] condition provides for is not reached. *)
Theorem evolve_without_num_step_raises eta psi E timestep rounds :
  next_value (evolve eta psi E timestep None) = Raised TypeError /\
  fst (drain rounds (evolve eta psi E timestep None)) = [].
Proof.
  split; [reflexivity|]. destruct rounds; reflexivity.
Qed.

Lemma phase_components E eta t :
  exists theta, phase E eta t = (cos theta, sin theta).
Proof.
  exists (- E / eta * t).
  unfold phase, Cexp, Cmult, Cdiv_real, Copp, Ci, RtoC. cbn [fst snd].
  replace ((- 0 * E - - (1) * 0) / eta * t - (- 0 * 0 + - (1) * E) / eta * 0) with 0
    by (unfold Rdiv; ring).
  replace ((- 0 * E - - (1) * 0) / eta * 0 + (- 0 * 0 + - (1) * E) / eta * t)
    with (- E / eta * t) by (unfold Rdiv; ring).
  rewrite exp_0. f_equal; ring.
Qed.

Lemma Cabs_phase E eta t z : Cabs (Cmult (phase E eta t) z) = Cabs z.
Proof.
  destruct (phase_components E eta t) as (theta & ->).
  unfold Cabs, Cmult. cbn [fst snd]. f_equal.
  pose proof (sin2_cos2 theta) as Hsc. unfold Rsqr in Hsc.
  replace ((cos theta * fst z - sin theta * snd z) * (cos theta * fst z - sin theta * snd z)
           + (cos theta * snd z + sin theta * fst z) * (cos theta * snd z + sin theta * fst z))
    with ((sin theta * sin theta + cos theta * cos theta)
          * (fst z * fst z + snd z * snd z)) by ring.
  rewrite Hsc. ring.
Qed.

(** Stationary states: every wavefunction that [evolve] yields has the
    probability density [np.abs(wave)**2] of [psi], at every point of the
    grid. *)
Theorem evolve_keeps_the_probability_density g t wave g' :
  next_value g = Yield t wave g' ->
  density wave = density (g_psi g) /\ g_psi g' = g_psi g.
Proof.
  unfold next_value. intros Hnext.
  destruct (if g_started g then Ok tt
            else match g_num_step g with None => Raise TypeError | Some _ => Ok tt end);
    [|discriminate].
  destruct (match g_num_step g with None => true | Some n => (g_cnt g <? n)%nat end);
    [|discriminate].
  injection Hnext as _ <- <-. split; [|reflexivity].
  unfold density. rewrite map_map. apply map_ext.
  intros z. now rewrite Cabs_phase.
Qed.

Lemma evolve_keeps_the_probability_density_witness :
  let g := evolve 1 [RtoC 1; Ci] 1 default_timestep default_num_step in
  exists t wave g',
    next_value g = Yield t wave g' /\
    density wave = density (g_psi g) /\ g_psi g' = g_psi g.
Proof.
  intros g. eexists. eexists. eexists.
  split; [reflexivity|].
  eapply evolve_keeps_the_probability_density. reflexivity.
Defined.

End MoreSchroedingerFacts.

(** ** The CHSH notebook: when XV does what XW's sibling should *)

(** The notebook binds [qreg] by [circ, qreg = create_cat()] and takes
    [qbit0 = qreg[0]]: whenever the module-level [qreg] starts with the
    qubit passed as [qbit0], XV appends h on that qubit and then the gates
    of XW with the adjoint [tdg] in place of [t]. *)
Theorem XV_is_right_when_qreg_starts_with_qbit0 g qbit0 qbit1 rest st :
  CHSH.qreg g = Some (qbit0 :: rest) ->
  CHSH.XV g qbit0 qbit1 st
  = (Ok tt, add_gates st [GH qbit0; GS qbit1; GH qbit1; GTdg qbit1; GH qbit1]) /\
  CHSH.XW g qbit0 qbit1 st
  = (Ok tt, add_gates st [GH qbit0; GS qbit1; GH qbit1; GT qbit1; GH qbit1]).
Proof.
  intros Hq.
  assert (Hh : emits (r <- CHSH.read_qreg g ;; q <- lift (getitem r 0) ;; circ_h q)
                     [GH qbit0]).
  { intros st0. unfold CHSH.read_qreg. rewrite Hq.
    unfold bind, ret, lift. now rewrite getitem_0. }
  assert (HV : emits (CHSH.XV g qbit0 qbit1)
                     ([GH qbit0] ++ [GS qbit1] ++ [GH qbit1] ++ [GTdg qbit1] ++ [GH qbit1])).
  { unfold CHSH.XV, circ_s, circ_h, circ_tdg.
    apply emits_bind; [exact Hh|].
    repeat (apply emits_bind; [apply emits_gate|]). apply emits_gate. }
  assert (HW : emits (CHSH.XW g qbit0 qbit1)
                     ([GH qbit0] ++ [GS qbit1] ++ [GH qbit1] ++ [GT qbit1] ++ [GH qbit1])).
  { unfold CHSH.XW, circ_s, circ_h, circ_t.
    repeat (apply emits_bind; [apply emits_gate|]). apply emits_gate. }
  split; [apply HV | apply HW].
Qed.

Lemma XV_is_right_when_qreg_starts_with_qbit0_witness :
  let q0 := Qubit "q" 0 in
  let q1 := Qubit "q" 1 in
  let g := CHSH.Globals (Some [q0; q1]) in
  let st := PyState [] [("q"%string, 2)] (fun _ => []) 0 [] in
  CHSH.XV g q0 q1 st
  = (Ok tt, add_gates st [GH q0; GS q1; GH q1; GTdg q1; GH q1]) /\
  CHSH.XW g q0 q1 st
  = (Ok tt, add_gates st [GH q0; GS q1; GH q1; GT q1; GH q1]).
Proof.
  intros q0 q1 g st.
  apply (XV_is_right_when_qreg_starts_with_qbit0 g q0 q1 [q1] st). reflexivity.
Defined.

(** ** apply_oracle on clauses without repeated variables *)

Lemma names_input_nonzero f_in l :
  names_input f_in l = true -> l <> 0%Z.
Proof.
  unfold names_input. intros H. apply andb_true_iff in H. destruct H as [H _].
  apply Z.leb_le in H. lia.
Qed.

Lemma negate_for_reads_literal l x :
  l <> 0%Z -> negate_for l x (var_of l) = literal_value x l.
Proof.
  intros Hl. unfold negate_for, literal_value, var_of, flip.
  destruct (l >? 0)%Z eqn:E.
  - rewrite Z.gtb_ltb in E. apply Z.ltb_lt in E. f_equal. lia.
  - rewrite Z.gtb_ltb in E. apply Z.ltb_ge in E. rewrite Nat.eqb_refl.
    f_equal. f_equal. lia.
Qed.

Lemma negate_for_elsewhere l x j :
  j <> var_of l -> negate_for l x j = x j.
Proof.
  intros Hj. unfold negate_for, flip. destruct (l >? 0)%Z; [reflexivity|].
  apply Nat.eqb_neq in Hj. now rewrite Hj.
Qed.

Lemma xor_value_agree clause : forall x y,
  (forall j, In j (map var_of clause) -> x j = y j) ->
  xor_value clause x = xor_value clause y.
Proof.
  induction clause as [|l rest IH]; intros x y H; [reflexivity|].
  cbn [xor_value]. f_equal.
  - unfold negate_for, flip. destruct (l >? 0)%Z.
    + apply H. now left.
    + rewrite Nat.eqb_refl. f_equal. apply H. now left.
  - apply IH. intros j Hj. unfold negate_for, flip.
    destruct (l >? 0)%Z; [apply H; now right|].
    rewrite (H j) by now right. reflexivity.
Qed.

Lemma xor_value_distinct clause : forall x,
  Forall (fun l => l <> 0%Z) clause ->
  NoDup (map var_of clause) ->
  xor_value clause x = fold_right xorb false (map (literal_value x) clause).
Proof.
  induction clause as [|l rest IH]; intros x Hnz Hnd; [reflexivity|].
  inversion Hnz as [|? ? Hl Hrest]; subst.
  cbn [map] in Hnd. apply NoDup_cons_iff in Hnd. destruct Hnd as [Hnotin Hnd].
  cbn [xor_value map fold_right].
  rewrite negate_for_reads_literal by assumption. f_equal.
  rewrite <- (IH x Hrest Hnd). apply xor_value_agree.
  intros j Hj. apply negate_for_elsewhere. intros ->. contradiction.
Qed.

Lemma neg_parity_distinct clause i :
  NoDup (map var_of clause) -> neg_parity clause i = negates clause i.
Proof.
  unfold negates. induction clause as [|l rest IH]; intros Hnd; [reflexivity|].
  cbn [map] in Hnd. apply NoDup_cons_iff in Hnd. destruct Hnd as [Hnotin Hnd].
  cbn [neg_parity existsb]. rewrite IH by assumption.
  destruct (negb (l >? 0)%Z && (i =? var_of l)) eqn:E; [|reflexivity].
  apply andb_true_iff in E. destruct E as [_ E]. apply Nat.eqb_eq in E. subst i.
  replace (existsb (fun l0 => negb (l0 >? 0)%Z && (var_of l =? var_of l0)) rest)
    with false; [reflexivity|].
  symmetry. apply not_true_is_false. intros Hex.
  apply existsb_exists in Hex. destruct Hex as (l' & Hl' & E').
  apply andb_true_iff in E'. destruct E' as [_ E']. apply Nat.eqb_eq in E'.
  apply Hnotin. rewrite E'. now apply in_map.
Qed.

Lemma block_value_distinct clause x :
  Forall (fun l => l <> 0%Z) clause ->
  NoDup (map var_of clause) ->
  block_value clause x = xor_and_first_three x clause.
Proof.
  intros Hnz Hnd. unfold block_value, xor_and_first_three.
  rewrite xor_value_distinct by assumption.
  now rewrite !flipped_parity, !neg_parity_distinct by assumption.
Qed.

(** For formulas over any number [n >= 3] of variables whose clauses (of any
    length) never repeat a variable: on distinct registers and clean
    ancillas [apply_oracle] flips [f_out[0]] exactly when, for every clause,
    the xor of its literals differs from the conjunction of [x0], [x1],
    [x2], each negated when the clause negates it; all the other qubits are
    restored.  The conjunction is over the first three inputs whether or
    not the clause mentions them. *)
Theorem apply_oracle_on_distinct_variables f_in f_out aux n expression st s :
  NoDup (f_in ++ f_out ++ aux) ->
  3 <= length f_in -> 1 <= length f_out ->
  length expression < length aux ->
  1 <= length expression <= 3 ->
  Forall (fun clause => forallb (names_input f_in) clause = true /\
                        NoDup (map var_of clause)) expression ->
  (forall q, In q aux -> s q = false) ->
  exists gs s',
    apply_oracle f_in f_out aux n expression st = (Ok tt, add_gates st gs) /\
    run gs s = Some s' /\
    s' (at_ f_out 0)
    = xorb (s (at_ f_out 0))
           (forallb (xor_and_first_three (inputs f_in s)) expression) /\
    (forall q, q <> at_ f_out 0 -> s' q = s q).
Proof.
  intros Hnd H3 Ho Hnc Hrange Hall Hclean.
  assert (Hnames : Forall (fun clause => forallb (names_input f_in) clause = true)
                          expression).
  { eapply Forall_impl; [|exact Hall]. now intros c [Hc _]. }
  assert (Hfit : registers_fit f_in f_out aux expression).
  { repeat split; auto; try lia.
    eapply Forall_impl; [|exact Hnames]. intros c Hc. now apply names_input_in_range. }
  destruct (oracle_gates_run f_in f_out aux expression s Hnd H3 Ho Hnc Hrange
                             Hnames Hclean) as (s' & Hrun & Hout & Hframe).
  exists (oracle_gates f_in f_out aux expression), s'.
  change (at_ f_out 0) with (nth 0 f_out no_qubit).
  split; [now apply apply_oracle_emits|]. split; [assumption|]. split; [|assumption].
  rewrite Hout. f_equal.
  clear - Hall. induction Hall as [|c cs [Hc Hd] _ IH]; [reflexivity|].
  cbn [forallb]. rewrite IH. f_equal.
  apply block_value_distinct; [|assumption].
  rewrite forallb_forall in Hc. apply Forall_forall.
  intros l Hl. apply (names_input_nonzero f_in). now apply Hc.
Qed.

Lemma apply_oracle_on_distinct_variables_witness :
  let f_in := QuantumRegister 4 "x" in
  let f_out := QuantumRegister 1 "out" in
  let aux := QuantumRegister 3 "aux" in
  let st := PyState [] [("x"%string, 4); ("out"%string, 1); ("aux"%string, 3)]
                    (fun _ => []) 0 [] in
  let expression := [[1; 2; -4]; [-1; 3; 4]]%Z in
  let s : bstate := fun q => qubit_eqb q (Qubit "x" 0) || qubit_eqb q (Qubit "x" 3) in
  exists gs s',
    apply_oracle f_in f_out aux 4 expression st = (Ok tt, add_gates st gs) /\
    run gs s = Some s' /\
    s' (at_ f_out 0)
    = xorb (s (at_ f_out 0))
           (forallb (xor_and_first_three (inputs f_in s)) expression) /\
    (forall q, q <> at_ f_out 0 -> s' q = s q).
Proof.
  intros f_in f_out aux st expression s.
  apply (apply_oracle_on_distinct_variables f_in f_out aux 4 expression st s).
  - simpl. repeat constructor; simpl; intuition discriminate.
  - simpl. lia.
  - simpl. lia.
  - simpl. lia.
  - simpl. lia.
  - repeat constructor; simpl; intuition discriminate.
  - simpl. intros q [<-|[<-|[<-|[]]]]; reflexivity.
Defined.

(** ** invert_about_avg on four qubits or more *)

Lemma bind_cong {A B} (m1 m2 : M A) (k : A -> M B) st1 st2 :
  m1 st1 = m2 st2 -> bind m1 k st1 = bind m2 k st2.
Proof. unfold bind. now intros ->. Qed.

(** The state in which [invert_about_avg] calls [CnX]: after h and x on
    every qubit, the barrier, the new list of controls and the first h of
    [CnZ]. *)
Lemma invert_about_avg_reaches_CnX cs t aux st :
  invert_about_avg (cs ++ [t]) aux st
  = ((CnX (PList (next st)) (TQubit t) aux ;;; circ_h t) ;;;
     circ_barrier (Some (cs ++ [t])) ;;;
     for_each (cs ++ [t]) circ_x ;;;
     for_each (cs ++ [t]) circ_h)
      (add_gates (alloc (add_gates st (map GH (cs ++ [t]) ++ map GX (cs ++ [t]) ++
                                       [GBarrier (Some (cs ++ [t]))])) cs) [GH t]).
Proof.
  unfold invert_about_avg, circ_barrier, circ_h, circ_x.
  rewrite (bind_ok (emits_each_gate GH (cs ++ [t]) st)).
  rewrite (bind_ok (emits_each_gate GX (cs ++ [t]) _)).
  rewrite (bind_ok (append_gate_add _ _)).
  rewrite !add_gates_app.
  rewrite removelast_last.
  apply bind_cong.
  unfold bind at 1. cbn [list_new]. unfold bind at 1. unfold lift.
  rewrite getitem_last.
  unfold CnZ. cbn [circ_h_on]. unfold circ_h.
  reflexivity.
Qed.

(** The notebook's call [invert_about_avg(grover, f_in, aux)] on four input
    qubits or more ([n - 1 >= 3] controls [cs] and the last qubit [t]) with a
    register of exactly [n - 3] clean ancillas: the call returns normally;
    it appends h and x on every input, a barrier, h on the last input, the
    gates [gs] of [CnX], h on the last input, a barrier, and x and h on
    every input; and [gs] flips the last input exactly when all the others
    are 1, leaving every other qubit as it was. *)
Theorem invert_about_avg_with_the_right_ancillas cs t qs st s :
  3 <= length cs ->
  length qs = length cs - 2 ->
  NoDup (cs ++ qs ++ [t]) ->
  (forall q, In q qs -> s q = false) ->
  exists st' gs s',
    invert_about_avg (cs ++ [t]) (Some (PTuple qs)) st = (Ok tt, st') /\
    gates st' = gates st ++
      map GH (cs ++ [t]) ++ map GX (cs ++ [t]) ++ [GBarrier (Some (cs ++ [t]))] ++
      [GH t] ++ gs ++ [GH t] ++
      [GBarrier (Some (cs ++ [t]))] ++ map GX (cs ++ [t]) ++ map GH (cs ++ [t]) /\
    qregs st' = qregs st /\
    stdout st' = stdout st /\
    run gs s = Some s' /\
    s' t = xorb (s t) (forallb s cs) /\
    (forall q, q <> t -> s' q = s q).
Proof.
  intros H3 Hlen Hnd Hclean.
  rewrite invert_about_avg_reaches_CnX.
  set (gs0 := map GH (cs ++ [t]) ++ map GX (cs ++ [t]) ++ [GBarrier (Some (cs ++ [t]))]).
  set (st3 := add_gates (alloc (add_gates st gs0) cs) [GH t]).
  assert (Hc : heap st3 (next st) = cs).
  { unfold st3, alloc. cbn [heap add_gates next]. now rewrite Nat.eqb_refl. }
  assert (Hn3 : next st3 = S (next st)) by reflexivity.
  assert (Hc4 : heap (alloc st3 qs) (next st) = cs).
  { unfold alloc at 1. cbn [heap]. rewrite Hn3.
    replace (next st =? S (next st)) with false
      by (symmetry; apply Nat.eqb_neq; lia).
    exact Hc. }
  assert (Ha4 : heap (alloc st3 qs) (next st3) = qs).
  { unfold alloc at 1. cbn [heap]. now rewrite Nat.eqb_refl. }
  destruct (CnX_level_runs_ladder (length cs) (alloc st3 qs) (next st) (next st3)
              (TQubit t)) as (st' & Hrun & Hg & Hq & Hn & Hs & _).
  { rewrite Hn3. lia. }
  { now rewrite Hc4. }
  { now rewrite Hc4, Ha4. }
  { rewrite Hc4. lia. }
  rewrite Hc4, Ha4 in Hg.
  assert (Hcnx : CnX (PList (next st)) (TQubit t) (Some (PTuple qs)) st3 = (Ok tt, st')).
  { unfold CnX. cbn [contents]. rewrite Hc.
    rewrite CnX_rec_enters_level_tuple by (rewrite Hc; assumption).
    exact Hrun. }
  destruct (ladder_sem (rev qs) (rev cs) t s) as (s' & Hs' & Ht & Hframe).
  { rewrite !length_rev. lia. }
  { apply (Permutation_NoDup (l := cs ++ qs ++ [t])); [|assumption].
    apply Permutation_app; [apply Permutation_rev|].
    apply Permutation_app; [apply Permutation_rev|apply Permutation_refl]. }
  { intros q Hq'. apply Hclean. now apply in_rev. }
  unfold circ_barrier, circ_h, circ_x.
  assert (Hcnz : (CnX (PList (next st)) (TQubit t) (Some (PTuple qs)) ;;;
                  append_gate (GH t)) st3 = (Ok tt, add_gates st' [GH t])).
  { rewrite (bind_ok Hcnx). apply append_gate_add. }
  rewrite (bind_ok Hcnz).
  rewrite (bind_ok (append_gate_add _ _)).
  rewrite (bind_ok (emits_each_gate GX (cs ++ [t]) _)).
  rewrite (emits_each_gate GH (cs ++ [t]) _).
  rewrite !add_gates_app.
  eexists. exists (ladder (rev cs) (rev qs) (TQubit t)), s'.
  split; [reflexivity|].
  cbn [add_gates gates qregs stdout]. rewrite Hg, Hq, Hs.
  cbn [add_gates gates qregs stdout st3 alloc].
  rewrite Ht, forallb_rev.
  split; [|split; [reflexivity|split; [reflexivity|split; [assumption|split;
           [reflexivity|assumption]]]]].
  unfold gs0. rewrite <- !app_assoc. reflexivity.
Qed.

Lemma invert_about_avg_with_the_right_ancillas_witness :
  let cs := QuantumRegister 3 "x" in
  let t := Qubit "x" 3 in
  let qs := QuantumRegister 1 "aux" in
  let st := PyState [] [("x"%string, 4); ("out"%string, 1); ("aux"%string, 1)]
                    (fun _ => []) 0 [] in
  let s : bstate := fun q => match q with Qubit r _ => String.eqb r "x" end in
  exists st' gs s',
    invert_about_avg (cs ++ [t]) (Some (PTuple qs)) st = (Ok tt, st') /\
    gates st' = gates st ++
      map GH (cs ++ [t]) ++ map GX (cs ++ [t]) ++ [GBarrier (Some (cs ++ [t]))] ++
      [GH t] ++ gs ++ [GH t] ++
      [GBarrier (Some (cs ++ [t]))] ++ map GX (cs ++ [t]) ++ map GH (cs ++ [t]) /\
    qregs st' = qregs st /\
    stdout st' = stdout st /\
    run gs s = Some s' /\
    s' t = xorb (s t) (forallb s cs) /\
    (forall q, q <> t -> s' q = s q).
Proof.
  intros cs t qs st s.
  apply (invert_about_avg_with_the_right_ancillas cs t qs st s).
  - simpl. lia.
  - reflexivity.
  - simpl. repeat constructor; simpl; intuition discriminate.
  - simpl. intros q [<-|[]]. reflexivity.
Defined.

(** The notebook builds its ancilla register for the oracle
    ([len(expression) + 1] qubits, named [aux]) and passes the same register
    to [invert_about_avg].  On four input qubits or more, unless that
    register has exactly [n - 3] qubits, the call fails: [CnX] prints its
    warning and tries to add a second register named [aux], which the
    library refuses.  The circuit keeps h, x, the barrier and the first h of
    [CnZ]. *)
Theorem invert_about_avg_fails_with_other_ancillas cs t qs st :
  3 <= length cs ->
  length qs <> length cs - 2 ->
  NoDup (cs ++ [t]) ->
  aux_name_free st = false ->
  exists st',
    invert_about_avg (cs ++ [t]) (Some (PTuple qs)) st = (Raise CircuitError, st') /\
    gates st' = gates st ++
      map GH (cs ++ [t]) ++ map GX (cs ++ [t]) ++
      [GBarrier (Some (cs ++ [t])); GH t] /\
    qregs st' = qregs st /\
    stdout st' = stdout st ++ [Printed (length qs) (length cs - 2)].
Proof.
  intros H3 Hwrong _ Htaken.
  rewrite invert_about_avg_reaches_CnX.
  set (gs0 := map GH (cs ++ [t]) ++ map GX (cs ++ [t]) ++ [GBarrier (Some (cs ++ [t]))]).
  set (st3 := add_gates (alloc (add_gates st gs0) cs) [GH t]).
  assert (Hc : heap st3 (next st) = cs).
  { unfold st3, alloc. cbn [heap add_gates next]. now rewrite Nat.eqb_refl. }
  assert (Hcnx : CnX (PList (next st)) (TQubit t) (Some (PTuple qs)) st3
                 = (Raise CircuitError,
                    PyState (gates st3) (qregs st3) (heap st3) (next st3)
                            (stdout st3 ++ [Printed (length qs) (length cs - 2)]))).
  { unfold CnX. cbn [contents]. rewrite Hc.
    rewrite CnX_rec_fallback_state; cbn [contents]; rewrite ?Hc; auto. }
  rewrite (bind_raise (bind_raise Hcnx)).
  eexists. split; [reflexivity|].
  cbn [gates qregs stdout st3 add_gates alloc]. unfold gs0.
  rewrite <- !app_assoc. cbn [app]. repeat split; reflexivity.
Qed.

Lemma invert_about_avg_fails_with_other_ancillas_witness :
  let cs := QuantumRegister 3 "x" in
  let t := Qubit "x" 3 in
  let qs := QuantumRegister 2 "aux" in
  let st := PyState [] [("x"%string, 4); ("out"%string, 1); ("aux"%string, 2)]
                    (fun _ => []) 0 [] in
  exists st',
    invert_about_avg (cs ++ [t]) (Some (PTuple qs)) st = (Raise CircuitError, st') /\
    gates st' = gates st ++
      map GH (cs ++ [t]) ++ map GX (cs ++ [t]) ++
      [GBarrier (Some (cs ++ [t])); GH t] /\
    qregs st' = qregs st /\
    stdout st' = stdout st ++ [Printed (length qs) (length cs - 2)].
Proof.
  intros cs t qs st.
  apply (invert_about_avg_fails_with_other_ancillas cs t qs st).
  - simpl. lia.
  - simpl. lia.
  - simpl. repeat constructor; simpl; intuition discriminate.
  - reflexivity.
Defined.
